(** * Voltwise allocation engine: a shallow embedding of [scheduler.py]

    The engine maps a snapshot (now, vehicles, chargers, routes, prices,
    site cap) to a charging plan.  The embedding follows the Python source
    function by function.

    Modelling conventions.
    - Python [float] values are idealised as exact rationals [Q]: no
      rounding, no NaN, no infinities.  Comparisons are the boolean tests
      [Qleb] and [Qltb]; the builtins [max] and [min] keep Python's
      "first argument wins on ties" behaviour.
    - A naive [datetime] is an integer count of microseconds on the
      caller's time line; the difference of two of them is a [timedelta],
      again in microseconds.
    - A [dict] with string keys is a [gmap string _]; insertion order is
      not observable by any property studied here.
    - An alert is a tagged value carrying what its text shows: the vehicle
      identity and, for the critical alert, the power as printed, with one
      decimal. *)

From Stdlib Require Import QArith Qround Qabs Qminmax Lqa.
From stdpp Require Import gmap strings list fin_maps sorting.

#[local] Set Warnings "-clear-no-such-hyp".

(** ** Numbers *)

Definition Qleb (x y : Q) : bool := Qle_bool x y.
Definition Qltb (x y : Q) : bool := negb (Qle_bool y x).

(** [max(a, b)]: the builtin keeps [a] unless [b > a]. *)
Definition py_max (a b : Q) : Q := if Qltb a b then b else a.

(** [min(a, b)]: the builtin keeps [a] unless [b < a]. *)
Definition py_min (a b : Q) : Q := if Qltb b a then b else a.

(** [min(a, b, c)], scanning left to right. *)
Definition py_min3 (a b c : Q) : Q := py_min (py_min a b) c.

(** [round(x, ndigits)] on exact values: nearest multiple of
    [10^-ndigits], halves to the even neighbour. *)
Definition round_half_even (y : Q) : Z :=
  let f := Qfloor y in
  let r := (y - inject_Z f)%Q in
  if Qltb r 0.5 then f
  else if Qltb 0.5 r then (f + 1)%Z
  else if Z.even f then f else (f + 1)%Z.

Definition py_round (x : Q) (ndigits : nat) : Q :=
  let s := inject_Z (10 ^ Z.of_nat ndigits) in
  (inject_Z (round_half_even (x * s)) / s)%Q.

(** The number printed by the format [{x:.1f}]: [x] with one decimal,
    halves to the even neighbour. *)
Definition format_1f (x : Q) : Q := py_round x 1.

(** ** Time *)

Definition datetime := Z.
Definition timedelta := Z.
Bind Scope Z_scope with datetime timedelta.

Definition total_seconds (d : timedelta) : Q := (inject_Z d / 1000000)%Q.

(** A [datetime] value: its wall-clock reading and, when it is aware,
    its offset from UTC. *)
Record Stamp := mkStamp {
  wall : datetime;
  utcoffset : option timedelta
}.

Definition aware (d : Stamp) : bool :=
  match utcoffset d with
  | Some _ => true
  | None => false
  end.

(** The instant of an aware [datetime] on the UTC time line. *)
Definition utc_instant (d : Stamp) : datetime :=
  match utcoffset d with
  | Some off => (wall d - off)%Z
  | None => wall d
  end.

(** ** models.py *)

Module Vehicle.
Record t := mk {
    id : string;
    battery_kwh : Q;
    soc : Q;
    soh : Q;
    temp_c : Q;
    state : string;
    charger_id : option string
  }.
End Vehicle.

Module Charger.
Record t := mk {
    id : string;
    max_kw : Q;
    enabled : bool;
    efficiency : Q
  }.
End Charger.

Module RoutePlan.
Record t := mk {
    id : string;
    vehicle_id : string;
    start_time : datetime;
    end_time : datetime;
    distance_km : Q;
    eta_minutes : Q;
    consumption_kwh : Q;
    required_soc_min : Q
  }.
End RoutePlan.

Module EnergyPricePoint.
Record t := mk {
    ts : datetime;
    eur_per_kwh : Q
  }.
End EnergyPricePoint.

Module SiteConstraints.
Record t := mk {
    site_max_kw : Q
  }.
End SiteConstraints.

(** ** scheduler.py: outputs *)

Module ChargingCommand.
Record t := mk {
    vehicle_id : string;
    charger_id : string;
    set_kw : Q;
    reason : string
  }.
End ChargingCommand.

(** The two alert texts of [make_plan]: the first shows the vehicle
    identity, the second the vehicle identity and the power
    [{final_kw:.1f}]. *)
Inductive Alert :=
| AlertRouteOverdue (vehicle_id : string)
| AlertCritical (vehicle_id : string) (shown_kw : Q).

Definition alert_vehicle (a : Alert) : string :=
  match a with
  | AlertRouteOverdue vid => vid
  | AlertCritical vid _ => vid
  end.

(** The values of the ["status"] entry of an explanation. *)
Inductive Status := ignorado | ok | erro | planeado | nao_planeado.

Definition status_text (s : Status) : string :=
  match s with
  | ignorado => "ignorado"
  | ok => "ok"
  | erro => "erro"
  | planeado => "planeado"
  | nao_planeado => "não_planeado"
  end.

(** The entries of [base_expl]. *)
Record BaseExpl := mkBase {
  e_vehicle_id : string;
  e_charger_id : string;
  soc_atual : Q;
  soc_min_rota : Q;
  defice_soc : Q;
  bateria_kwh : Q;
  minutos_ate_rota : Q;
  limite_site_kw : Q;
  restante_site_kw : Q;
  limite_carregador_kw : Q;
  route_start_time : datetime;
  route_end_time : datetime;
  price_now_eur_kwh : option Q;
  best_price_until_route_eur_kwh : option Q;
  price_delay_applied : bool
}.

(** The entries added in the sizing branch. *)
Record SizingExpl := mkSizing {
  need_kwh : Q;
  kw_medio_necessario : Q;
  kw_pedido : Q;
  kw_final : Q
}.

Record Explanation := mkExpl {
  status : Status;
  motivo : string;
  base : option BaseExpl;
  sizing : option SizingExpl
}.

Module PlanResult.
Record t := mk {
    ts : datetime;
    total_kw : Q;
    commands : list ChargingCommand.t;
    alerts : list Alert;
    explanations : gmap string Explanation
  }.
End PlanResult.

(** ** scheduler.py: helpers *)

Definition clamp (x lo hi : Q) : Q := py_max lo (py_min hi x).

(** [min(xs, key=f)] on a list with head [x]: the first element whose key
    is minimal. *)
Fixpoint min_by {A} (key : A → Q) (best : A) (xs : list A) : A :=
  match xs with
  | [] => best
  | x :: xs' => min_by key (if Qltb (key x) (key best) then x else best) xs'
  end.

Definition price_at (prices : list EnergyPricePoint.t) (ts : datetime) : option Q :=
  match prices with
  | [] => None
  | p :: ps =>
      let best :=
        min_by (λ p, Qabs (total_seconds (EnergyPricePoint.ts p - ts)%Z)) p ps in
      Some (EnergyPricePoint.eur_per_kwh best)
  end.

Definition in_window (start end_ : datetime) (p : EnergyPricePoint.t) : bool :=
  (start <=? EnergyPricePoint.ts p)%Z && (EnergyPricePoint.ts p <=? end_)%Z.

Definition min_price_until (prices : list EnergyPricePoint.t)
    (start end_ : datetime) : option Q :=
  match prices with
  | [] => None
  | _ =>
      let window :=
        map EnergyPricePoint.eur_per_kwh
            (List.filter (in_window start end_) prices) in
      match window with
      | [] => None
      | w :: ws => Some (min_by (λ x, x) w ws)
      end
  end.

Definition should_delay_charging_with (price_now best_future_price : option Q)
    (minutes_to_start deficit_soc delay_margin urgency_minutes : Q) : bool :=
  if Qleb deficit_soc 0 then false
  else if Qleb minutes_to_start urgency_minutes then false
  else match price_now, best_future_price with
       | Some pn, Some bf => Qltb (bf * (1.0 + delay_margin)) pn
       | _, _ => false
       end.

(** The call with the default [delay_margin] and [urgency_minutes]. *)
Definition should_delay_charging (price_now best_future_price : option Q)
    (minutes_to_start deficit_soc : Q) : bool :=
  should_delay_charging_with price_now best_future_price
                             minutes_to_start deficit_soc 0.15 60.0.

Definition battery_friendly_kw (vehicle : Vehicle.t) (charger : Charger.t)
    (requested_kw : Q) : Q :=
  let kw := requested_kw in
  let kw := if Qleb 0.80 (Vehicle.soc vehicle) then (kw * 0.5)%Q else kw in
  let kw := if Qleb 0.92 (Vehicle.soc vehicle) then (kw * 0.3)%Q else kw in
  let kw := if Qleb 40 (Vehicle.temp_c vehicle) then (kw * 0.5)%Q else kw in
  clamp kw 0.0 (Charger.max_kw charger).

Definition minutes_until (start now : datetime) : Q :=
  (total_seconds (start - now)%Z / 60.0)%Q.

Definition compute_urgency (vehicle : Vehicle.t) (route : RoutePlan.t)
    (now : datetime) : Q :=
  let time_to_start := minutes_until (RoutePlan.start_time route) now in
  let deficit_soc :=
    py_max 0.0 (RoutePlan.required_soc_min route - Vehicle.soc vehicle) in
  (deficit_soc * 1000.0 + py_max 0.0 (180.0 - time_to_start))%Q.

(** ** scheduler.py: [make_plan] *)

(** [{c.id: c for c in chargers}]: a later entry replaces an earlier one
    with the same key. *)
Definition charger_by_id_of (chargers : list Charger.t) : gmap string Charger.t :=
  foldl (λ m c, <[Charger.id c := c]> m) ∅ chargers.

(** [{r.vehicle_id: r for r in routes}]. *)
Definition route_by_vehicle_of (routes : list RoutePlan.t) : gmap string RoutePlan.t :=
  foldl (λ m r, <[RoutePlan.vehicle_id r := r]> m) ∅ routes.

Definition Triple : Type := Vehicle.t * Charger.t * RoutePlan.t.

Definition ignored (why : string) : Explanation :=
  mkExpl ignorado why None None.

(** One pass of the filtering loop body: either the explanation stored
    for an ignored vehicle, or the triple appended to [eligible]. *)
Definition filter_vehicle (charger_by_id : gmap string Charger.t)
    (route_by_vehicle : gmap string RoutePlan.t) (v : Vehicle.t)
    : Explanation + Triple :=
  if negb (String.eqb (Vehicle.state v) "DISPONIVEL") then
    inl (ignored ("estado=" ++ Vehicle.state v))
  else
    match Vehicle.charger_id v with
    | None => inl (ignored "não está ligado a carregador")
    | Some cid =>
        if String.eqb cid "" then inl (ignored "não está ligado a carregador")
        else
          match charger_by_id !! cid with
          | None => inl (ignored ("carregador " ++ cid ++ " não existe"))
          | Some ch =>
              if negb (Charger.enabled ch) then
                inl (ignored ("carregador " ++ Charger.id ch ++ " desativado"))
              else
                match route_by_vehicle !! Vehicle.id v with
                | None => inl (ignored "sem rota atribuída")
                | Some rt => inr (v, ch, rt)
                end
          end
    end.

(** The filtering loop: the explanations written so far and the list
    [eligible], in input order. *)
Fixpoint filter_loop (charger_by_id : gmap string Charger.t)
    (route_by_vehicle : gmap string RoutePlan.t) (vehicles : list Vehicle.t)
    (explanations : gmap string Explanation) (eligible : list Triple)
    : gmap string Explanation * list Triple :=
  match vehicles with
  | [] => (explanations, eligible)
  | v :: vs =>
      match filter_vehicle charger_by_id route_by_vehicle v with
      | inl e =>
          filter_loop charger_by_id route_by_vehicle vs
                      (<[Vehicle.id v := e]> explanations) eligible
      | inr t =>
          filter_loop charger_by_id route_by_vehicle vs
                      explanations (eligible ++ [t])
      end
  end.

(** [list.sort(key=..., reverse=True)] is a stable sort by decreasing
    key: of two elements with equal keys the one that was first stays
    first.  [insert_desc] puts [x], which preceded every element of [l],
    in front of the first element whose key is not larger. *)
Fixpoint insert_desc {A} (key : A → Q) (x : A) (l : list A) : list A :=
  match l with
  | [] => [x]
  | y :: l' =>
      if Qltb (key x) (key y) then y :: insert_desc key x l' else x :: l
  end.

Fixpoint sort_desc {A} (key : A → Q) (l : list A) : list A :=
  match l with
  | [] => []
  | x :: l' => insert_desc key x (sort_desc key l')
  end.

Definition urgency_key (now : datetime) (t : Triple) : Q :=
  compute_urgency t.1.1 t.2 now.

(** The local variables that the planning loop updates. *)
Record LoopState := mkState {
  remaining_kw : Q;
  commands : list ChargingCommand.t;
  alerts : list Alert;
  explanations : gmap string Explanation
}.

Inductive Flow := Next | Break.

Definition deficit_of (v : Vehicle.t) (rt : RoutePlan.t) : Q :=
  py_max 0.0 (RoutePlan.required_soc_min rt - Vehicle.soc v).

Definition command_reason : string :=
  "Urgência/rota + limites do site + proteção da bateria + custo energia".

Definition sizing_motivo : string :=
  "Potência escolhida para cumprir SoC mínimo e minimizar custo (adiando quando está caro), respeitando limites e proteção de bateria.".

(** The body of the planning loop for one triple.  [Next] stands for
    falling through or [continue], [Break] for the [break] at the end. *)
Definition plan_step (now : datetime) (prices : list EnergyPricePoint.t)
    (site : SiteConstraints.t) (st : LoopState) (t : Triple)
    : LoopState * Flow :=
  let '(v, ch, rt) := t in
  let deficit_soc := deficit_of v rt in
  let minutes_to_start := minutes_until (RoutePlan.start_time rt) now in
  let price_now := price_at prices now in
  let best_price := min_price_until prices now (RoutePlan.start_time rt) in
  let delay_applied :=
    should_delay_charging price_now best_price minutes_to_start deficit_soc in
  let base_expl :=
    mkBase (Vehicle.id v) (Charger.id ch) (Vehicle.soc v)
           (RoutePlan.required_soc_min rt) deficit_soc (Vehicle.battery_kwh v)
           (py_round minutes_to_start 1) (SiteConstraints.site_max_kw site)
           (py_round (remaining_kw st) 2) (Charger.max_kw ch)
           (RoutePlan.start_time rt) (RoutePlan.end_time rt)
           price_now best_price delay_applied in
  if Qleb deficit_soc 0 then
    (mkState (remaining_kw st) (commands st) (alerts st)
       (<[Vehicle.id v :=
            mkExpl ok "já tem SoC suficiente para a rota" (Some base_expl) None]>
          (explanations st)),
     Next)
  else if Qleb minutes_to_start 0 then
    (mkState (remaining_kw st) (commands st)
       (alerts st ++ [AlertRouteOverdue (Vehicle.id v)])
       (<[Vehicle.id v :=
            mkExpl erro "rota já devia ter começado" (Some base_expl) None]>
          (explanations st)),
     Next)
  else
    let need := (deficit_soc * Vehicle.battery_kwh v)%Q in
    let hours := (minutes_to_start / 60.0)%Q in
    let avg_kw_needed := (need / py_max hours 1e-6)%Q in
    let requested_kw :=
      py_min3 avg_kw_needed (Charger.max_kw ch) (remaining_kw st) in
    let requested_kw := clamp requested_kw 0.0 (Charger.max_kw ch) in
    let requested_kw := if delay_applied then 0.0%Q else requested_kw in
    let final_kw := battery_friendly_kw v ch requested_kw in
    let explanations' :=
      <[Vehicle.id v :=
          mkExpl (if Qltb 0.01 final_kw then planeado else nao_planeado)
                 sizing_motivo (Some base_expl)
                 (Some (mkSizing (py_round need 2) (py_round avg_kw_needed 2)
                                 (py_round requested_kw 2) (py_round final_kw 2)))]>
        (explanations st) in
    if Qleb final_kw 0.01 then
      (mkState (remaining_kw st) (commands st) (alerts st) explanations', Next)
    else
      let remaining' := (remaining_kw st - final_kw)%Q in
      let commands' :=
        commands st ++
          [ChargingCommand.mk (Vehicle.id v) (Charger.id ch) final_kw
                              command_reason] in
      let alerts' :=
        if Qltb (Vehicle.soc v) (RoutePlan.required_soc_min rt)
           && Qltb minutes_to_start 60
        then alerts st ++ [AlertCritical (Vehicle.id v) (format_1f final_kw)]
        else alerts st in
      (mkState remaining' commands' alerts' explanations',
       if Qleb remaining' 0.01 then Break else Next).

(** The planning loop over the sorted list. *)
Fixpoint plan_loop (now : datetime) (prices : list EnergyPricePoint.t)
    (site : SiteConstraints.t) (eligible : list Triple) (st : LoopState)
    : LoopState :=
  match eligible with
  | [] => st
  | t :: rest =>
      match plan_step now prices site st t with
      | (st', Break) => st'
      | (st', Next) => plan_loop now prices site rest st'
      end
  end.

(** The triples on which the loop body runs, in order. *)
Fixpoint visited (now : datetime) (prices : list EnergyPricePoint.t)
    (site : SiteConstraints.t) (eligible : list Triple) (st : LoopState)
    : list Triple :=
  match eligible with
  | [] => []
  | t :: rest =>
      match plan_step now prices site st t with
      | (_, Break) => [t]
      | (st', Next) => t :: visited now prices site rest st'
      end
  end.

Definition eligible_sorted (now : datetime) (vehicles : list Vehicle.t)
    (chargers : list Charger.t) (routes : list RoutePlan.t) : list Triple :=
  sort_desc (urgency_key now)
    (filter_loop (charger_by_id_of chargers) (route_by_vehicle_of routes)
                 vehicles ∅ []).2.

Definition initial_state (vehicles : list Vehicle.t)
    (chargers : list Charger.t) (routes : list RoutePlan.t)
    (site : SiteConstraints.t) : LoopState :=
  mkState (SiteConstraints.site_max_kw site) [] []
    (filter_loop (charger_by_id_of chargers) (route_by_vehicle_of routes)
                 vehicles ∅ []).1.

Definition make_plan (now : datetime) (vehicles : list Vehicle.t)
    (chargers : list Charger.t) (routes : list RoutePlan.t)
    (prices : list EnergyPricePoint.t) (site : SiteConstraints.t)
    : PlanResult.t :=
  let st :=
    plan_loop now prices site (eligible_sorted now vehicles chargers routes)
              (initial_state vehicles chargers routes site) in
  PlanResult.mk now (SiteConstraints.site_max_kw site - remaining_kw st)%Q
                (commands st) (alerts st) (explanations st).

(** ** The engine with Python's exceptions made explicit (C8)

    The operations of [scheduler.py] that can raise are [min] on an empty
    sequence ([ValueError]), float division by zero
    ([ZeroDivisionError]), and the subtraction and the ordering of two
    [datetime] values of which one is naive and the other aware
    ([TypeError]).  [Checked] repeats the engine on timestamps that may
    be aware, with these operations returning an error, every other step
    as above.  An aware timestamp has a fixed offset from UTC, as the
    parsing of an ISO 8601 text gives.  Where the engine only stores a
    timestamp ([ts], and the [isoformat] entries of an explanation),
    [Checked] keeps its wall-clock reading. *)

Module Checked.

Inductive PyError := ValueError | ZeroDivisionError | TypeError.

Definition Py (A : Type) : Type := PyError + A.

Definition ret {A} (x : A) : Py A := inr x.
Definition raise {A} (e : PyError) : Py A := inl e.
Definition bind {A B} (m : Py A) (k : A → Py B) : Py B :=
  match m with
  | inl e => inl e
  | inr x => k x
  end.

Notation "'let*' x ':=' m 'in' k" := (bind m (λ x, k))
  (at level 10, x name, m at level 100, k at level 200).

(** [x / y] on floats. *)
Definition py_truediv (x y : Q) : Py Q :=
  if Qeq_bool y 0 then raise ZeroDivisionError else ret (x / y)%Q.

(** [min(xs, key=f)]. *)
Definition py_min_key {A} (key : A → Q) (xs : list A) : Py A :=
  match xs with
  | [] => raise ValueError
  | x :: xs' => ret (min_by key x xs')
  end.

Fixpoint map_py {A B} (f : A → Py B) (l : list A) : Py (list B) :=
  match l with
  | [] => ret []
  | x :: l' => let* y := f x in let* ys := map_py f l' in ret (y :: ys)
  end.

(** [[x for x in l if f(x)]]. *)
Fixpoint filter_py {A} (f : A → Py bool) (l : list A) : Py (list A) :=
  match l with
  | [] => ret []
  | x :: l' =>
      let* b := f x in
      let* r := filter_py f l' in
      ret (if b : bool then x :: r else r)
  end.

(** [a - b] on two [datetime] values: a naive and an aware operand raise
    [TypeError]; two aware operands are subtracted as instants. *)
Definition dt_sub (a b : Stamp) : Py timedelta :=
  match utcoffset a, utcoffset b with
  | None, None => ret (wall a - wall b)%Z
  | Some _, Some _ => ret (utc_instant a - utc_instant b)%Z
  | _, _ => raise TypeError
  end.

(** [a <= b] on two [datetime] values, under the same rule. *)
Definition dt_le (a b : Stamp) : Py bool :=
  match utcoffset a, utcoffset b with
  | None, None => ret (wall a <=? wall b)%Z
  | Some _, Some _ => ret (utc_instant a <=? utc_instant b)%Z
  | _, _ => raise TypeError
  end.

(** The two records of [models.py] that hold timestamps. *)
Module RoutePlan.
Record t := mk {
    id : string;
    vehicle_id : string;
    start_time : Stamp;
    end_time : Stamp;
    distance_km : Q;
    eta_minutes : Q;
    consumption_kwh : Q;
    required_soc_min : Q
  }.
End RoutePlan.

Module EnergyPricePoint.
Record t := mk {
    ts : Stamp;
    eur_per_kwh : Q
  }.
End EnergyPricePoint.

Definition price_at (prices : list EnergyPricePoint.t) (ts : Stamp)
    : Py (option Q) :=
  match prices with
  | [] => ret None
  | _ =>
      let* keyed :=
        map_py (λ p, let* d := dt_sub (EnergyPricePoint.ts p) ts in
                     ret (Qabs (total_seconds d), p))
               prices in
      let* best := py_min_key fst keyed in
      ret (Some (EnergyPricePoint.eur_per_kwh best.2))
  end.

(** [start <= p.ts <= end]: the second comparison is made only when the
    first holds. *)
Definition in_window (start end_ : Stamp) (p : EnergyPricePoint.t)
    : Py bool :=
  let* after := dt_le start (EnergyPricePoint.ts p) in
  if after : bool then dt_le (EnergyPricePoint.ts p) end_ else ret false.

Definition min_price_until (prices : list EnergyPricePoint.t)
    (start end_ : Stamp) : Py (option Q) :=
  match prices with
  | [] => ret None
  | _ =>
      let* inside := filter_py (in_window start end_) prices in
      let window := map EnergyPricePoint.eur_per_kwh inside in
      match window with
      | [] => ret None
      | _ => let* m := py_min_key (λ x, x) window in ret (Some m)
      end
  end.

Definition minutes_until (start now : Stamp) : Py Q :=
  let* d := dt_sub start now in
  py_truediv (total_seconds d) 60.0.

Definition compute_urgency (vehicle : Vehicle.t) (route : RoutePlan.t)
    (now : Stamp) : Py Q :=
  let* time_to_start := minutes_until (RoutePlan.start_time route) now in
  let deficit_soc :=
    py_max 0.0 (RoutePlan.required_soc_min route - Vehicle.soc vehicle) in
  ret (deficit_soc * 1000.0 + py_max 0.0 (180.0 - time_to_start))%Q.

Definition route_by_vehicle_of (routes : list RoutePlan.t)
    : gmap string RoutePlan.t :=
  foldl (λ m r, <[RoutePlan.vehicle_id r := r]> m) ∅ routes.

Definition Triple : Type := Vehicle.t * Charger.t * RoutePlan.t.

Definition filter_vehicle (charger_by_id : gmap string Charger.t)
    (route_by_vehicle : gmap string RoutePlan.t) (v : Vehicle.t)
    : Explanation + Triple :=
  if negb (String.eqb (Vehicle.state v) "DISPONIVEL") then
    inl (ignored ("estado=" ++ Vehicle.state v))
  else
    match Vehicle.charger_id v with
    | None => inl (ignored "não está ligado a carregador")
    | Some cid =>
        if String.eqb cid "" then inl (ignored "não está ligado a carregador")
        else
          match charger_by_id !! cid with
          | None => inl (ignored ("carregador " ++ cid ++ " não existe"))
          | Some ch =>
              if negb (Charger.enabled ch) then
                inl (ignored ("carregador " ++ Charger.id ch ++ " desativado"))
              else
                match route_by_vehicle !! Vehicle.id v with
                | None => inl (ignored "sem rota atribuída")
                | Some rt => inr (v, ch, rt)
                end
          end
    end.

Fixpoint filter_loop (charger_by_id : gmap string Charger.t)
    (route_by_vehicle : gmap string RoutePlan.t) (vehicles : list Vehicle.t)
    (explanations : gmap string Explanation) (eligible : list Triple)
    : gmap string Explanation * list Triple :=
  match vehicles with
  | [] => (explanations, eligible)
  | v :: vs =>
      match filter_vehicle charger_by_id route_by_vehicle v with
      | inl e =>
          filter_loop charger_by_id route_by_vehicle vs
                      (<[Vehicle.id v := e]> explanations) eligible
      | inr t =>
          filter_loop charger_by_id route_by_vehicle vs
                      explanations (eligible ++ [t])
      end
  end.

(** [list.sort(key=..., reverse=True)]: the keys are computed once, one
    per element, before any comparison. *)
Definition sort_by_urgency (now : Stamp) (eligible : list Triple)
    : Py (list Triple) :=
  let* keyed :=
    map_py (λ t : Triple,
              let* k := compute_urgency t.1.1 t.2 now in ret (k, t))
           eligible in
  ret (snd <$> sort_desc fst keyed).

Definition plan_step (now : Stamp) (prices : list EnergyPricePoint.t)
    (site : SiteConstraints.t) (st : LoopState) (t : Triple)
    : Py (LoopState * Flow) :=
  let '(v, ch, rt) := t in
  let deficit_soc :=
    py_max 0.0 (RoutePlan.required_soc_min rt - Vehicle.soc v) in
  let* minutes_to_start := minutes_until (RoutePlan.start_time rt) now in
  let* price_now := price_at prices now in
  let* best_price := min_price_until prices now (RoutePlan.start_time rt) in
  let delay_applied :=
    should_delay_charging price_now best_price minutes_to_start deficit_soc in
  let base_expl :=
    mkBase (Vehicle.id v) (Charger.id ch) (Vehicle.soc v)
           (RoutePlan.required_soc_min rt) deficit_soc (Vehicle.battery_kwh v)
           (py_round minutes_to_start 1) (SiteConstraints.site_max_kw site)
           (py_round (remaining_kw st) 2) (Charger.max_kw ch)
           (wall (RoutePlan.start_time rt)) (wall (RoutePlan.end_time rt))
           price_now best_price delay_applied in
  if Qleb deficit_soc 0 then
    ret (mkState (remaining_kw st) (commands st) (alerts st)
           (<[Vehicle.id v :=
                mkExpl ok "já tem SoC suficiente para a rota"
                       (Some base_expl) None]>
              (explanations st)),
         Next)
  else if Qleb minutes_to_start 0 then
    ret (mkState (remaining_kw st) (commands st)
           (alerts st ++ [AlertRouteOverdue (Vehicle.id v)])
           (<[Vehicle.id v :=
                mkExpl erro "rota já devia ter começado" (Some base_expl) None]>
              (explanations st)),
         Next)
  else
    let need := (deficit_soc * Vehicle.battery_kwh v)%Q in
    let* hours := py_truediv minutes_to_start 60.0 in
    let* avg_kw_needed := py_truediv need (py_max hours 1e-6) in
    let requested_kw :=
      py_min3 avg_kw_needed (Charger.max_kw ch) (remaining_kw st) in
    let requested_kw := clamp requested_kw 0.0 (Charger.max_kw ch) in
    let requested_kw := if delay_applied then 0.0%Q else requested_kw in
    let final_kw := battery_friendly_kw v ch requested_kw in
    let explanations' :=
      <[Vehicle.id v :=
          mkExpl (if Qltb 0.01 final_kw then planeado else nao_planeado)
                 sizing_motivo (Some base_expl)
                 (Some (mkSizing (py_round need 2) (py_round avg_kw_needed 2)
                                 (py_round requested_kw 2) (py_round final_kw 2)))]>
        (explanations st) in
    if Qleb final_kw 0.01 then
      ret (mkState (remaining_kw st) (commands st) (alerts st) explanations',
           Next)
    else
      let remaining' := (remaining_kw st - final_kw)%Q in
      let commands' :=
        commands st ++
          [ChargingCommand.mk (Vehicle.id v) (Charger.id ch) final_kw
                              command_reason] in
      let alerts' :=
        if Qltb (Vehicle.soc v) (RoutePlan.required_soc_min rt)
           && Qltb minutes_to_start 60
        then alerts st ++ [AlertCritical (Vehicle.id v) (format_1f final_kw)]
        else alerts st in
      ret (mkState remaining' commands' alerts' explanations',
           if Qleb remaining' 0.01 then Break else Next).

Fixpoint plan_loop (now : Stamp) (prices : list EnergyPricePoint.t)
    (site : SiteConstraints.t) (eligible : list Triple) (st : LoopState)
    : Py LoopState :=
  match eligible with
  | [] => ret st
  | t :: rest =>
      let* r := plan_step now prices site st t in
      match r with
      | (st', Break) => ret st'
      | (st', Next) => plan_loop now prices site rest st'
      end
  end.

Definition make_plan (now : Stamp) (vehicles : list Vehicle.t)
    (chargers : list Charger.t) (routes : list RoutePlan.t)
    (prices : list EnergyPricePoint.t) (site : SiteConstraints.t)
    : Py PlanResult.t :=
  let charger_by_id := charger_by_id_of chargers in
  let route_by_vehicle := route_by_vehicle_of routes in
  let '(explanations0, eligible) :=
    filter_loop charger_by_id route_by_vehicle vehicles ∅ [] in
  let* eligible := sort_by_urgency now eligible in
  let* st :=
    plan_loop now prices site eligible
              (mkState (SiteConstraints.site_max_kw site) [] [] explanations0) in
  ret (PlanResult.mk (wall now)
                     (SiteConstraints.site_max_kw site - remaining_kw st)%Q
                     (commands st) (alerts st) (explanations st)).

End Checked.

(** A snapshot whose timestamps are all naive, read as the engine above
    reads it. *)
Definition wall_route (r : Checked.RoutePlan.t) : RoutePlan.t :=
  RoutePlan.mk (Checked.RoutePlan.id r) (Checked.RoutePlan.vehicle_id r)
               (wall (Checked.RoutePlan.start_time r))
               (wall (Checked.RoutePlan.end_time r))
               (Checked.RoutePlan.distance_km r)
               (Checked.RoutePlan.eta_minutes r)
               (Checked.RoutePlan.consumption_kwh r)
               (Checked.RoutePlan.required_soc_min r).

Definition wall_price (p : Checked.EnergyPricePoint.t) : EnergyPricePoint.t :=
  EnergyPricePoint.mk (wall (Checked.EnergyPricePoint.ts p))
                      (Checked.EnergyPricePoint.eur_per_kwh p).

Definition wall_triple (t : Checked.Triple) : Triple :=
  (t.1.1, t.1.2, wall_route t.2).

Definition naive_route (r : Checked.RoutePlan.t) : Prop :=
  aware (Checked.RoutePlan.start_time r) = false
  ∧ aware (Checked.RoutePlan.end_time r) = false.

Definition naive_price (p : Checked.EnergyPricePoint.t) : Prop :=
  aware (Checked.EnergyPricePoint.ts p) = false.

(** A computation that, if it raises at all, raises [TypeError]. *)
Definition only_type_error {A} (m : Checked.Py A) : Prop :=
  ∀ e, m = inl e → e = Checked.TypeError.

(** * Notions used in the statements *)

Section Notions.
Local Open Scope Q_scope.

(** The curtailment factor as the specification words it: the product
    of one factor per condition that holds. *)
Definition curtailment_factor (vehicle : Vehicle.t) : Q :=
  (if Qleb 0.80 (Vehicle.soc vehicle) then 0.5 else 1)
  * (if Qleb 0.92 (Vehicle.soc vehicle) then 0.3 else 1)
  * (if Qleb 40 (Vehicle.temp_c vehicle) then 0.5 else 1).

(** [b] may follow [a] in a list sorted by decreasing key. *)
Definition desc {A} (key : A → Q) (a b : A) : Prop := key b <= key a.

(** The triple appended for an eligible vehicle. *)
Definition eligible_triple (charger_by_id : gmap string Charger.t)
    (route_by_vehicle : gmap string RoutePlan.t) (v : Vehicle.t)
    : option Triple :=
  match filter_vehicle charger_by_id route_by_vehicle v with
  | inr t => Some t
  | inl _ => None
  end.

(** The write performed for an ignored vehicle. *)
Definition record_ignored (charger_by_id : gmap string Charger.t)
    (route_by_vehicle : gmap string RoutePlan.t)
    (m : gmap string Explanation) (v : Vehicle.t) : gmap string Explanation :=
  match filter_vehicle charger_by_id route_by_vehicle v with
  | inl e => <[Vehicle.id v := e]> m
  | inr _ => m
  end.

(** The identities written by the filtering loop. *)
Definition ignored_ids (charger_by_id : gmap string Charger.t)
    (route_by_vehicle : gmap string RoutePlan.t) (vehicles : list Vehicle.t)
    : gset string :=
  list_to_set
    (Vehicle.id
       <$> filter (λ v, eligible_triple charger_by_id route_by_vehicle v = None)
                  vehicles).

(** The value of [requested_kw] when [battery_friendly_kw] is called. *)
Definition requested_kw_of (now : datetime)
    (prices : list EnergyPricePoint.t) (st : LoopState) (t : Triple) : Q :=
  let '(v, ch, rt) := t in
  let deficit_soc := deficit_of v rt in
  let minutes_to_start := minutes_until (RoutePlan.start_time rt) now in
  let avg_kw_needed :=
    deficit_soc * Vehicle.battery_kwh v
    / py_max (minutes_to_start / 60.0) 1e-6 in
  if should_delay_charging (price_at prices now)
       (min_price_until prices now (RoutePlan.start_time rt))
       minutes_to_start deficit_soc
  then 0.0
  else clamp (py_min3 avg_kw_needed (Charger.max_kw ch) (remaining_kw st))
             0.0 (Charger.max_kw ch).

(** The value of [final_kw]. *)
Definition final_kw_of (now : datetime) (prices : list EnergyPricePoint.t)
    (st : LoopState) (t : Triple) : Q :=
  battery_friendly_kw t.1.1 t.1.2 (requested_kw_of now prices st t).

(** The four ways through the loop body. *)
Variant step_case (now : datetime) (prices : list EnergyPricePoint.t)
    (st : LoopState) (v : Vehicle.t) (ch : Charger.t)
    (rt : RoutePlan.t) : LoopState * Flow → Prop :=
| step_ok e :
    deficit_of v rt <= 0 →
    status e = ok →
    step_case now prices st v ch rt
      (mkState (remaining_kw st) (commands st) (alerts st)
               (<[Vehicle.id v := e]> (explanations st)), Next)
| step_overdue e :
    0 < deficit_of v rt →
    minutes_until (RoutePlan.start_time rt) now <= 0 →
    status e = erro →
    step_case now prices st v ch rt
      (mkState (remaining_kw st) (commands st)
               (alerts st ++ [AlertRouteOverdue (Vehicle.id v)])
               (<[Vehicle.id v := e]> (explanations st)), Next)
| step_not_planned e :
    0 < deficit_of v rt →
    0 < minutes_until (RoutePlan.start_time rt) now →
    final_kw_of now prices st (v, ch, rt) <= 0.01 →
    status e = nao_planeado →
    step_case now prices st v ch rt
      (mkState (remaining_kw st) (commands st) (alerts st)
               (<[Vehicle.id v := e]> (explanations st)), Next)
| step_planned e crit :
    0 < deficit_of v rt →
    0 < minutes_until (RoutePlan.start_time rt) now →
    0.01 < final_kw_of now prices st (v, ch, rt) →
    status e = planeado →
    crit = []
    ∨ crit = [AlertCritical (Vehicle.id v)
                (format_1f (final_kw_of now prices st (v, ch, rt)))] →
    step_case now prices st v ch rt
      (mkState (remaining_kw st - final_kw_of now prices st (v, ch, rt))
               (commands st ++
                  [ChargingCommand.mk (Vehicle.id v) (Charger.id ch)
                     (final_kw_of now prices st (v, ch, rt)) command_reason])
               (alerts st ++ crit)
               (<[Vehicle.id v := e]> (explanations st)),
       if Qleb (remaining_kw st - final_kw_of now prices st (v, ch, rt)) 0.01
       then Break else Next).

(** [{key(x): x for x in l}]. *)
Definition dict_of {V} (key : V → string) (l : list V) : gmap string V :=
  foldl (λ m x, <[key x := x]> m) ∅ l.


End Notions.

(** ** Sample snapshots *)

(** One vehicle at 25 % that needs 75 % in one hour: 100 kWh over one
    hour on a 50 kW charger. *)
Definition sample_vehicle : Vehicle.t :=
  Vehicle.mk "v1" 200 0.25 1 20 "DISPONIVEL" (Some "c1").
Definition sample_charger : Charger.t := Charger.mk "c1" 50 true 0.92.
Definition sample_route : RoutePlan.t :=
  RoutePlan.mk "r1" "v1" 3600000000 7200000000 10 30 5 0.75.
Definition sample_site : SiteConstraints.t := SiteConstraints.mk 100.
Definition sample_plan : PlanResult.t :=
  make_plan 0 [sample_vehicle] [sample_charger] [sample_route] [] sample_site.

(** The sample route as the engine receives it: with naive timestamps,
    and with timestamps that carry the offset of UTC. *)
Definition naive_sample_route : Checked.RoutePlan.t :=
  Checked.RoutePlan.mk "r1" "v1" (mkStamp 3600000000 None)
                       (mkStamp 7200000000 None) 10 30 5 0.75.
Definition aware_sample_route : Checked.RoutePlan.t :=
  Checked.RoutePlan.mk "r1" "v1" (mkStamp 3600000000 (Some 0%Z))
                       (mkStamp 7200000000 (Some 0%Z)) 10 30 5 0.75.

(** A vehicle below its required SoC whose route starts in 30 minutes,
    under a cap of 12.375 kW. *)
Definition critical_vehicle : Vehicle.t :=
  Vehicle.mk "v1" 100 0.5 1 20 "DISPONIVEL" (Some "c1").
Definition critical_route : RoutePlan.t :=
  RoutePlan.mk "r1" "v1" 1800000000 7200000000 10 30 5 0.75.
Definition critical_plan : PlanResult.t :=
  make_plan 0 [critical_vehicle] [sample_charger] [critical_route] []
            (SiteConstraints.mk 12.375).


(** Two vehicles that both need power, under a cap that the first one
    uses up. *)
Definition second_vehicle : Vehicle.t :=
  Vehicle.mk "v2" 200 0.5 1 20 "DISPONIVEL" (Some "c2").
Definition second_charger : Charger.t := Charger.mk "c2" 50 true 0.92.
Definition second_route : RoutePlan.t :=
  RoutePlan.mk "r2" "v2" 3600000000 7200000000 10 30 5 0.75.
Definition tight_site : SiteConstraints.t := SiteConstraints.mk 50.
Definition tight_plan : PlanResult.t :=
  make_plan 0 [sample_vehicle; second_vehicle] [sample_charger; second_charger]
            [sample_route; second_route] [] tight_site.

(** A vehicle with a deficit whose route started ten minutes ago. *)
Definition overdue_route : RoutePlan.t :=
  RoutePlan.mk "r1" "v1" (-600000000) 7200000000 10 30 5 0.75.
Definition overdue_plan : PlanResult.t :=
  make_plan 0 [sample_vehicle] [sample_charger] [overdue_route] [] sample_site.

(** The first scenario of the specification: 30 % now, 80 % needed in
    two hours, 100 kWh battery, 50 kW charger, 100 kW site, no prices. *)
Definition scenario_vehicle : Vehicle.t :=
  Vehicle.mk "v1" 100 0.3 1 20 "DISPONIVEL" (Some "c1").
Definition scenario_route : RoutePlan.t :=
  RoutePlan.mk "r1" "v1" 7200000000 10800000000 10 30 5 0.8.
Definition scenario_plan : PlanResult.t :=
  make_plan 0 [scenario_vehicle] [sample_charger] [scenario_route] []
            sample_site.

(** Two vehicles that each need 60 kW on 100 kW chargers under a 100 kW
    cap; the first has the larger deficit. *)
Definition big_charger (id : string) : Charger.t := Charger.mk id 100 true 0.92.
Definition contended_plan : PlanResult.t :=
  make_plan 0
    [Vehicle.mk "a" 100 0.25 1 20 "DISPONIVEL" (Some "ca");
     Vehicle.mk "b" 120 0.5 1 20 "DISPONIVEL" (Some "cb")]
    [big_charger "ca"; big_charger "cb"]
    [RoutePlan.mk "ra" "a" 3600000000 7200000000 10 30 5 0.85;
     RoutePlan.mk "rb" "b" 3600000000 7200000000 10 30 5 1]
    [] sample_site.

(** ** Further notions *)

Section MoreNotions.
Local Open Scope Q_scope.

(** The average power that meets the deadline, [avg_kw_needed]. *)
Definition avg_kw_needed_of (now : datetime) (t : Triple) : Q :=
  let '(v, ch, rt) := t in
  deficit_of v rt * Vehicle.battery_kwh v
  / py_max (minutes_until (RoutePlan.start_time rt) now / 60.0) 1e-6.

(** The value of [delay_applied] for a triple. *)
Definition delay_applied_of (now : datetime)
    (prices : list EnergyPricePoint.t) (t : Triple) : bool :=
  let '(v, ch, rt) := t in
  should_delay_charging (price_at prices now)
    (min_price_until prices now (RoutePlan.start_time rt))
    (minutes_until (RoutePlan.start_time rt) now) (deficit_of v rt).

(** The alerts that the loop body appends in the branch that emits a
    command. *)
Definition critical_alerts (now : datetime) (v : Vehicle.t)
    (rt : RoutePlan.t) (final_kw : Q) : list Alert :=
  if Qltb (Vehicle.soc v) (RoutePlan.required_soc_min rt)
     && Qltb (minutes_until (RoutePlan.start_time rt) now) 60
  then [AlertCritical (Vehicle.id v) (format_1f final_kw)]
  else [].

(** What one pass of the loop body appends and stores, branch by
    branch. *)
Variant step_detail (now : datetime) (prices : list EnergyPricePoint.t)
    (st : LoopState) (v : Vehicle.t) (ch : Charger.t)
    (rt : RoutePlan.t) : LoopState * Flow → Prop :=
| detail_ok e :
    deficit_of v rt <= 0 →
    status e = ok →
    step_detail now prices st v ch rt
      (mkState (remaining_kw st) (commands st) (alerts st)
               (<[Vehicle.id v := e]> (explanations st)), Next)
| detail_overdue e :
    0 < deficit_of v rt →
    minutes_until (RoutePlan.start_time rt) now <= 0 →
    status e = erro →
    step_detail now prices st v ch rt
      (mkState (remaining_kw st) (commands st)
               (alerts st ++ [AlertRouteOverdue (Vehicle.id v)])
               (<[Vehicle.id v := e]> (explanations st)), Next)
| detail_not_planned e :
    0 < deficit_of v rt →
    0 < minutes_until (RoutePlan.start_time rt) now →
    final_kw_of now prices st (v, ch, rt) <= 0.01 →
    status e = nao_planeado →
    price_delay_applied <$> base e
      = Some (delay_applied_of now prices (v, ch, rt)) →
    step_detail now prices st v ch rt
      (mkState (remaining_kw st) (commands st) (alerts st)
               (<[Vehicle.id v := e]> (explanations st)), Next)
| detail_planned e :
    0 < deficit_of v rt →
    0 < minutes_until (RoutePlan.start_time rt) now →
    0.01 < final_kw_of now prices st (v, ch, rt) →
    status e = planeado →
    step_detail now prices st v ch rt
      (mkState (remaining_kw st - final_kw_of now prices st (v, ch, rt))
               (commands st ++
                  [ChargingCommand.mk (Vehicle.id v) (Charger.id ch)
                     (final_kw_of now prices st (v, ch, rt)) command_reason])
               (alerts st
                  ++ critical_alerts now v rt
                       (final_kw_of now prices st (v, ch, rt)))
               (<[Vehicle.id v := e]> (explanations st)),
       if Qleb (remaining_kw st - final_kw_of now prices st (v, ch, rt)) 0.01
       then Break else Next).

End MoreNotions.

(** * [price_provider.py] and the caller in [main.py]

    Network requests and XML parsing are not modelled: a function that
    performs them takes what they produced (a value, or the text of the
    exception raised) as an argument. *)

(** What a call produced: the text of the exception it raised, or its
    value. *)
Inductive Outcome (A : Type) :=
| Failed (what : string)
| Done (a : A).
Arguments Failed {A} what.
Arguments Done {A} a.

(** [d.replace(tzinfo=None)]. *)
Definition replace_tzinfo_none (d : Stamp) : datetime := wall d.

Module PriceSnapshot.
Record t := mk {
  ok : bool;
  ts_utc : datetime;
  eur_per_kwh : option Q;
  source : string;
  error : option string;
  error_code : option string
}.
End PriceSnapshot.

Section PriceProvider.
Local Open Scope Q_scope.

(** The value that [_parse_root_xml] returns. *)
Definition RenReply : Type :=
  option string * option string * list (Stamp * Q).

(** [_closest_price_eur_kwh(items, now_utc)] with [now_utc] aware and
    in UTC: the key of [min] is computed for every item, and subtracting
    an aware [datetime] from a naive one raises [TypeError]. *)
Definition _closest_price_eur_kwh (items : list (Stamp * Q))
    (now_utc : datetime) : Outcome (option Q) :=
  match items with
  | [] => Done None
  | t :: ts =>
      if forallb (λ t, aware t.1) items then
        Done (Some ((min_by
                       (λ t, Qabs (total_seconds (utc_instant t.1 - now_utc)%Z))
                       t ts).2 / 1000.0))
      else Failed "can't subtract offset-naive and offset-aware datetimes"
  end.

(** [_omie_current_price_eur_kwh], given what [_omie_prices_today]
    returned; its timestamps and [now_utc.replace(tzinfo=None)] are
    naive. *)
Definition _omie_current_price_eur_kwh (pts : list (datetime * Q))
    (now_utc : datetime) : option Q :=
  match pts with
  | [] => None
  | t :: ts =>
      Some ((min_by (λ t, Qabs (total_seconds (t.1 - now_utc)%Z)) t ts).2
            / 1000.0)
  end.

(** [x or default] on an optional string. *)
Definition str_or (x : option string) (default : string) : string :=
  match x with
  | Some s => if String.eqb s "" then default else s
  | None => default
  end.

(** One REN attempt of [get_current_price]: the snapshot returned, or
    the new value of [last_err].  [defaults] is what stands in for an
    empty code or message. *)
Definition ren_attempt (now_utc : datetime) (reply : Outcome RenReply)
    (source label : string) (defaults : string * string)
    : PriceSnapshot.t + string * string :=
  match reply with
  | Failed e => inr ("GEN03", label ++ e)%string
  | Done (code, msg, items) =>
      match items with
      | _ :: _ =>
          match _closest_price_eur_kwh items now_utc with
          | Done p =>
              inl (PriceSnapshot.mk true now_utc p source None None)
          | Failed e => inr ("GEN03", label ++ e)%string
          end
      | [] => inr (str_or code defaults.1, str_or msg defaults.2)
      end
  end.

(** The snapshot returned when no source gave a price. *)
Definition no_price (now_utc : datetime) (last_err : string * string)
    : PriceSnapshot.t :=
  PriceSnapshot.mk false now_utc None "REN/OMIE"
    (Some ("Sem preço disponível (" ++ last_err.1 ++ ": "
             ++ last_err.2 ++ ")")%string)
    (Some last_err.1).

(** [PriceCache.get_current_price], given what the two REN requests and
    [_omie_prices_today] produced. *)
Definition get_current_price (now_utc : datetime)
    (ren_15m ren_hour : Outcome RenReply)
    (omie : Outcome (list (datetime * Q))) : PriceSnapshot.t :=
  match ren_attempt now_utc ren_15m "REN:GetMarketPrice15M"
                    "Falha REN (15M): " ("GEN02", "No Data Available") with
  | inl snap => snap
  | inr last_err =>
      match ren_attempt now_utc ren_hour "REN:GetMarketPrice"
                        "Falha REN (hora): " last_err with
      | inl snap => snap
      | inr last_err =>
          match omie with
          | Failed e =>
              no_price now_utc
                ("GEN03",
                 (last_err.1 ++ ": " ++ last_err.2
                    ++ " | OMIE falhou: " ++ e)%string)
          | Done pts =>
              match _omie_current_price_eur_kwh pts now_utc with
              | Some p =>
                  PriceSnapshot.mk true now_utc (Some p)
                    "OMIE:marginalpdbcpt (fallback)" None None
              | None => no_price now_utc last_err
              end
          end
      end
  end.

(** [PriceCache.get_prices_today], given what [_omie_prices_today]
    returned. *)
Definition get_prices_today (pts_mwh : list (datetime * Q))
    : list (datetime * Q) :=
  map (λ t, (t.1, t.2 / 1000.0)) pts_mwh.

End PriceProvider.

Module PriceDTO.
Record t := mk {
  ts : Stamp;
  eur_per_kwh : Q
}.
End PriceDTO.

(** The price points that [plan] builds from the day curve (main.py,
    lines 152-158); the curve's timestamps are naive, so
    [ts.replace(tzinfo=None)] leaves them as they are. *)
Definition curve_points (pts : list (datetime * Q)) : list EnergyPricePoint.t :=
  map (λ t, EnergyPricePoint.mk t.1 t.2) pts.

(** The price list that [plan] hands to [make_plan] (main.py, lines
    136-176), given what [get_prices_today] and [get_current_price]
    produce when they are called; [now_naive] is
    [req.now.replace(tzinfo=None)]. *)
Definition plan_prices (now_naive : datetime) (req_prices : list PriceDTO.t)
    (prices_today : Outcome (list (datetime * Q)))
    (current_price : PriceSnapshot.t)
    : Outcome (list EnergyPricePoint.t) :=
  match req_prices with
  | _ :: _ =>
      Done (map (λ p, EnergyPricePoint.mk
                        (replace_tzinfo_none (PriceDTO.ts p))
                        (PriceDTO.eur_per_kwh p))
                req_prices)
  | [] =>
      match prices_today with
      | Failed e => Failed e
      | Done pts =>
          match pts with
          | _ :: _ => Done (curve_points pts)
          | [] =>
              match PriceSnapshot.ok current_price,
                    PriceSnapshot.eur_per_kwh current_price with
              | true, Some eur => Done [EnergyPricePoint.mk now_naive eur]
              | _, _ => Done [EnergyPricePoint.mk now_naive 0.20]
              end
          end
      end
  end.

(** A REN reply from which [get_current_price] takes its price: the
    request and the parsing went through, there is at least one item, and
    every item's timestamp is aware. *)
Definition ren_usable (reply : Outcome RenReply) : Prop :=
  ∃ code msg items,
    reply = Done (code, msg, items)
    ∧ items ≠ [] ∧ forallb (λ t : Stamp * Q, aware t.1) items = true.

(** * [notifications.py]

    A [WebSocket] is known by its identity only.  [broadcast] is modelled
    as one uninterrupted run: no other task changes [clients] while it
    sends. *)

Module Notifier.

Definition WebSocket := nat.

(** [l.remove(x)]: drops the first occurrence; [None] stands for the
    [ValueError] raised when there is none. *)
Fixpoint list_remove (x : WebSocket) (l : list WebSocket)
    : option (list WebSocket) :=
  match l with
  | [] => None
  | y :: l' =>
      if decide (x = y) then Some l'
      else match list_remove x l' with
           | Some r => Some (y :: r)
           | None => None
           end
  end.

(** [connect], once [ws.accept()] has returned. *)
Definition connect (clients : list WebSocket) (ws : WebSocket)
    : list WebSocket :=
  clients ++ [ws].

Definition disconnect (clients : list WebSocket) (ws : WebSocket)
    : option (list WebSocket) :=
  if decide (ws ∈ clients) then list_remove ws clients else Some clients.

(** [broadcast]: [sends] pairs every client, in order, with whether
    [send_json] returned ([true]) or raised ([false]); the result is the
    client list afterwards. *)
Definition broadcast (sends : list (WebSocket * bool))
    : option (list WebSocket) :=
  let clients := sends.*1 in
  let dead := (filter (λ s, s.2 = false) sends).*1 in
  foldl (λ acc c, match acc with
                  | Some cl => disconnect cl c
                  | None => None
                  end)
        (Some clients) dead.

End Notifier.

(** * Properties *)

(** ** Comparisons and the builtins [max] and [min] *)

Section Numbers.
Local Open Scope Q_scope.

Lemma Qleb_le x y : Qleb x y = true ↔ x <= y.
Proof. apply Qle_bool_iff. Qed.

Lemma Qleb_gt x y : Qleb x y = false ↔ y < x.
Proof.
  unfold Qleb. rewrite <- not_true_iff_false, Qle_bool_iff.
  split; [apply Qnot_le_lt | apply Qlt_not_le].
Qed.

Lemma Qltb_lt x y : Qltb x y = true ↔ x < y.
Proof. unfold Qltb. rewrite negb_true_iff. apply Qleb_gt. Qed.

Lemma Qltb_ge x y : Qltb x y = false ↔ y <= x.
Proof. unfold Qltb. rewrite negb_false_iff. apply Qleb_le. Qed.

Lemma eps_pos : 0 < 1e-6.
Proof. reflexivity. Qed.
End Numbers.

(** Split on every comparison in sight and record its meaning. *)
Ltac qcase :=
  repeat match goal with
  | |- context [Qleb ?a ?b] =>
      let E := fresh "E" in
      destruct (Qleb a b) eqn:E;
      [apply Qleb_le in E | apply Qleb_gt in E]
  | |- context [Qltb ?a ?b] =>
      let E := fresh "E" in
      destruct (Qltb a b) eqn:E;
      [apply Qltb_lt in E | apply Qltb_ge in E]
  end.

Section Builtins.
Local Open Scope Q_scope.

Lemma py_max_spec a b : a <= py_max a b ∧ b <= py_max a b.
Proof. unfold py_max. qcase; lra. Qed.

Lemma py_max_cases a b : py_max a b = a ∨ (a < b ∧ py_max a b = b).
Proof. unfold py_max. qcase; auto. Qed.

Lemma py_min_spec a b : py_min a b <= a ∧ py_min a b <= b.
Proof. unfold py_min. qcase; lra. Qed.

Lemma py_min3_le_r a b c : py_min3 a b c <= c.
Proof. unfold py_min3. apply py_min_spec. Qed.

Lemma py_min3_le_m a b c : py_min3 a b c <= b.
Proof.
  unfold py_min3.
  pose proof (py_min_spec (py_min a b) c). pose proof (py_min_spec a b). lra.
Qed.

Lemma clamp_lower x lo hi : lo <= clamp x lo hi.
Proof. unfold clamp. apply py_max_spec. Qed.

(** Above its lower bound, a clamped value is the smaller of [x] and
    [hi]. *)
Lemma clamp_above x lo hi b :
  lo <= b → b < clamp x lo hi → clamp x lo hi <= x ∧ clamp x lo hi <= hi.
Proof.
  unfold clamp. intros Hb H.
  destruct (py_max_cases lo (py_min hi x)) as [E | [_ E]].
  - rewrite E in H. lra.
  - rewrite E. pose proof (py_min_spec hi x). lra.
Qed.

Lemma clamp_Qeq x x' lo lo' hi hi' :
  x == x' → lo == lo' → hi == hi' → clamp x lo hi == clamp x' lo' hi'.
Proof.
  intros E El Eh. unfold clamp.
  assert (Hm : py_min hi x == py_min hi' x') by (unfold py_min; qcase; lra).
  revert Hm. generalize (py_min hi x) (py_min hi' x'). intros m m' Hm.
  unfold py_max. qcase; lra.
Qed.
End Builtins.

(** ** The deferral decision (C4) *)

Section Deferral.
Local Open Scope Q_scope.

(** C4.  With the default margin 0.15 and urgency window of 60 minutes,
    [should_delay_charging] answers true exactly when the deficit is
    positive, the route starts in more than 60 minutes, both prices are
    present and the current price is above 1.15 times the best future
    price; and it answers false, whatever the prices, when the route
    starts within 60 minutes or there is no deficit. *)
Theorem should_delay_charging_iff :
  (∀ price_now best_future_price minutes_to_start deficit,
     should_delay_charging price_now best_future_price
                           minutes_to_start deficit = true
     ↔ (0 < deficit ∧ 60 < minutes_to_start
        ∧ ∃ pn bf, price_now = Some pn ∧ best_future_price = Some bf
                   ∧ bf * 1.15 < pn))
  ∧ (∀ price_now best_future_price minutes_to_start deficit,
       minutes_to_start <= 60 ∨ deficit <= 0 →
       should_delay_charging price_now best_future_price
                             minutes_to_start deficit = false).
Proof.
  split.
  - intros pn bf m d.
    unfold should_delay_charging, should_delay_charging_with.
    destruct (Qleb d 0) eqn:E1; [apply Qleb_le in E1 | apply Qleb_gt in E1].
    { split; [discriminate | intros (? & _); lra]. }
    destruct (Qleb m 60.0) eqn:E2;
      [apply Qleb_le in E2 | apply Qleb_gt in E2].
    { split; [discriminate | intros (_ & ? & _); lra]. }
    destruct pn as [p|], bf as [b|];
      try (split; [discriminate | intros (_ & _ & ? & ? & ? & ? & _);
                                  discriminate]).
    rewrite Qltb_lt. split.
    + intros H. repeat split; [lra | lra |].
      exists p, b. repeat split. lra.
    + intros (_ & _ & p' & b' & [= <-] & [= <-] & H). lra.
  - intros pn bf m d H.
    unfold should_delay_charging, should_delay_charging_with.
    qcase; try reflexivity. lra.
Qed.

Lemma should_delay_charging_iff_witness :
  should_delay_charging (Some 0.30) (Some 0.10) 120 0.5 = true
  ∧ should_delay_charging (Some 0.30) (Some 0.10) 60 0.5 = false.
Proof.
  split.
  - apply (proj1 should_delay_charging_iff).
    split; [reflexivity |]. split; [reflexivity |].
    exists 0.30, 0.10. split; [reflexivity |]. split; reflexivity.
  - apply (proj2 should_delay_charging_iff). left. discriminate.
Defined.
End Deferral.

(** ** Battery-friendly curtailment (C5) *)

Section Curtailment.
Local Open Scope Q_scope.

(** C5.  [battery_friendly_kw] returns the requested power times the
    curtailment factor, clamped to [[0, charger.max_kw]]; at a state of
    charge of 0.92 or more the two state-of-charge factors combine to
    0.15, and a temperature of 40 or more halves the factor again. *)
Theorem battery_friendly_kw_factor :
  (∀ vehicle charger r,
     battery_friendly_kw vehicle charger r
     == clamp (r * curtailment_factor vehicle) 0 (Charger.max_kw charger))
  ∧ (∀ vehicle,
       curtailment_factor vehicle ==
         if Qleb 0.92 (Vehicle.soc vehicle) then
           if Qleb 40 (Vehicle.temp_c vehicle) then 0.15 * 0.5 else 0.15
         else if Qleb 0.80 (Vehicle.soc vehicle) then
           if Qleb 40 (Vehicle.temp_c vehicle) then 0.5 * 0.5 else 0.5
         else
           if Qleb 40 (Vehicle.temp_c vehicle) then 0.5 else 1).
Proof.
  split.
  - intros v ch r. unfold battery_friendly_kw, curtailment_factor.
    apply clamp_Qeq; [qcase; ring | reflexivity | reflexivity].
  - intros v. unfold curtailment_factor. qcase; try lra; ring.
Qed.
End Curtailment.

(** ** The stable descending sort *)

Section Sorting.
Local Open Scope Q_scope.
Context {A : Type} (key : A → Q).


Lemma insert_desc_perm x l : insert_desc key x l ≡ₚ x :: l.
Proof.
  induction l as [|y l IH]; simpl; [done|].
  destruct (Qltb (key x) (key y)); [|done].
  rewrite IH. apply Permutation_swap.
Qed.

Lemma sort_desc_perm l : sort_desc key l ≡ₚ l.
Proof.
  induction l as [|x l IH]; simpl; [done|].
  rewrite insert_desc_perm. by rewrite IH.
Qed.

Lemma insert_desc_sorted x l :
  StronglySorted (desc key) l → StronglySorted (desc key) (insert_desc key x l).
Proof.
  induction 1 as [|y l Hs IH Hy]; simpl.
  - repeat constructor.
  - destruct (Qltb (key x) (key y)) eqn:E.
    + apply Qltb_lt in E. constructor; [done|].
      rewrite insert_desc_perm. constructor; [unfold desc; lra | done].
    + apply Qltb_ge in E. constructor; [by constructor|].
      constructor; [done|].
      eapply Forall_impl; [exact Hy|]. unfold desc. intros z Hz. simpl in Hz. lra.
Qed.

Lemma sort_desc_sorted l : StronglySorted (desc key) (sort_desc key l).
Proof.
  induction l as [|x l IH]; simpl; [constructor|].
  by apply insert_desc_sorted.
Qed.

(** Inserting [x] leaves the elements of any one key class in their
    order, with [x] in front of its own class. *)
Lemma insert_desc_stable k x l :
  List.filter (λ a, Qeq_bool (key a) k) (insert_desc key x l)
  = List.filter (λ a, Qeq_bool (key a) k) (x :: l).
Proof.
  induction l as [|y l IH]; [done|].
  cbn [insert_desc].
  destruct (Qltb (key x) (key y)) eqn:E; [|done].
  apply Qltb_lt in E.
  cbn [List.filter] in *. rewrite IH.
  destruct (Qeq_bool (key x) k) eqn:Ex; [|done].
  destruct (Qeq_bool (key y) k) eqn:Ey; [|done].
  apply Qeq_bool_iff in Ex, Ey. lra.
Qed.

Lemma sort_desc_stable k l :
  List.filter (λ a, Qeq_bool (key a) k) (sort_desc key l)
  = List.filter (λ a, Qeq_bool (key a) k) l.
Proof.
  induction l as [|x l IH]; [done|].
  cbn [sort_desc]. rewrite insert_desc_stable.
  cbn [List.filter]. by rewrite IH.
Qed.
End Sorting.

(** ** The filtering loop *)

Section Filtering.
Context (charger_by_id : gmap string Charger.t)
        (route_by_vehicle : gmap string RoutePlan.t).

Lemma filter_loop_spec vehicles expl el :
  filter_loop charger_by_id route_by_vehicle vehicles expl el
  = (foldl (record_ignored charger_by_id route_by_vehicle) expl vehicles,
     el ++ omap (eligible_triple charger_by_id route_by_vehicle) vehicles).
Proof.
  revert expl el. induction vehicles as [|v vs IH]; intros expl el.
  - simpl. by rewrite app_nil_r.
  - simpl. unfold record_ignored at 2. unfold eligible_triple at 1.
    destruct (filter_vehicle charger_by_id route_by_vehicle v) as [e|t].
    + apply IH.
    + rewrite IH. by rewrite <- app_assoc.
Qed.

Lemma eligible_triple_Some v t :
  eligible_triple charger_by_id route_by_vehicle v = Some t →
  t.1.1 = v
  ∧ Vehicle.state v = "DISPONIVEL"
  ∧ (∃ cid, Vehicle.charger_id v = Some cid ∧ cid ≠ ""
            ∧ charger_by_id !! cid = Some t.1.2)
  ∧ Charger.enabled t.1.2 = true
  ∧ route_by_vehicle !! Vehicle.id v = Some t.2.
Proof.
  unfold eligible_triple, filter_vehicle.
  destruct (String.eqb (Vehicle.state v) "DISPONIVEL") eqn:Es;
    [|discriminate]. cbn [negb].
  destruct (Vehicle.charger_id v) as [cid|]; [|discriminate].
  destruct (String.eqb cid "") eqn:Ec; [discriminate|].
  destruct (charger_by_id !! cid) as [ch|] eqn:Hch; [|discriminate].
  destruct (Charger.enabled ch) eqn:Een; [|discriminate]. cbn [negb].
  destruct (route_by_vehicle !! Vehicle.id v) as [rt|] eqn:Hrt;
    [|discriminate].
  intros [= <-]. cbn.
  apply String.eqb_eq in Es. apply String.eqb_neq in Ec.
  repeat split; try done. by exists cid.
Qed.

Lemma eligible_triple_vehicle v t : eligible_triple charger_by_id route_by_vehicle v = Some t → t.1.1 = v.
Proof. intros H. apply eligible_triple_Some in H. tauto. Qed.

Lemma dom_record_ignored (vehicles : list Vehicle.t) expl :
  dom (foldl (record_ignored charger_by_id route_by_vehicle) expl vehicles)
  = dom expl ∪ ignored_ids charger_by_id route_by_vehicle vehicles.
Proof.
  revert expl. induction vehicles as [|v vs IH]; intros expl.
  - unfold ignored_ids. simpl. set_solver.
  - cbn [foldl]. rewrite IH. unfold ignored_ids, record_ignored at 1.
    rewrite filter_cons.
    destruct (filter_vehicle charger_by_id route_by_vehicle v) as [e|t] eqn:E.
    + rewrite decide_True by (unfold eligible_triple; by rewrite E).
      rewrite dom_insert_L, fmap_cons, list_to_set_cons. set_solver.
    + rewrite decide_False by (unfold eligible_triple; by rewrite E). done.
Qed.

Lemma elem_of_eligible (vehicles : list Vehicle.t) (t : Triple) :
  t ∈ omap (eligible_triple charger_by_id route_by_vehicle) vehicles
  ↔ ∃ v, v ∈ vehicles ∧ eligible_triple charger_by_id route_by_vehicle v = Some t.
Proof. apply list_elem_of_omap. Qed.
End Filtering.

(** ** The planning loop *)

Section Planning.
Local Open Scope Q_scope.
Context (now : datetime) (prices : list EnergyPricePoint.t)
        (site : SiteConstraints.t).

Lemma plan_step_case st v ch rt :
  step_case now prices st v ch rt (plan_step now prices site st (v, ch, rt)).
Proof.
  unfold plan_step.
  change (battery_friendly_kw v ch _) with (final_kw_of now prices st (v, ch, rt)).
  set (f := final_kw_of now prices st (v, ch, rt)).
  destruct (Qleb (deficit_of v rt) 0) eqn:Ed;
    [apply Qleb_le in Ed | apply Qleb_gt in Ed].
  { by apply step_ok. }
  destruct (Qleb (minutes_until (RoutePlan.start_time rt) now) 0) eqn:Em;
    [apply Qleb_le in Em | apply Qleb_gt in Em].
  { by apply step_overdue. }
  destruct (Qleb f 0.01) eqn:Ef;
    [apply Qleb_le in Ef | apply Qleb_gt in Ef].
  - apply step_not_planned; try done.
    cbn. destruct (Qltb 0.01 f) eqn:E'; [|done].
    apply Qltb_lt in E'. lra.
  - destruct (Qltb (Vehicle.soc v) (RoutePlan.required_soc_min rt)
              && Qltb (minutes_until (RoutePlan.start_time rt) now) 60).
    + apply step_planned; try done; [|by right].
      cbn. destruct (Qltb 0.01 f) eqn:E'; [done|].
      apply Qltb_ge in E'. lra.
    + rewrite <- (app_nil_r (alerts st)) at 1.
      apply step_planned; try done; [|by left].
      cbn. destruct (Qltb 0.01 f) eqn:E'; [done|].
      apply Qltb_ge in E'. lra.
Qed.
End Planning.

Section Loop.
Local Open Scope Q_scope.
Context (now : datetime) (prices : list EnergyPricePoint.t)
        (site : SiteConstraints.t).

Abbreviation step := (plan_step now prices site).
Abbreviation loop := (plan_loop now prices site).
Abbreviation seen := (visited now prices site).

Lemma visited_prefix l st : seen l st `prefix_of` l.
Proof.
  revert st. induction l as [|t l IH]; intros st; simpl; [done|].
  destruct (step st t) as [st' []].
  - by apply prefix_cons.
  - apply prefix_cons_alt; [done | apply prefix_nil].
Qed.

(** The final state is the loop body folded over the visited triples. *)
Lemma plan_loop_visited l st :
  loop l st = foldl (λ s t, (step s t).1) st (seen l st).
Proof.
  revert st. induction l as [|t l IH]; intros st; simpl; [done|].
  destruct (step st t) as [st' []] eqn:E; simpl; rewrite E; simpl;
    [apply IH | done].
Qed.

(** Invariant rule: a property of (triples visited so far, loop state)
    that holds on entry and is kept by the loop body holds on exit. *)
Lemma plan_loop_invariant (P : list Triple → LoopState → Prop) l st0 :
  P [] st0 →
  (∀ pre t st,
     (pre ++ [t]) `prefix_of` seen l st0 →
     P pre st → P (pre ++ [t]) (step st t).1) →
  P (seen l st0) (loop l st0).
Proof.
  revert P st0. induction l as [|t l IH]; intros P st0 H0 Hstep; [done|].
  simpl in *. destruct (step st0 t) as [st' fl] eqn:E.
  assert (P [t] st') as Ht.
  { replace st' with (step st0 t).1 by (by rewrite E).
    apply (Hstep [] t st0); [|done].
    destruct fl; [by apply prefix_cons, prefix_nil | done]. }
  destruct fl; [|done].
  apply (IH (λ vis st, P (t :: vis) st)); [done|].
  intros pre t' st Hpre HP.
  apply (Hstep (t :: pre)); [|done]. by apply prefix_cons.
Qed.

Lemma plan_step_break st t st' :
  step st t = (st', Break) → remaining_kw st' <= 0.01.
Proof.
  destruct t as [[v ch] rt]. intros E.
  destruct (plan_step_case now prices site st v ch rt); try discriminate.
  destruct (Qleb _ 0.01) eqn:Eb in E; [|discriminate].
  injection E as <-. by apply Qleb_le in Eb.
Qed.

(** The loop visits every triple unless the budget ran out. *)
Lemma visited_all_or_exhausted l st :
  seen l st = l ∨ remaining_kw (loop l st) <= 0.01.
Proof.
  revert st. induction l as [|t l IH]; intros st; simpl; [by left|].
  destruct (step st t) as [st' []] eqn:E.
  - destruct (IH st') as [-> | ?]; [by left | by right].
  - right. by apply plan_step_break in E.
Qed.
End Loop.

(** ** Dictionaries built by comprehension *)

Section DictComprehension.
Context {V : Type} (key : V → string).

(** [{key(x): x for x in l}] written over an existing dictionary: the
    value under [k] is the last [x] of [l] with that key, if any. *)
Lemma lookup_foldl_insert (l : list V) (m0 : gmap string V) (k : string) :
  foldl (λ m x, <[key x := x]> m) m0 l !! k
  = match last (filter (λ x, key x = k) l) with
    | Some x => Some x
    | None => m0 !! k
    end.
Proof.
  revert m0. induction l as [|x l IH]; intros m0; [done|].
  cbn [foldl]. rewrite IH, filter_cons.
  destruct (decide (key x = k)) as [<- | Hne].
  - rewrite last_cons.
    destruct (last (filter (λ y, key y = key x) l)); [done|].
    apply lookup_insert_eq.
  - destruct (last (filter (λ y, key y = k) l)); [done|].
    by apply lookup_insert_ne.
Qed.

Lemma lookup_comprehension (l : list V) (k : string) :
  dict_of key l !! k
  = last (filter (λ x, key x = k) l).
Proof.
  unfold dict_of. rewrite lookup_foldl_insert.
  destruct (last (filter (λ x, key x = k) l)); [done | apply lookup_empty].
Qed.

Lemma lookup_comprehension_Some (l : list V) (k : string) (x : V) :
  dict_of key l !! k = Some x → key x = k ∧ x ∈ l.
Proof.
  rewrite lookup_comprehension. intros H.
  apply last_Some_elem_of, list_elem_of_filter in H. done.
Qed.

End DictComprehension.

(** ** Bounds on the power of a command *)

Section PowerBounds.
Local Open Scope Q_scope.
Context (now : datetime) (prices : list EnergyPricePoint.t).

Lemma battery_friendly_kw_above v ch r :
  0 < battery_friendly_kw v ch r →
  battery_friendly_kw v ch r <= Charger.max_kw ch
  ∧ (0 <= r → battery_friendly_kw v ch r <= r).
Proof.
  unfold battery_friendly_kw. intros H.
  apply clamp_above in H as [Hx Hhi]; [|lra].
  split; [done|]. intros Hr.
  eapply Qle_trans; [exact Hx|]. qcase; lra.
Qed.

Lemma requested_kw_of_bounds st t :
  0 <= requested_kw_of now prices st t
  ∧ (0 < requested_kw_of now prices st t →
     requested_kw_of now prices st t <= remaining_kw st).
Proof.
  destruct t as [[v ch] rt]. unfold requested_kw_of.
  destruct (should_delay_charging _ _ _ _); [lra|].
  split.
  - pose proof (clamp_lower
      (py_min3 (deficit_of v rt * Vehicle.battery_kwh v
                / py_max (minutes_until (RoutePlan.start_time rt) now / 60.0)
                         1e-6)
               (Charger.max_kw ch) (remaining_kw st)) 0.0 (Charger.max_kw ch)).
    lra.
  - intros H. apply clamp_above in H as [Hx _]; [|lra].
    eapply Qle_trans; [exact Hx | apply py_min3_le_r].
Qed.

Lemma final_kw_le_max st t :
  0 < final_kw_of now prices st t →
  final_kw_of now prices st t <= Charger.max_kw t.1.2.
Proof. unfold final_kw_of. intros H. by apply battery_friendly_kw_above. Qed.

End PowerBounds.

(** ** Properties of the plan for a snapshot *)

Section Snapshot.
Local Open Scope Q_scope.
Context (now : datetime) (vehicles : list Vehicle.t)
        (chargers : list Charger.t) (routes : list RoutePlan.t)
        (prices : list EnergyPricePoint.t) (site : SiteConstraints.t).

Abbreviation charger_by_id := (charger_by_id_of chargers).
Abbreviation route_by_vehicle := (route_by_vehicle_of routes).
Abbreviation eligible :=
  (filter_loop charger_by_id route_by_vehicle vehicles ∅ []).2.
Abbreviation order := (eligible_sorted now vehicles chargers routes).
Abbreviation st0 := (initial_state vehicles chargers routes site).
Abbreviation plan := (make_plan now vehicles chargers routes prices site).

Lemma eligible_eq :
  eligible = omap (eligible_triple charger_by_id route_by_vehicle) vehicles.
Proof. by rewrite filter_loop_spec. Qed.

Lemma order_perm : order ≡ₚ eligible.
Proof. apply sort_desc_perm. Qed.

Lemma visited_in_eligible t :
  t ∈ visited now prices site order st0 → t ∈ eligible.
Proof.
  intros H. rewrite <- order_perm.
  destruct (visited_prefix now prices site order st0) as [k Hk].
  rewrite Hk. apply elem_of_app. by left.
Qed.

Lemma eligible_charger t :
  t ∈ eligible →
  charger_by_id !! Charger.id t.1.2 = Some t.1.2 ∧ t.1.2 ∈ chargers.
Proof.
  rewrite eligible_eq, elem_of_eligible. intros (v & _ & H).
  apply eligible_triple_Some in H as (_ & _ & (cid & _ & _ & Hc) & _).
  pose proof (lookup_comprehension_Some Charger.id chargers cid _ Hc)
    as [Hid Hin].
  split; [|done]. by rewrite Hid.
Qed.

Lemma eligible_vehicles : (λ t : Triple, t.1.1) <$> eligible `sublist_of` vehicles.
Proof.
  rewrite eligible_eq. induction vehicles as [|v vs IH]; [done|].
  simpl. destruct (eligible_triple _ _ v) as [t|] eqn:E.
  - apply eligible_triple_vehicle in E. rewrite fmap_cons, E.
    by apply sublist_skip.
  - by apply sublist_cons.
Qed.
End Snapshot.

(** ** Urgency ranking (C6) *)

Section Urgency.
Local Open Scope Q_scope.

Lemma py_max_Qmax a b : py_max a b == Qmax a b.
Proof.
  unfold py_max. destruct (Qltb a b) eqn:E.
  - apply Qltb_lt in E. symmetry. apply Q.max_r. lra.
  - apply Qltb_ge in E. symmetry. by apply Q.max_l.
Qed.

(** C6.  The loop body runs, in order, on a prefix of the eligible
    triples sorted by decreasing urgency, where urgency is
    [max(0, required_soc_min - soc) * 1000 + max(0, 180 - minutes_to_start)];
    the sorted list is a rearrangement of the eligible list in which
    triples of equal urgency keep their relative order, and the
    eligible list follows the order of the input vehicles. *)
Theorem allocation_order now vehicles chargers routes prices site :
  let eligible :=
    (filter_loop (charger_by_id_of chargers) (route_by_vehicle_of routes)
                 vehicles ∅ []).2 in
  let order := eligible_sorted now vehicles chargers routes in
  visited now prices site order
          (initial_state vehicles chargers routes site) `prefix_of` order
  ∧ plan_loop now prices site order
              (initial_state vehicles chargers routes site)
    = foldl (λ st t, (plan_step now prices site st t).1)
            (initial_state vehicles chargers routes site)
            (visited now prices site order
                     (initial_state vehicles chargers routes site))
  ∧ order ≡ₚ eligible
  ∧ StronglySorted (λ a b, urgency_key now b <= urgency_key now a) order
  ∧ (∀ k, List.filter (λ t, Qeq_bool (urgency_key now t) k) order
          = List.filter (λ t, Qeq_bool (urgency_key now t) k) eligible)
  ∧ (λ t : Triple, t.1.1) <$> eligible `sublist_of` vehicles
  ∧ (∀ v ch rt,
       urgency_key now (v, ch, rt)
       == Qmax 0 (RoutePlan.required_soc_min rt - Vehicle.soc v) * 1000
          + Qmax 0 (180 - minutes_until (RoutePlan.start_time rt) now)).
Proof.
  intros eligible order. repeat split.
  - apply visited_prefix.
  - apply plan_loop_visited.
  - apply sort_desc_perm.
  - apply sort_desc_sorted.
  - intros k. apply sort_desc_stable.
  - apply eligible_vehicles.
  - intros v ch rt. unfold urgency_key, compute_urgency. cbn [fst snd].
    rewrite !py_max_Qmax.
    assert (Qmax 0.0 (RoutePlan.required_soc_min rt - Vehicle.soc v)
            == Qmax 0 (RoutePlan.required_soc_min rt - Vehicle.soc v)) as ->
      by (apply Q.max_compat; [reflexivity | reflexivity]).
    assert (Qmax 0.0 (180.0 - minutes_until (RoutePlan.start_time rt) now)
            == Qmax 0 (180 - minutes_until (RoutePlan.start_time rt) now))
      as -> by (apply Q.max_compat; [reflexivity | ring]).
    ring.
Qed.
End Urgency.

(** ** Invariants of the emitted commands (C10, C3, C2) *)

Section Commands.
Local Open Scope Q_scope.
Context (now : datetime) (vehicles : list Vehicle.t)
        (chargers : list Charger.t) (routes : list RoutePlan.t)
        (prices : list EnergyPricePoint.t) (site : SiteConstraints.t).

Abbreviation the_order := (eligible_sorted now vehicles chargers routes).
Abbreviation the_st0 := (initial_state vehicles chargers routes site).
Abbreviation final_state := (plan_loop now prices site the_order the_st0).
Abbreviation the_visited := (visited now prices site the_order the_st0).


Lemma commands_threshold_inv :
  Forall (λ c, 0.01 < ChargingCommand.set_kw c) (commands final_state).
Proof.
  apply (plan_loop_invariant now prices site
           (λ _ st, Forall (λ c, 0.01 < ChargingCommand.set_kw c)
                           (commands st))).
  { constructor. }
  intros pre [[v ch] rt] st _ IH.
  destruct (plan_step_case now prices site st v ch rt); cbn; try done.
  apply Forall_app. split; [done|]. by repeat constructor.
Qed.

Lemma commands_charger_inv :
  Forall (λ c, ∃ t, t ∈ the_visited
                    ∧ ChargingCommand.charger_id c = Charger.id t.1.2
                    ∧ ChargingCommand.set_kw c <= Charger.max_kw t.1.2)
         (commands final_state).
Proof.
  apply (plan_loop_invariant now prices site
           (λ vis st,
              Forall (λ c, ∃ t, t ∈ vis
                    ∧ ChargingCommand.charger_id c = Charger.id t.1.2
                    ∧ ChargingCommand.set_kw c <= Charger.max_kw t.1.2)
                (commands st))).
  { constructor. }
  intros pre [[v ch] rt] st _ IH.
  assert (Forall (λ c, ∃ t, t ∈ pre ++ [(v, ch, rt)]
                    ∧ ChargingCommand.charger_id c = Charger.id t.1.2
                    ∧ ChargingCommand.set_kw c <= Charger.max_kw t.1.2)
                 (commands st)) as IH'.
  { eapply Forall_impl; [exact IH|]. intros c (t & Ht & ?).
    exists t. split; [|done]. apply elem_of_app. by left. }
  destruct (plan_step_case now prices site st v ch rt); cbn; try done.
  apply Forall_app. split; [done|]. constructor; [|constructor].
  exists (v, ch, rt). cbn. split; [|split; [done|]].
  - apply elem_of_app. right. by apply list_elem_of_singleton.
  - apply (final_kw_le_max now prices st (v, ch, rt)). lra.
Qed.


End Commands.

Section CommandClaims.
Local Open Scope Q_scope.

(** C10.  Every command of a plan has [set_kw] above 0.01; a visit whose
    final power is at most 0.01 adds no command, leaves the budget
    alone and goes on to the next triple, and in the sizing branch it
    records the status [nao_planeado]. *)
Theorem commands_exceed_threshold :
  (∀ now vehicles chargers routes prices site c,
     c ∈ PlanResult.commands
           (make_plan now vehicles chargers routes prices site) →
     0.01 < ChargingCommand.set_kw c)
  ∧ (∀ now prices site st v ch rt,
       final_kw_of now prices st (v, ch, rt) <= 0.01 →
       let r := plan_step now prices site st (v, ch, rt) in
       commands r.1 = commands st
       ∧ remaining_kw r.1 = remaining_kw st
       ∧ r.2 = Next
       ∧ (0 < deficit_of v rt →
          0 < minutes_until (RoutePlan.start_time rt) now →
          status <$> explanations r.1 !! Vehicle.id v = Some nao_planeado)).
Proof.
  split.
  - intros now vehicles chargers routes prices site c Hc. cbn in Hc.
    pose proof (commands_threshold_inv now vehicles chargers routes prices site)
      as H.
    rewrite Forall_forall in H. by apply H.
  - intros now prices site st v ch rt Hf r. subst r.
    destruct (plan_step_case now prices site st v ch rt) as
      [e Hd He | e Hd Hm He | e Hd Hm Hf' He | e crit Hd Hm Hf' He Hc];
      cbn [fst snd commands remaining_kw explanations].
    + repeat split. intros. lra.
    + repeat split. intros. lra.
    + repeat split. intros _ _. by rewrite lookup_insert_eq, <- He.
    + lra.
Qed.

Lemma commands_exceed_threshold_witness :
  0.01 < 50
  ∧ status <$> explanations
       (plan_step 0 [] sample_site (mkState 0 [] [] ∅)
          (sample_vehicle, sample_charger, sample_route)).1 !! "v1"
    = Some nao_planeado.
Proof.
  split.
  - apply (proj1 commands_exceed_threshold 0%Z [sample_vehicle]
             [sample_charger] [sample_route] [] sample_site
             (ChargingCommand.mk "v1" "c1" 50 command_reason)).
    vm_compute. constructor.
  - apply (proj2 commands_exceed_threshold 0%Z [] sample_site
             (mkState 0 [] [] ∅) sample_vehicle sample_charger sample_route);
      vm_compute; congruence.
Defined.

(** C3.  The charger that a command names is in the charger dictionary,
    and the command's power does not exceed that charger's [max_kw]. *)
Theorem command_within_charger_limit now vehicles chargers routes prices site c :
  c ∈ PlanResult.commands (make_plan now vehicles chargers routes prices site) →
  ∃ ch, charger_by_id_of chargers !! ChargingCommand.charger_id c = Some ch
        ∧ ch ∈ chargers
        ∧ Charger.id ch = ChargingCommand.charger_id c
        ∧ ChargingCommand.set_kw c <= Charger.max_kw ch.
Proof.
  intros Hc. cbn in Hc.
  pose proof (commands_charger_inv now vehicles chargers routes prices site)
    as H.
  rewrite Forall_forall in H. destruct (H c Hc) as (t & Ht & Hid & Hle).
  apply visited_in_eligible, eligible_charger in Ht as [Hl Hin].
  exists t.1.2. rewrite Hid. done.
Qed.

Lemma command_within_charger_limit_witness :
  ∃ ch, charger_by_id_of [sample_charger] !! "c1" = Some ch
        ∧ ch ∈ [sample_charger]
        ∧ Charger.id ch = "c1"
        ∧ 50 <= Charger.max_kw ch.
Proof.
  apply (command_within_charger_limit 0%Z [sample_vehicle] [sample_charger]
           [sample_route] [] sample_site
           (ChargingCommand.mk "v1" "c1" 50 command_reason)).
  vm_compute. constructor.
Defined.



End CommandClaims.

(** ** Keys of the explanation mapping (C1) *)

Section ExplanationKeys.
Local Open Scope Q_scope.
Context (now : datetime) (vehicles : list Vehicle.t)
        (chargers : list Charger.t) (routes : list RoutePlan.t)
        (prices : list EnergyPricePoint.t) (site : SiteConstraints.t).

Lemma initial_explanations :
  explanations (initial_state vehicles chargers routes site)
  = foldl (record_ignored (charger_by_id_of chargers)
                          (route_by_vehicle_of routes)) ∅ vehicles.
Proof. unfold initial_state. cbn. by rewrite filter_loop_spec. Qed.

Lemma explanations_dom_inv :
  dom (explanations
         (plan_loop now prices site
            (eligible_sorted now vehicles chargers routes)
            (initial_state vehicles chargers routes site)))
  = ignored_ids (charger_by_id_of chargers) (route_by_vehicle_of routes)
                vehicles
    ∪ list_to_set
        ((λ t : Triple, Vehicle.id t.1.1)
           <$> visited now prices site
                 (eligible_sorted now vehicles chargers routes)
                 (initial_state vehicles chargers routes site)).
Proof.
  apply (plan_loop_invariant now prices site
           (λ vis st,
              dom (explanations st)
              = ignored_ids (charger_by_id_of chargers)
                            (route_by_vehicle_of routes) vehicles
                ∪ list_to_set ((λ t : Triple, Vehicle.id t.1.1) <$> vis))).
  { rewrite initial_explanations, dom_record_ignored. set_solver. }
  intros pre [[v ch] rt] st _ IH.
  rewrite fmap_app, list_to_set_app_L. cbn [fmap list_fmap fst].
  destruct (plan_step_case now prices site st v ch rt);
    cbn [fst explanations]; rewrite dom_insert_L, IH; set_solver.
Qed.

Lemma vehicle_filtered v :
  v ∈ vehicles →
  (∃ e, filter_vehicle (charger_by_id_of chargers)
                       (route_by_vehicle_of routes) v = inl e)
  ∨ (∃ t, t ∈ eligible_sorted now vehicles chargers routes ∧ t.1.1 = v).
Proof.
  intros Hv.
  destruct (filter_vehicle (charger_by_id_of chargers)
                           (route_by_vehicle_of routes) v) as [e|t] eqn:E.
  - left. by exists e.
  - right. exists t.
    assert (eligible_triple (charger_by_id_of chargers)
                            (route_by_vehicle_of routes) v = Some t) as Ht
      by (unfold eligible_triple; by rewrite E).
    split; [|by apply eligible_triple_vehicle in Ht].
    unfold eligible_sorted. rewrite sort_desc_perm, filter_loop_spec. cbn.
    apply elem_of_eligible. by exists v.
Qed.
End ExplanationKeys.

(** C1, as the code has it.  The keys of the explanation mapping are the
    identities of the vehicles that the filter ignored or that the
    planning loop visited, each key once; when the loop ends with more
    than 0.01 of the budget left, that is every input vehicle. *)
Theorem explanation_keys now vehicles chargers routes prices site :
  let plan := make_plan now vehicles chargers routes prices site in
  let seen :=
    visited now prices site (eligible_sorted now vehicles chargers routes)
            (initial_state vehicles chargers routes site) in
  (∀ k, is_Some (PlanResult.explanations plan !! k)
        ↔ ∃ v, v ∈ vehicles ∧ Vehicle.id v = k
               ∧ ((∃ e, filter_vehicle (charger_by_id_of chargers)
                                       (route_by_vehicle_of routes) v = inl e)
                  ∨ (∃ ch rt, (v, ch, rt) ∈ seen)))
  ∧ NoDup (map_to_list (PlanResult.explanations plan)).*1
  ∧ ((0.01 < SiteConstraints.site_max_kw site - PlanResult.total_kw plan)%Q →
     ∀ v, v ∈ vehicles →
          is_Some (PlanResult.explanations plan !! Vehicle.id v)).
Proof.
  intros plan seen.
  assert (Hkeys : ∀ k, is_Some (PlanResult.explanations plan !! k)
        ↔ ∃ v, v ∈ vehicles ∧ Vehicle.id v = k
               ∧ ((∃ e, filter_vehicle (charger_by_id_of chargers)
                                       (route_by_vehicle_of routes) v = inl e)
                  ∨ (∃ ch rt, (v, ch, rt) ∈ seen))).
  { intros k. subst plan. cbn [PlanResult.explanations make_plan].
    rewrite <- elem_of_dom, explanations_dom_inv, elem_of_union.
    fold seen. unfold ignored_ids.
    rewrite !elem_of_list_to_set, !list_elem_of_fmap. split.
    - intros [(v & -> & Hv) | ([[v ch] rt] & -> & Ht)].
      + apply list_elem_of_filter in Hv as [Hv Hin].
        exists v. split; [done|]. split; [done|]. left.
        unfold eligible_triple in Hv.
        destruct (filter_vehicle _ _ v) as [e|]; [by exists e | done].
      + exists v. cbn.
        assert (Hel := Ht). apply visited_in_eligible in Hel.
        rewrite eligible_eq in Hel. apply elem_of_eligible in Hel as (v' & Hin & Hv').
        assert (Hvv := Hv'). apply eligible_triple_vehicle in Hvv. cbn in Hvv. subst v'.
        split; [done|]. split; [done|]. right. by exists ch, rt.
    - intros (v & Hin & <- & [[e He] | (ch & rt & Ht)]).
      + left. exists v. split; [done|]. apply list_elem_of_filter.
        split; [|done]. unfold eligible_triple. by rewrite He.
      + right. by exists (v, ch, rt). }
  split; [exact Hkeys|]. split; [apply NoDup_fst_map_to_list|].
  intros Hrem v Hv. apply Hkeys. exists v. split; [done|]. split; [done|].
  destruct (vehicle_filtered now vehicles chargers routes v Hv)
    as [He | ([[v' ch] rt] & Ht & Hv')]; [by left|].
  right. cbn in Hv'. subst v'. exists ch, rt. subst seen.
  destruct (visited_all_or_exhausted now prices site
              (eligible_sorted now vehicles chargers routes)
              (initial_state vehicles chargers routes site)) as [-> | Hex];
    [done|].
  subst plan. cbn [PlanResult.total_kw make_plan] in Hrem. lra.
Qed.

Lemma explanation_keys_witness :
  is_Some (PlanResult.explanations sample_plan !! "v1").
Proof.
  apply (proj2 (proj2 (explanation_keys 0%Z [sample_vehicle] [sample_charger]
                         [sample_route] [] sample_site))
           ltac:(vm_compute; reflexivity) sample_vehicle).
  apply list_elem_of_here.
Defined.

(** C1 as stated fails when the budget runs out: the first vehicle takes
    the whole cap, the loop stops, and the second vehicle, although
    eligible, has no explanation. *)
Lemma explanation_keys_counterexample :
  ¬ (∀ v, v ∈ [sample_vehicle; second_vehicle] →
          is_Some (PlanResult.explanations tight_plan !! Vehicle.id v)).
Proof.
  intros H.
  specialize (H second_vehicle ltac:(apply list_elem_of_further, list_elem_of_here)).
  assert (PlanResult.explanations tight_plan !! Vehicle.id second_vehicle
          = None) as E by (vm_compute; reflexivity).
  destruct H as [x Hx]. congruence.
Qed.

(** ** Overdue routes (C7) *)

Section Overdue.
Local Open Scope Q_scope.
Context (now : datetime) (prices : list EnergyPricePoint.t)
        (site : SiteConstraints.t).

(** What one pass of the loop body may change: the explanation of its
    own vehicle, and alerts and commands that name that vehicle. *)
Lemma plan_step_effect st v ch rt :
  ∃ e new_alerts new_commands,
    (plan_step now prices site st (v, ch, rt)).1
    = mkState (remaining_kw (plan_step now prices site st (v, ch, rt)).1)
              (commands st ++ new_commands) (alerts st ++ new_alerts)
              (<[Vehicle.id v := e]> (explanations st))
    ∧ Forall (λ a, alert_vehicle a = Vehicle.id v) new_alerts
    ∧ Forall (λ c, ChargingCommand.vehicle_id c = Vehicle.id v) new_commands
    ∧ (0 < deficit_of v rt →
       minutes_until (RoutePlan.start_time rt) now <= 0 →
       status e = erro
       ∧ new_alerts = [AlertRouteOverdue (Vehicle.id v)]
       ∧ new_commands = []
       ∧ (plan_step now prices site st (v, ch, rt)).2 = Next
       ∧ remaining_kw (plan_step now prices site st (v, ch, rt)).1
         = remaining_kw st).
Proof.
  destruct (plan_step_case now prices site st v ch rt) as
    [e Hd He | e Hd Hm He | e Hd Hm Hf He | e crit Hd Hm Hf He Hc];
    cbn [fst snd remaining_kw].
  - exists e, [], []. rewrite !app_nil_r.
    repeat split; try constructor; lra.
  - exists e, [AlertRouteOverdue (Vehicle.id v)], []. rewrite !app_nil_r.
    repeat split; try done. by repeat constructor.
  - exists e, [], []. rewrite !app_nil_r.
    repeat split; try constructor; lra.
  - eexists e, crit, [_]. split; [reflexivity|].
    split; [|split; [by repeat constructor | intros; lra]].
    destruct Hc as [-> | ->]; by repeat constructor.
Qed.

Lemma filter_names_other (k : string) (l new : list Alert) :
  Forall (λ a, alert_vehicle a ≠ k) new →
  filter (λ a, alert_vehicle a = k) (l ++ new)
  = filter (λ a, alert_vehicle a = k) l.
Proof.
  intros H. rewrite filter_app.
  induction H as [|a new Ha _ IH]; [by rewrite app_nil_r|].
  by rewrite filter_cons_False.
Qed.

(** With pairwise distinct identities among the triples, what the loop
    recorded for an overdue vehicle is still there at the end. *)
Lemma overdue_inv l st0 :
  NoDup ((λ t : Triple, Vehicle.id t.1.1) <$> visited now prices site l st0) →
  alerts st0 = [] → commands st0 = [] →
  ∀ t, t ∈ visited now prices site l st0 →
       0 < deficit_of t.1.1 t.2 →
       minutes_until (RoutePlan.start_time t.2) now <= 0 →
       status <$> explanations (plan_loop now prices site l st0)
                    !! Vehicle.id t.1.1 = Some erro
       ∧ filter (λ a, alert_vehicle a = Vehicle.id t.1.1)
                (alerts (plan_loop now prices site l st0))
         = [AlertRouteOverdue (Vehicle.id t.1.1)]
       ∧ Forall (λ c, ChargingCommand.vehicle_id c ≠ Vehicle.id t.1.1)
                (commands (plan_loop now prices site l st0)).
Proof.
  intros Hnd Ha0 Hc0.
  pose (ids := λ vis : list Triple, (λ t : Triple, Vehicle.id t.1.1) <$> vis).
  enough ((∀ t, t ∈ visited now prices site l st0 →
       0 < deficit_of t.1.1 t.2 →
       minutes_until (RoutePlan.start_time t.2) now <= 0 →
       status <$> explanations (plan_loop now prices site l st0)
                    !! Vehicle.id t.1.1 = Some erro
       ∧ filter (λ a, alert_vehicle a = Vehicle.id t.1.1)
                (alerts (plan_loop now prices site l st0))
         = [AlertRouteOverdue (Vehicle.id t.1.1)]
       ∧ Forall (λ c, ChargingCommand.vehicle_id c ≠ Vehicle.id t.1.1)
                (commands (plan_loop now prices site l st0)))
    ∧ (∀ k, k ∉ ids (visited now prices site l st0) →
            filter (λ a, alert_vehicle a = k)
                   (alerts (plan_loop now prices site l st0)) = []
            ∧ Forall (λ c, ChargingCommand.vehicle_id c ≠ k)
                     (commands (plan_loop now prices site l st0)))) as [H _]
    by exact H.
  apply (plan_loop_invariant now prices site
    (λ vis st,
       (∀ t, t ∈ vis →
          0 < deficit_of t.1.1 t.2 →
          minutes_until (RoutePlan.start_time t.2) now <= 0 →
          status <$> explanations st !! Vehicle.id t.1.1 = Some erro
          ∧ filter (λ a, alert_vehicle a = Vehicle.id t.1.1) (alerts st)
            = [AlertRouteOverdue (Vehicle.id t.1.1)]
          ∧ Forall (λ c, ChargingCommand.vehicle_id c ≠ Vehicle.id t.1.1)
                   (commands st))
       ∧ (∀ k, k ∉ ids vis →
               filter (λ a, alert_vehicle a = k) (alerts st) = []
               ∧ Forall (λ c, ChargingCommand.vehicle_id c ≠ k)
                        (commands st)))).
  { split.
    - intros t Ht. by apply elem_of_nil in Ht.
    - intros k _. rewrite Ha0, Hc0. split; [done | constructor]. }
  intros pre [[v ch] rt] st [rest Hpre] [IH1 IH2].
  assert (Vehicle.id v ∉ ids pre) as Hfresh.
  { rewrite Hpre, !fmap_app in Hnd. apply NoDup_app in Hnd as [Hnd _].
    apply NoDup_app in Hnd as (_ & Hnd & _).
    intros Hin. apply (Hnd _ Hin). cbn. apply list_elem_of_here. }
  destruct (plan_step_effect st v ch rt) as
    (e & na & nc & -> & Hna & Hnc & Hov).
  cbn [explanations alerts commands]. split.
  - intros t Ht Hd Hm. apply elem_of_app in Ht as [Ht | Ht].
    + assert (Vehicle.id t.1.1 ≠ Vehicle.id v) as Hne.
      { intros E. apply Hfresh. rewrite <- E. unfold ids.
        apply list_elem_of_fmap. by exists t. }
      destruct (IH1 t Ht Hd Hm) as (He & Hal & Hcm).
      rewrite lookup_insert_ne by done. split; [done|]. split.
      * rewrite filter_names_other; [done|].
        eapply Forall_impl; [exact Hna|]. intros a Ha. cbn in Ha. congruence.
      * apply Forall_app. split; [done|].
        eapply Forall_impl; [exact Hnc|]. intros c Hc. cbn in Hc. congruence.
    + apply list_elem_of_singleton in Ht. subst t. cbn [fst snd] in *.
      destruct (Hov Hd Hm) as (He & -> & -> & _).
      destruct (IH2 _ Hfresh) as [Hal Hcm].
      rewrite lookup_insert_eq. cbn. rewrite He. split; [done|].
      rewrite app_nil_r. split; [|done].
      rewrite filter_app, Hal. by rewrite filter_cons_True.
  - intros k Hk. unfold ids in Hk. rewrite fmap_app in Hk.
    apply not_elem_of_app in Hk as [Hk1 Hk2].
    assert (k ≠ Vehicle.id v) as Hne.
    { intros ->. apply Hk2. cbn. apply list_elem_of_here. }
    destruct (IH2 k Hk1) as [Hal Hcm]. split.
    + rewrite filter_names_other; [done|].
      eapply Forall_impl; [exact Hna|]. intros a Ha. cbn in Ha. congruence.
    + apply Forall_app. split; [done|].
      eapply Forall_impl; [exact Hnc|]. intros c Hc. cbn in Hc. congruence.
Qed.
End Overdue.

Section OverdueClaim.
Local Open Scope Q_scope.

Lemma visited_ids_NoDup now vehicles chargers routes prices site :
  NoDup (Vehicle.id <$> vehicles) →
  NoDup ((λ t : Triple, Vehicle.id t.1.1)
           <$> visited now prices site
                 (eligible_sorted now vehicles chargers routes)
                 (initial_state vehicles chargers routes site)).
Proof.
  intros Hnd.
  destruct (visited_prefix now prices site
              (eligible_sorted now vehicles chargers routes)
              (initial_state vehicles chargers routes site)) as [rest Hrest].
  assert (NoDup ((λ t : Triple, Vehicle.id t.1.1)
                   <$> eligible_sorted now vehicles chargers routes)) as H.
  { rewrite order_perm.
    rewrite (list_fmap_compose (λ t : Triple, t.1.1) Vehicle.id).
    eapply sublist_NoDup; [exact Hnd | apply fmap_sublist, eligible_vehicles]. }
  rewrite Hrest, fmap_app in H. by apply NoDup_app in H as [H _].
Qed.

(** C7.  On a triple with a positive deficit whose route start is now or
    past, the loop body stores an explanation with status [erro], appends
    one alert naming the vehicle, appends no command, leaves the
    remaining budget as it was and goes on to the next triple.  When the
    vehicle identities of the snapshot are pairwise distinct, the
    returned plan still shows this for every such visited vehicle: status
    [erro], exactly one alert naming it, and no command for it. *)
Theorem overdue_route_is_error :
  (∀ now prices site st v ch rt,
     0 < deficit_of v rt →
     minutes_until (RoutePlan.start_time rt) now <= 0 →
     let r := plan_step now prices site st (v, ch, rt) in
     status <$> explanations r.1 !! Vehicle.id v = Some erro
     ∧ alerts r.1 = alerts st ++ [AlertRouteOverdue (Vehicle.id v)]
     ∧ commands r.1 = commands st
     ∧ remaining_kw r.1 = remaining_kw st
     ∧ r.2 = Next)
  ∧ (∀ now vehicles chargers routes prices site v ch rt,
       NoDup (Vehicle.id <$> vehicles) →
       (v, ch, rt) ∈ visited now prices site
                       (eligible_sorted now vehicles chargers routes)
                       (initial_state vehicles chargers routes site) →
       0 < deficit_of v rt →
       minutes_until (RoutePlan.start_time rt) now <= 0 →
       let plan := make_plan now vehicles chargers routes prices site in
       status <$> PlanResult.explanations plan !! Vehicle.id v = Some erro
       ∧ filter (λ a, alert_vehicle a = Vehicle.id v) (PlanResult.alerts plan)
         = [AlertRouteOverdue (Vehicle.id v)]
       ∧ Forall (λ c, ChargingCommand.vehicle_id c ≠ Vehicle.id v)
                (PlanResult.commands plan)).
Proof.
  split.
  - intros now prices site st v ch rt Hd Hm r. subst r.
    destruct (plan_step_case now prices site st v ch rt) as
      [e Hd' He | e Hd' Hm' He | e Hd' Hm' Hf He | e crit Hd' Hm' Hf He Hc];
      cbn [fst snd commands remaining_kw explanations alerts]; try lra.
    rewrite lookup_insert_eq. cbn. by rewrite He.
  - intros now vehicles chargers routes prices site v ch rt Hnd Hin Hd Hm plan.
    subst plan.
    cbn [make_plan PlanResult.explanations PlanResult.alerts
         PlanResult.commands].
    apply (overdue_inv now prices site
             (eligible_sorted now vehicles chargers routes)
             (initial_state vehicles chargers routes site)
             (visited_ids_NoDup now vehicles chargers routes prices site Hnd)
             eq_refl eq_refl (v, ch, rt) Hin Hd Hm).
Qed.

Lemma overdue_route_is_error_witness :
  status <$> PlanResult.explanations overdue_plan !! "v1" = Some erro
  ∧ filter (λ a, alert_vehicle a = "v1") (PlanResult.alerts overdue_plan)
    = [AlertRouteOverdue "v1"]
  ∧ Forall (λ c, ChargingCommand.vehicle_id c ≠ "v1")
           (PlanResult.commands overdue_plan).
Proof.
  apply (proj2 overdue_route_is_error 0%Z [sample_vehicle] [sample_charger]
           [overdue_route] [] sample_site
           sample_vehicle sample_charger overdue_route).
  - apply NoDup_singleton.
  - vm_compute. constructor.
  - vm_compute. reflexivity.
  - vm_compute. discriminate.
Defined.
End OverdueClaim.

(** ** Duplicate keys in the input (C9) *)



(** ** Exceptions (C8) *)

Section Totality.
Local Open Scope Q_scope.

Lemma py_truediv_ok x y : ¬ y == 0 → Checked.py_truediv x y = inr (x / y).
Proof.
  intros Hy. unfold Checked.py_truediv.
  destruct (Qeq_bool y 0) eqn:E; [|done].
  by apply Qeq_bool_iff in E.
Qed.

Lemma dt_sub_naive a b :
  aware a = false → aware b = false →
  Checked.dt_sub a b = inr (wall a - wall b)%Z.
Proof.
  unfold aware, Checked.dt_sub. by destruct (utcoffset a), (utcoffset b).
Qed.

Lemma dt_le_naive a b :
  aware a = false → aware b = false →
  Checked.dt_le a b = inr (wall a <=? wall b)%Z.
Proof.
  unfold aware, Checked.dt_le. by destruct (utcoffset a), (utcoffset b).
Qed.

Lemma map_py_ok {A B} (f : A → Checked.Py B) (g : A → B) l :
  Forall (λ x, f x = inr (g x)) l → Checked.map_py f l = inr (g <$> l).
Proof.
  induction 1 as [|x l Hx _ IH]; [done|].
  cbn. rewrite Hx. cbn. by rewrite IH.
Qed.

Lemma filter_py_ok {A} (f : A → Checked.Py bool) (g : A → bool) l :
  Forall (λ x, f x = inr (g x)) l →
  Checked.filter_py f l = inr (List.filter g l).
Proof.
  induction 1 as [|x l Hx _ IH]; [done|].
  cbn. rewrite Hx. cbn. rewrite IH. cbn. by destruct (g x).
Qed.

Lemma minutes_until_ok start now :
  aware start = false → aware now = false →
  Checked.minutes_until start now = inr (minutes_until (wall start) (wall now)).
Proof.
  intros Hs Hn. unfold Checked.minutes_until.
  rewrite dt_sub_naive by done. cbn [Checked.bind]. by rewrite py_truediv_ok.
Qed.

Lemma min_by_keyed {A} (key : A → Q) x l :
  min_by fst (key x, x) ((λ a, (key a, a)) <$> l)
  = (key (min_by key x l), min_by key x l).
Proof.
  revert x. induction l as [|y l IH]; intros x; [done|].
  cbn. destruct (Qltb (key y) (key x)); apply IH.
Qed.

Lemma min_by_fmap {A B} (f : A → B) (key : B → Q) x l :
  min_by key (f x) (f <$> l) = f (min_by (λ a, key (f a)) x l).
Proof.
  revert x. induction l as [|y l IH]; intros x; [done|].
  cbn. destruct (Qltb (key (f y)) (key (f x))); apply IH.
Qed.

Lemma price_at_ok prices ts :
  Forall naive_price prices → aware ts = false →
  Checked.price_at prices ts
  = inr (price_at (wall_price <$> prices) (wall ts)).
Proof.
  intros Hp Hts. destruct prices as [|p ps]; [done|].
  unfold Checked.price_at.
  rewrite (map_py_ok _
    (λ q, (Qabs (total_seconds
                   (wall (Checked.EnergyPricePoint.ts q) - wall ts)%Z), q))).
  2:{ eapply Forall_impl; [exact Hp|]. intros q Hq. cbn beta.
      by rewrite dt_sub_naive. }
  cbn [Checked.bind fmap list_fmap Checked.py_min_key Checked.ret].
  rewrite (min_by_keyed
    (λ q, Qabs (total_seconds
                  (wall (Checked.EnergyPricePoint.ts q) - wall ts)%Z))).
  cbn [snd price_at].
  rewrite (min_by_fmap wall_price). done.
Qed.

Lemma in_window_ok start end_ p :
  aware start = false → aware end_ = false → naive_price p →
  Checked.in_window start end_ p
  = inr (in_window (wall start) (wall end_) (wall_price p)).
Proof.
  intros Hs He Hp. unfold Checked.in_window, in_window.
  rewrite dt_le_naive by done. cbn.
  destruct (wall start <=? _)%Z; cbn; [by rewrite dt_le_naive | done].
Qed.

Lemma window_wall (g : EnergyPricePoint.t → bool)
    (l : list Checked.EnergyPricePoint.t) :
  map EnergyPricePoint.eur_per_kwh (List.filter g (wall_price <$> l))
  = map Checked.EnergyPricePoint.eur_per_kwh
        (List.filter (λ p, g (wall_price p)) l).
Proof.
  induction l as [|p l IH]; [done|].
  cbn. destruct (g (wall_price p)); cbn; by rewrite IH.
Qed.

Lemma min_price_until_ok prices start end_ :
  Forall naive_price prices → aware start = false → aware end_ = false →
  Checked.min_price_until prices start end_
  = inr (min_price_until (wall_price <$> prices) (wall start) (wall end_)).
Proof.
  intros Hp Hs He. destruct prices as [|p ps]; [done|].
  unfold Checked.min_price_until, min_price_until.
  rewrite (filter_py_ok _
    (λ q, in_window (wall start) (wall end_) (wall_price q))).
  2:{ eapply Forall_impl; [exact Hp|]. intros q Hq. by apply in_window_ok. }
  cbn [Checked.bind]. rewrite window_wall.
  cbn [fmap list_fmap]. by destruct (map _ _).
Qed.

Lemma compute_urgency_ok v rt now :
  aware (Checked.RoutePlan.start_time rt) = false → aware now = false →
  Checked.compute_urgency v rt now
  = inr (compute_urgency v (wall_route rt) (wall now)).
Proof.
  intros Hs Hn. unfold Checked.compute_urgency.
  by rewrite minutes_until_ok.
Qed.

Lemma insert_desc_keyed {A} (key : A → Q) x l :
  insert_desc fst (key x, x) ((λ a, (key a, a)) <$> l)
  = (λ a, (key a, a)) <$> insert_desc key x l.
Proof.
  induction l as [|y l IH]; [done|].
  cbn. destruct (Qltb (key x) (key y)); [|done].
  cbn. by f_equal.
Qed.

Lemma sort_desc_keyed {A} (key : A → Q) (l : list A) :
  snd <$> sort_desc fst ((λ a, (key a, a)) <$> l) = sort_desc key l.
Proof.
  assert (sort_desc fst ((λ a, (key a, a)) <$> l)
          = (λ a, (key a, a)) <$> sort_desc key l) as ->.
  { induction l as [|x l IH]; [done|].
    cbn. cbn in IH. rewrite IH. apply insert_desc_keyed. }
  rewrite <- list_fmap_compose. apply list_fmap_id.
Qed.

Lemma insert_desc_fmap {A B} (f : A → B) (key : B → Q) x l :
  f <$> insert_desc (λ a, key (f a)) x l = insert_desc key (f x) (f <$> l).
Proof.
  induction l as [|y l IH]; [done|].
  cbn. destruct (Qltb (key (f x)) (key (f y))); [|done].
  cbn. by f_equal.
Qed.

Lemma sort_desc_fmap {A B} (f : A → B) (key : B → Q) l :
  f <$> sort_desc (λ a, key (f a)) l = sort_desc key (f <$> l).
Proof.
  induction l as [|x l IH]; [done|].
  cbn. rewrite insert_desc_fmap. by f_equal.
Qed.

Lemma sort_by_urgency_ok now l :
  aware now = false → Forall (λ t : Checked.Triple, naive_route t.2) l →
  Checked.sort_by_urgency now l
  = inr (sort_desc (λ t, urgency_key (wall now) (wall_triple t)) l).
Proof.
  intros Hn Hl. unfold Checked.sort_by_urgency.
  rewrite (map_py_ok _
    (λ t : Checked.Triple, (urgency_key (wall now) (wall_triple t), t))).
  2:{ eapply Forall_impl; [exact Hl|]. intros t [Ht _]. cbn beta.
      by rewrite compute_urgency_ok. }
  cbn [Checked.bind]. unfold Checked.ret. f_equal.
  apply (sort_desc_keyed (λ t, urgency_key (wall now) (wall_triple t))).
Qed.

Lemma plan_step_ok now prices site st t :
  aware now = false → Forall naive_price prices → naive_route t.2 →
  Checked.plan_step now prices site st t
  = inr (plan_step (wall now) (wall_price <$> prices) site st (wall_triple t)).
Proof.
  destruct t as [[v ch] rt]. intros Hn Hp [Hs He].
  unfold Checked.plan_step, plan_step, wall_triple. cbn [fst snd] in *.
  rewrite minutes_until_ok, price_at_ok, min_price_until_ok by done.
  cbn [Checked.bind].
  change (deficit_of v (wall_route rt))
    with (py_max 0.0 (Checked.RoutePlan.required_soc_min rt - Vehicle.soc v)).
  cbn [wall_route RoutePlan.start_time RoutePlan.end_time
       RoutePlan.required_soc_min].
  set (d := py_max 0.0 (Checked.RoutePlan.required_soc_min rt - Vehicle.soc v)).
  set (m := minutes_until (wall (Checked.RoutePlan.start_time rt)) (wall now)).
  destruct (Qleb d 0); [done|].
  destruct (Qleb m 0); [done|].
  rewrite py_truediv_ok by done. cbn [Checked.bind].
  rewrite py_truediv_ok. 2:{
    pose proof (py_max_spec (m / 60.0) 1e-6) as [_ H].
    pose proof eps_pos. lra. }
  cbn [Checked.bind].
  by destruct (Qleb _ 0.01).
Qed.

Lemma plan_loop_ok now prices site l st :
  aware now = false → Forall naive_price prices →
  Forall (λ t : Checked.Triple, naive_route t.2) l →
  Checked.plan_loop now prices site l st
  = inr (plan_loop (wall now) (wall_price <$> prices) site
                   (wall_triple <$> l) st).
Proof.
  intros Hn Hp Hl. revert st.
  induction Hl as [|t l Ht _ IH]; intros st; [done|].
  cbn [Checked.plan_loop plan_loop fmap list_fmap].
  rewrite plan_step_ok by done. cbn [Checked.bind].
  destruct (plan_step (wall now) (wall_price <$> prices) site st
              (wall_triple t)) as [st' []]; [apply IH | done].
Qed.

(** The filtering loop does not look at timestamps. *)
Lemma route_by_vehicle_wall routes :
  route_by_vehicle_of (wall_route <$> routes)
  = wall_route <$> Checked.route_by_vehicle_of routes.
Proof.
  unfold route_by_vehicle_of, Checked.route_by_vehicle_of.
  rewrite <- (fmap_empty wall_route). generalize (∅ : gmap string Checked.RoutePlan.t).
  induction routes as [|r routes IH]; intros m; [done|].
  cbn. rewrite <- IH. f_equal. by rewrite fmap_insert.
Qed.

Lemma route_by_vehicle_naive routes :
  Forall naive_route routes →
  map_Forall (λ _, naive_route) (Checked.route_by_vehicle_of routes).
Proof.
  unfold Checked.route_by_vehicle_of.
  assert (map_Forall (λ _ : string, naive_route)
            (∅ : gmap string Checked.RoutePlan.t)) as H0
    by apply map_Forall_empty.
  revert H0. generalize (∅ : gmap string Checked.RoutePlan.t).
  intros m Hm Hr. revert m Hm.
  induction Hr as [|r routes Hr _ IH]; intros m Hm; [done|].
  cbn. apply IH. by apply map_Forall_insert_2.
Qed.

Lemma filter_vehicle_wall cb rb v :
  filter_vehicle cb (wall_route <$> rb) v
  = match Checked.filter_vehicle cb rb v with
    | inl e => inl e
    | inr t => inr (wall_triple t)
    end.
Proof.
  unfold filter_vehicle, Checked.filter_vehicle.
  destruct (negb _); [done|].
  destruct (Vehicle.charger_id v) as [cid|]; [|done].
  destruct (String.eqb cid ""); [done|].
  destruct (cb !! cid) as [ch|]; [|done].
  destruct (negb _); [done|].
  rewrite lookup_fmap. by destruct (rb !! Vehicle.id v).
Qed.

Lemma filter_vehicle_naive cb rb v t :
  map_Forall (λ _, naive_route) rb →
  Checked.filter_vehicle cb rb v = inr t → naive_route t.2.
Proof.
  intros Hrb. unfold Checked.filter_vehicle.
  destruct (negb _); [done|].
  destruct (Vehicle.charger_id v) as [cid|]; [|done].
  destruct (String.eqb cid ""); [done|].
  destruct (cb !! cid) as [ch|]; [|done].
  destruct (negb _); [done|].
  destruct (rb !! Vehicle.id v) as [rt|] eqn:E; [|done].
  intros [= <-]. by apply (Hrb _ _ E).
Qed.

Lemma filter_loop_wall cb rb vs expl el :
  filter_loop cb (wall_route <$> rb) vs expl (wall_triple <$> el)
  = ((Checked.filter_loop cb rb vs expl el).1,
     wall_triple <$> (Checked.filter_loop cb rb vs expl el).2).
Proof.
  revert expl el. induction vs as [|v vs IH]; intros expl el; [done|].
  cbn [filter_loop Checked.filter_loop]. rewrite filter_vehicle_wall.
  destruct (Checked.filter_vehicle cb rb v) as [e | t]; [apply IH|].
  rewrite <- IH. by rewrite fmap_app.
Qed.

Lemma filter_loop_naive cb rb vs expl el :
  map_Forall (λ _, naive_route) rb →
  Forall (λ t : Checked.Triple, naive_route t.2) el →
  Forall (λ t : Checked.Triple, naive_route t.2)
         (Checked.filter_loop cb rb vs expl el).2.
Proof.
  intros Hrb. revert expl el.
  induction vs as [|v vs IH]; intros expl el Hel; [done|].
  cbn [Checked.filter_loop].
  destruct (Checked.filter_vehicle cb rb v) as [e | t] eqn:E; [by apply IH|].
  apply IH. apply Forall_app. split; [done|].
  apply Forall_singleton. by apply (filter_vehicle_naive cb rb v).
Qed.

(** The engine on a snapshot without aware timestamps. *)
Lemma make_plan_ok now vehicles chargers routes prices site :
  aware now = false → Forall naive_route routes → Forall naive_price prices →
  Checked.make_plan now vehicles chargers routes prices site
  = inr (make_plan (wall now) vehicles chargers (wall_route <$> routes)
                   (wall_price <$> prices) site).
Proof.
  intros Hn Hr Hp.
  unfold Checked.make_plan, make_plan, eligible_sorted, initial_state.
  rewrite route_by_vehicle_wall.
  pose proof (filter_loop_wall (charger_by_id_of chargers)
                (Checked.route_by_vehicle_of routes) vehicles ∅ []) as Hw.
  cbn [fmap list_fmap] in Hw. rewrite Hw. clear Hw.
  pose proof (filter_loop_naive (charger_by_id_of chargers)
                (Checked.route_by_vehicle_of routes) vehicles ∅ []
                (route_by_vehicle_naive routes Hr) (Forall_nil_2 _)) as Hel.
  destruct (Checked.filter_loop _ _ vehicles ∅ []) as [expl0 el].
  cbn [fst snd] in *.
  rewrite sort_by_urgency_ok by done. cbn [Checked.bind].
  rewrite plan_loop_ok; [|done|done|].
  2:{ by rewrite sort_desc_perm. }
  cbn [Checked.bind]. unfold Checked.ret.
  by rewrite (sort_desc_fmap wall_triple (urgency_key (wall now))).
Qed.

(** Whatever the timestamps, no [min] is taken of an empty sequence and
    no division is by zero. *)
Lemma ote_ret {A} (x : A) : only_type_error (Checked.ret x).
Proof. intros e. discriminate. Qed.

Lemma ote_bind {A B} (m : Checked.Py A) (k : A → Checked.Py B) :
  only_type_error m → (∀ x, m = inr x → only_type_error (k x)) →
  only_type_error (Checked.bind m k).
Proof.
  intros Hm Hk. destruct m as [e | x]; cbn.
  - intros e' [= <-]. by apply Hm.
  - by apply Hk.
Qed.

Lemma ote_dt_sub a b : only_type_error (Checked.dt_sub a b).
Proof.
  unfold Checked.dt_sub, Checked.ret, Checked.raise. intros e.
  destruct (utcoffset a), (utcoffset b); congruence.
Qed.

Lemma ote_dt_le a b : only_type_error (Checked.dt_le a b).
Proof.
  unfold Checked.dt_le, Checked.ret, Checked.raise. intros e.
  destruct (utcoffset a), (utcoffset b); congruence.
Qed.

Lemma ote_truediv x y : ¬ y == 0 → only_type_error (Checked.py_truediv x y).
Proof. intros Hy. rewrite py_truediv_ok by done. apply ote_ret. Qed.

Lemma ote_map_py {A B} (f : A → Checked.Py B) l :
  (∀ x, only_type_error (f x)) → only_type_error (Checked.map_py f l).
Proof.
  intros Hf. induction l as [|x l IH]; [apply ote_ret|].
  cbn. apply ote_bind; [apply Hf|]. intros y _.
  apply ote_bind; [apply IH|]. intros ys _. apply ote_ret.
Qed.

Lemma ote_filter_py {A} (f : A → Checked.Py bool) l :
  (∀ x, only_type_error (f x)) → only_type_error (Checked.filter_py f l).
Proof.
  intros Hf. induction l as [|x l IH]; [apply ote_ret|].
  cbn. apply ote_bind; [apply Hf|]. intros y _.
  apply ote_bind; [apply IH|]. intros ys _. apply ote_ret.
Qed.

Lemma map_py_length {A B} (f : A → Checked.Py B) l ys :
  Checked.map_py f l = inr ys → length ys = length l.
Proof.
  revert ys. induction l as [|x l IH]; intros ys.
  - by intros [= <-].
  - cbn. destruct (f x) as [|y]; [done|]. cbn.
    destruct (Checked.map_py f l) as [|ys']; [done|]. cbn.
    intros [= <-]. cbn. f_equal. by apply IH.
Qed.

Lemma ote_price_at prices ts : only_type_error (Checked.price_at prices ts).
Proof.
  destruct prices as [|p ps]; [apply ote_ret|].
  unfold Checked.price_at. apply ote_bind.
  - apply ote_map_py. intros q. apply ote_bind; [apply ote_dt_sub|].
    intros d _. apply ote_ret.
  - intros keyed Hk. apply map_py_length in Hk.
    destruct keyed as [|k keyed]; [done|]. cbn. apply ote_ret.
Qed.

Lemma ote_min_price_until prices start end_ :
  only_type_error (Checked.min_price_until prices start end_).
Proof.
  destruct prices as [|p ps]; [apply ote_ret|].
  unfold Checked.min_price_until. apply ote_bind.
  - apply ote_filter_py. intros q. unfold Checked.in_window.
    apply ote_bind; [apply ote_dt_le|].
    intros [] _; [apply ote_dt_le | apply ote_ret].
  - intros inside _.
    destruct (map _ inside); [apply ote_ret|]. cbn. apply ote_ret.
Qed.

Lemma ote_minutes_until start now :
  only_type_error (Checked.minutes_until start now).
Proof.
  unfold Checked.minutes_until. apply ote_bind; [apply ote_dt_sub|].
  intros d _. by apply ote_truediv.
Qed.

Lemma ote_plan_step now prices site st t :
  only_type_error (Checked.plan_step now prices site st t).
Proof.
  destruct t as [[v ch] rt]. unfold Checked.plan_step.
  apply ote_bind; [apply ote_minutes_until|]. intros m _.
  apply ote_bind; [apply ote_price_at|]. intros price_now _.
  apply ote_bind; [apply ote_min_price_until|]. intros best_price _.
  destruct (Qleb _ 0); [apply ote_ret|].
  destruct (Qleb m 0); [apply ote_ret|].
  apply ote_bind; [by apply ote_truediv|]. intros hours _.
  apply ote_bind.
  { apply ote_truediv.
    pose proof (py_max_spec hours 1e-6) as [_ H]. pose proof eps_pos. lra. }
  intros avg _. destruct (Qleb _ 0.01); apply ote_ret.
Qed.

Lemma ote_plan_loop now prices site l st :
  only_type_error (Checked.plan_loop now prices site l st).
Proof.
  revert st. induction l as [|t l IH]; intros st; [apply ote_ret|].
  cbn. apply ote_bind; [apply ote_plan_step|].
  intros [st' []] _; [apply IH | apply ote_ret].
Qed.

Lemma ote_make_plan now vehicles chargers routes prices site :
  only_type_error (Checked.make_plan now vehicles chargers routes prices site).
Proof.
  unfold Checked.make_plan.
  destruct (Checked.filter_loop _ _ vehicles ∅ []) as [expl0 el].
  apply ote_bind.
  { unfold Checked.sort_by_urgency. apply ote_bind; [|intros; apply ote_ret].
    apply ote_map_py. intros t. apply ote_bind; [|intros; apply ote_ret].
    unfold Checked.compute_urgency.
    apply ote_bind; [apply ote_minutes_until | intros; apply ote_ret]. }
  intros sorted _. apply ote_bind; [apply ote_plan_loop|].
  intros st _. apply ote_ret.
Qed.

(** C8, as the code has it.  On a snapshot whose timestamps are all
    naive, [make_plan] returns the plan computed above, without raising.
    On any snapshot the only exception it can raise is the [TypeError]
    of an operation between a naive and an aware timestamp: no [min] is
    taken of an empty sequence and no division is by zero.  On an empty
    price sequence [price_at] and [min_price_until] return [None];
    whenever a price is [None], and so for every vehicle under an empty
    price sequence, the deferral decision is false. *)
Theorem make_plan_never_raises :
  (∀ now vehicles chargers routes prices site,
     aware now = false →
     Forall naive_route routes →
     Forall naive_price prices →
     Checked.make_plan now vehicles chargers routes prices site
     = inr (make_plan (wall now) vehicles chargers (wall_route <$> routes)
                      (wall_price <$> prices) site))
  ∧ (∀ now vehicles chargers routes prices site e,
       Checked.make_plan now vehicles chargers routes prices site = inl e →
       e = Checked.TypeError)
  ∧ (∀ ts, Checked.price_at [] ts = inr None ∧ price_at [] (wall ts) = None)
  ∧ (∀ start end_,
       Checked.min_price_until [] start end_ = inr None
       ∧ min_price_until [] (wall start) (wall end_) = None)
  ∧ (∀ price minutes_to_start deficit,
       should_delay_charging None price minutes_to_start deficit = false
       ∧ should_delay_charging price None minutes_to_start deficit = false)
  ∧ (∀ now start minutes_to_start deficit,
       should_delay_charging (price_at [] now) (min_price_until [] now start)
                             minutes_to_start deficit = false).
Proof.
  split; [|split; [|split; [|split; [|split]]]]; try done.
  - apply make_plan_ok.
  - intros now vehicles chargers routes prices site e.
    apply ote_make_plan.
  - intros price m d. unfold should_delay_charging, should_delay_charging_with.
    destruct (Qleb d 0), (Qleb m 60.0), price; done.
  - intros now start m d. cbn.
    unfold should_delay_charging, should_delay_charging_with.
    by destruct (Qleb d 0), (Qleb m 60.0).
Qed.

Lemma make_plan_never_raises_witness :
  Checked.make_plan (mkStamp 0 None) [sample_vehicle] [sample_charger]
                    [naive_sample_route] [] sample_site
  = inr (make_plan (wall (mkStamp 0 None)) [sample_vehicle] [sample_charger]
                   (wall_route <$> [naive_sample_route])
                   (wall_price <$> []) sample_site).
Proof.
  apply (proj1 make_plan_never_raises (mkStamp 0 None) [sample_vehicle]
           [sample_charger] [naive_sample_route] [] sample_site).
  - reflexivity.
  - apply Forall_singleton. split; reflexivity.
  - apply Forall_nil_2.
Defined.

(** C8 as stated fails when a route carries aware timestamps and [now]
    is naive, which is what the [/plan] endpoint passes for a request
    whose times have an offset: the urgency of the vehicle subtracts
    [now] from the route start and raises [TypeError]. *)
Lemma make_plan_never_raises_counterexample :
  ¬ (∃ plan,
       Checked.make_plan (mkStamp 0 None) [sample_vehicle] [sample_charger]
                         [aware_sample_route] [] sample_site
       = inr plan).
Proof.
  assert (Checked.make_plan (mkStamp 0 None) [sample_vehicle] [sample_charger]
                            [aware_sample_route] [] sample_site
          = inl Checked.TypeError) as E by (vm_compute; reflexivity).
  intros [plan H]. congruence.
Qed.
End Totality.

(** ** The scenarios of the specification, evaluated *)

Section Scenarios.
Local Open Scope Q_scope.

Example scenario_single_vehicle :
  (λ c, (ChargingCommand.vehicle_id c, Qred (ChargingCommand.set_kw c)))
    <$> PlanResult.commands scenario_plan = [("v1", 25)]
  ∧ Qred (PlanResult.total_kw scenario_plan) = 25
  ∧ PlanResult.alerts scenario_plan = []
  ∧ status <$> PlanResult.explanations scenario_plan !! "v1" = Some planeado.
Proof. vm_compute. auto. Qed.

Example scenario_high_soc :
  Qred (battery_friendly_kw (Vehicle.mk "v1" 100 0.95 1 20 "DISPONIVEL" None)
                            sample_charger 20) = 3.
Proof. reflexivity. Qed.

Example scenario_overdue :
  PlanResult.commands overdue_plan = []
  ∧ PlanResult.alerts overdue_plan = [AlertRouteOverdue "v1"]
  ∧ status <$> PlanResult.explanations overdue_plan !! "v1" = Some erro
  ∧ Qred (PlanResult.total_kw overdue_plan) = 0.
Proof. vm_compute. auto. Qed.

Example scenario_contended :
  (λ c, (ChargingCommand.vehicle_id c, Qred (ChargingCommand.set_kw c)))
    <$> PlanResult.commands contended_plan = [("a", 60); ("b", 40)]
  ∧ Qred (PlanResult.total_kw contended_plan) = 100.
Proof. vm_compute. auto. Qed.

Example scenario_critical_alert :
  (λ c, Qred (ChargingCommand.set_kw c)) <$> PlanResult.commands critical_plan
  = [Qred 12.375]
  ∧ (λ a, match a with
          | AlertCritical vid kw => (vid, Qred kw)
          | AlertRouteOverdue vid => (vid, 0)
          end) <$> PlanResult.alerts critical_plan
    = [("v1", Qred 12.4)].
Proof. vm_compute. auto. Qed.

(** An aware route of a vehicle that the filter ignores is never
    subtracted from [now]; an aware price point is, at the first visit. *)
Example scenario_aware_route_ignored :
  ∃ plan,
    Checked.make_plan (mkStamp 0 None)
      [Vehicle.mk "v1" 200 0.25 1 20 "MANUTENCAO" (Some "c1")]
      [sample_charger] [aware_sample_route] [] sample_site
    = inr plan.
Proof. eexists. vm_compute. reflexivity. Qed.

Example scenario_aware_price :
  Checked.make_plan (mkStamp 0 None) [sample_vehicle] [sample_charger]
    [naive_sample_route]
    [Checked.EnergyPricePoint.mk (mkStamp 0 (Some 0%Z)) 0.2] sample_site
  = inl Checked.TypeError.
Proof. vm_compute. reflexivity. Qed.

Example scenario_budget_exhausted :
  (λ c, (ChargingCommand.vehicle_id c, ChargingCommand.set_kw c))
    <$> PlanResult.commands tight_plan = [("v1", 50)]
  ∧ status <$> PlanResult.explanations tight_plan !! "v1" = Some planeado
  ∧ PlanResult.explanations tight_plan !! "v2" = None.
Proof. vm_compute. auto. Qed.
End Scenarios.

(** * Further properties of [scheduler.py] *)

(** ** [clamp] and [battery_friendly_kw] *)

Section ClampBounds.
Local Open Scope Q_scope.

(** With [lo <= hi] the result of [clamp] lies in [[lo, hi]] and a value
    already in the interval is returned as it is; with [hi < lo] the
    result is [lo], whatever [x] is. *)
Theorem clamp_range x lo hi :
  (lo <= hi → lo <= clamp x lo hi ∧ clamp x lo hi <= hi)
  ∧ (lo <= x → x <= hi → clamp x lo hi == x)
  ∧ (hi < lo → clamp x lo hi = lo).
Proof.
  unfold clamp, py_max, py_min. split; [|split].
  - intros H. qcase. all: lra.
  - intros H1 H2.
    destruct (Qltb x hi) eqn:E1;
      [apply Qltb_lt in E1 | apply Qltb_ge in E1]; qcase; lra.
  - intros H. destruct (Qltb x hi) eqn:E1;
      [apply Qltb_lt in E1 | apply Qltb_ge in E1].
    + destruct (Qltb lo x) eqn:E2; [apply Qltb_lt in E2; lra | done].
    + destruct (Qltb lo hi) eqn:E2; [apply Qltb_lt in E2; lra | done].
Qed.

Lemma clamp_range_witness :
  (0 <= clamp 70 0 50 ∧ clamp 70 0 50 <= 50)
  ∧ clamp 30 0 50 == 30
  ∧ clamp 30 0 (-5) = 0.
Proof.
  split; [|split].
  - apply (proj1 (clamp_range 70 0 50)). discriminate.
  - apply (proj1 (proj2 (clamp_range 30 0 50))); discriminate.
  - apply (proj2 (proj2 (clamp_range 30 0 (-5)))). reflexivity.
Defined.

Lemma clamp_mono x y lo hi : x <= y → clamp x lo hi <= clamp y lo hi.
Proof.
  intros H. unfold clamp.
  assert (Hm : py_min hi x <= py_min hi y) by (unfold py_min; qcase; lra).
  revert Hm. generalize (py_min hi x) (py_min hi y). intros m m' Hm.
  unfold py_max. qcase; lra.
Qed.

Lemma curtailment_factor_range v :
  0 < curtailment_factor v ∧ curtailment_factor v <= 1.
Proof. unfold curtailment_factor. qcase; lra. Qed.

Lemma battery_friendly_kw_as_factor v ch r :
  battery_friendly_kw v ch r
  == clamp (r * curtailment_factor v) 0.0 (Charger.max_kw ch).
Proof.
  unfold battery_friendly_kw, curtailment_factor.
  apply clamp_Qeq; [qcase; ring | reflexivity | reflexivity].
Qed.

(** The curtailed power is never negative, never above a non-negative
    charger limit, never above a non-negative request, and grows with
    the request. *)
Theorem battery_friendly_kw_bounds v ch :
  (∀ r, 0 <= battery_friendly_kw v ch r)
  ∧ (∀ r, 0 <= Charger.max_kw ch →
          battery_friendly_kw v ch r <= Charger.max_kw ch)
  ∧ (∀ r, 0 <= r → battery_friendly_kw v ch r <= r)
  ∧ (∀ r r', r <= r' →
             battery_friendly_kw v ch r <= battery_friendly_kw v ch r').
Proof.
  pose proof (curtailment_factor_range v) as [Hf0 Hf1].
  split; [|split; [|split]].
  - intros r. unfold battery_friendly_kw.
    match goal with |- _ <= clamp ?k _ _ =>
      pose proof (clamp_lower k 0.0 (Charger.max_kw ch)) end. lra.
  - intros r Hmax. unfold battery_friendly_kw.
    match goal with |- clamp ?k _ _ <= _ =>
      pose proof (proj1 (clamp_range k 0.0 (Charger.max_kw ch))) as H end.
    apply H. lra.
  - intros r Hr.
    destruct (Qlt_le_dec 0 (battery_friendly_kw v ch r)) as [Hpos | Hle].
    + by apply battery_friendly_kw_above.
    + lra.
  - intros r r' Hrr. rewrite !battery_friendly_kw_as_factor.
    apply clamp_mono. nra.
Qed.

Lemma battery_friendly_kw_bounds_witness :
  battery_friendly_kw sample_vehicle sample_charger 70 <= 50
  ∧ battery_friendly_kw sample_vehicle sample_charger 30 <= 30
  ∧ battery_friendly_kw sample_vehicle sample_charger 30
    <= battery_friendly_kw sample_vehicle sample_charger 40.
Proof.
  split; [|split].
  - apply (proj1 (proj2 (battery_friendly_kw_bounds sample_vehicle
                           sample_charger))). discriminate.
  - apply (proj1 (proj2 (proj2 (battery_friendly_kw_bounds sample_vehicle
                                  sample_charger)))). discriminate.
  - apply (proj2 (proj2 (proj2 (battery_friendly_kw_bounds sample_vehicle
                                  sample_charger)))). discriminate.
Defined.
End ClampBounds.

(** ** [compute_urgency] *)

Section UrgencyFacts.
Local Open Scope Q_scope.

(** The urgency is at least 1000 times the deficit and never negative;
    for a route 180 minutes or more away it is exactly 1000 times the
    deficit.  A route that has not started adds at most 180, so a deficit
    larger by more than 0.18 outranks it; an overdue route has no such
    bound.  With equal deficits the earlier start never ranks lower. *)
Theorem compute_urgency_ranking now :
  (∀ v rt, 0 <= compute_urgency v rt now
           ∧ deficit_of v rt * 1000 <= compute_urgency v rt now)
  ∧ (∀ v rt, 180 <= minutes_until (RoutePlan.start_time rt) now →
             compute_urgency v rt now == deficit_of v rt * 1000)
  ∧ (∀ v rt v' rt',
       0 <= minutes_until (RoutePlan.start_time rt') now →
       deficit_of v' rt' + 0.18 < deficit_of v rt →
       compute_urgency v' rt' now < compute_urgency v rt now)
  ∧ (∀ v rt v' rt',
       deficit_of v rt == deficit_of v' rt' →
       (RoutePlan.start_time rt <= RoutePlan.start_time rt')%Z →
       compute_urgency v' rt' now <= compute_urgency v rt now).
Proof.
  assert (Hsplit : ∀ v rt,
    compute_urgency v rt now
    == deficit_of v rt * 1000
       + py_max 0.0 (180.0 - minutes_until (RoutePlan.start_time rt) now)).
  { intros v rt. unfold compute_urgency, deficit_of. ring. }
  assert (Hd : ∀ v rt, 0 <= deficit_of v rt).
  { intros v rt. unfold deficit_of.
    pose proof (py_max_spec 0.0
      (RoutePlan.required_soc_min rt - Vehicle.soc v)). lra. }
  assert (Himm : ∀ m, 0 <= py_max 0.0 (180.0 - m)
                      ∧ (180 <= m → py_max 0.0 (180.0 - m) == 0)
                      ∧ (0 <= m → py_max 0.0 (180.0 - m) <= 180)).
  { intros m. unfold py_max. qcase; repeat split; intros; lra. }
  split; [|split; [|split]].
  - intros v rt. rewrite Hsplit.
    destruct (Himm (minutes_until (RoutePlan.start_time rt) now)) as (H0 & _).
    specialize (Hd v rt). split; nra.
  - intros v rt H. rewrite Hsplit.
    destruct (Himm (minutes_until (RoutePlan.start_time rt) now))
      as (_ & Hz & _).
    rewrite (Hz H). ring.
  - intros v rt v' rt' Hm Hdd. rewrite !Hsplit.
    destruct (Himm (minutes_until (RoutePlan.start_time rt) now)) as (H0 & _).
    destruct (Himm (minutes_until (RoutePlan.start_time rt') now))
      as (_ & _ & H180).
    specialize (H180 Hm). lra.
  - intros v rt v' rt' Hdd Hst. rewrite !Hsplit, Hdd.
    assert (minutes_until (RoutePlan.start_time rt) now
            <= minutes_until (RoutePlan.start_time rt') now) as Hmm.
    { unfold minutes_until, total_seconds.
      assert (inject_Z (RoutePlan.start_time rt - now)
              <= inject_Z (RoutePlan.start_time rt' - now)) as Hi
        by (rewrite <- Zle_Qle; lia).
      unfold Qdiv.
      apply Qmult_le_compat_r; [apply Qmult_le_compat_r|]; [done|..];
        discriminate. }
    apply Qplus_le_r. unfold py_max. qcase; lra.
Qed.

Lemma compute_urgency_ranking_witness :
  compute_urgency second_vehicle second_route 0
  < compute_urgency sample_vehicle sample_route 0.
Proof.
  apply (proj1 (proj2 (proj2 (compute_urgency_ranking 0%Z)))
           sample_vehicle sample_route second_vehicle second_route);
    vm_compute; congruence.
Defined.
End UrgencyFacts.

(** ** [price_at] and [min_price_until] *)

Section PriceLookup.
Local Open Scope Q_scope.

(** [min(xs, key=f)] returns the first element whose key is minimal:
    every earlier element has a larger key, no later one a smaller key. *)
Lemma min_by_first {A} (key : A → Q) (best : A) (xs : list A) :
  ∃ l1 m l2,
    best :: xs = l1 ++ m :: l2
    ∧ min_by key best xs = m
    ∧ Forall (λ q, key m < key q) l1
    ∧ Forall (λ q, key m <= key q) l2.
Proof.
  revert best. induction xs as [|x xs IH]; intros best.
  - exists [], best, []. by repeat split.
  - cbn [min_by].
    destruct (Qltb (key x) (key best)) eqn:E;
      [apply Qltb_lt in E | apply Qltb_ge in E].
    + destruct (IH x) as (l1 & m & l2 & Hl & Hm & H1 & H2).
      exists (best :: l1), m, l2. rewrite Hm. repeat split; try done.
      * cbn. by rewrite Hl.
      * constructor; [|done].
        destruct l1 as [|y l1]; injection Hl as <- Hl.
        -- done.
        -- apply Forall_cons in H1 as [H1 _]. lra.
    + destruct (IH best) as (l1 & m & l2 & Hl & Hm & H1 & H2).
      rewrite Hm. destruct l1 as [|y l1]; injection Hl as <- Hl.
      * exists [], best, (x :: xs). repeat split; try done.
        constructor; [done|]. by rewrite Hl.
      * exists (best :: x :: l1), m, l2.
        apply Forall_cons in H1 as [Hy H1]. repeat split; try done.
        -- cbn. by rewrite Hl.
        -- constructor; [done|]. constructor; [lra | done].
Qed.

Lemma total_seconds_abs_lt a b :
  Qabs (total_seconds a) < Qabs (total_seconds b) ↔ (Z.abs a < Z.abs b)%Z.
Proof.
  unfold total_seconds, Qabs, Qdiv, Qmult, Qinv, Qlt, inject_Z. cbn.
  rewrite !Z.mul_1_r. lia.
Qed.

Lemma total_seconds_abs_le a b :
  Qabs (total_seconds a) <= Qabs (total_seconds b) ↔ (Z.abs a <= Z.abs b)%Z.
Proof.
  unfold total_seconds, Qabs, Qdiv, Qmult, Qinv, Qle, inject_Z. cbn.
  rewrite !Z.mul_1_r. lia.
Qed.

(** [price_at] answers [None] exactly on an empty sequence; otherwise it
    returns the price of the first point whose timestamp is nearest to
    [ts]: every earlier point is strictly farther, no later point is
    nearer. *)
Theorem price_at_nearest prices ts :
  (price_at prices ts = None ↔ prices = [])
  ∧ (∀ p, price_at prices ts = Some p →
       ∃ l1 pt l2,
         prices = l1 ++ pt :: l2
         ∧ EnergyPricePoint.eur_per_kwh pt = p
         ∧ Forall (λ q, (Z.abs (EnergyPricePoint.ts pt - ts)
                         < Z.abs (EnergyPricePoint.ts q - ts))%Z) l1
         ∧ Forall (λ q, (Z.abs (EnergyPricePoint.ts pt - ts)
                         <= Z.abs (EnergyPricePoint.ts q - ts))%Z) l2).
Proof.
  split.
  - destruct prices; [done|]. split; discriminate.
  - intros p. destruct prices as [|p0 ps]; [discriminate|].
    intros Hp.
    assert (EnergyPricePoint.eur_per_kwh
              (min_by (λ q, Qabs (total_seconds (EnergyPricePoint.ts q - ts)%Z))
                      p0 ps) = p) as Hp'
      by (unfold price_at in Hp; congruence).
    clear Hp.
    destruct (min_by_first
                (λ q, Qabs (total_seconds (EnergyPricePoint.ts q - ts)%Z))
                p0 ps) as (l1 & m & l2 & Hl & Hm & H1 & H2).
    rewrite Hm in Hp'.
    exists l1, m, l2. repeat split; try done.
    + eapply Forall_impl; [exact H1|]. intros q Hq. cbn in Hq.
      by apply total_seconds_abs_lt.
    + eapply Forall_impl; [exact H2|]. intros q Hq. cbn in Hq.
      by apply total_seconds_abs_le.
Qed.

Lemma price_at_nearest_witness :
  ∃ l1 pt l2,
    [EnergyPricePoint.mk 0 0.10; EnergyPricePoint.mk 3600000000 0.30]
    = l1 ++ pt :: l2
    ∧ EnergyPricePoint.eur_per_kwh pt = 0.30
    ∧ Forall (λ q, (Z.abs (EnergyPricePoint.ts pt - 3000000000)
                    < Z.abs (EnergyPricePoint.ts q - 3000000000))%Z) l1
    ∧ Forall (λ q, (Z.abs (EnergyPricePoint.ts pt - 3000000000)
                    <= Z.abs (EnergyPricePoint.ts q - 3000000000))%Z) l2.
Proof.
  apply (proj2 (price_at_nearest
                  [EnergyPricePoint.mk 0 0.10;
                   EnergyPricePoint.mk 3600000000 0.30] 3000000000%Z)).
  reflexivity.
Defined.

Lemma in_window_spec start end_ p :
  in_window start end_ p = true
  ↔ (start <= EnergyPricePoint.ts p <= end_)%Z.
Proof. unfold in_window. rewrite andb_true_iff, !Z.leb_le. tauto. Qed.

Lemma min_price_until_window prices start end_ :
  min_price_until prices start end_
  = match map EnergyPricePoint.eur_per_kwh
              (List.filter (in_window start end_) prices) with
    | [] => None
    | w :: ws => Some (min_by (λ x, x) w ws)
    end.
Proof. by destruct prices. Qed.

Lemma min_price_until_None prices start end_ :
  min_price_until prices start end_ = None
  ↔ ∀ p, p ∈ prices → ¬ (start <= EnergyPricePoint.ts p <= end_)%Z.
Proof.
  rewrite min_price_until_window.
  destruct (List.filter (in_window start end_) prices) as [|w ws] eqn:E; cbn.
  - split; [|done]. intros _ p Hp Hw.
    assert (In p (List.filter (in_window start end_) prices)) as Hin
      by (apply filter_In; split;
          [by apply list_elem_of_In | by apply in_window_spec]).
    by rewrite E in Hin.
  - split; [discriminate|]. intros H. exfalso.
    assert (In w (List.filter (in_window start end_) prices)) as Hin
      by (rewrite E; by left).
    apply filter_In in Hin as [Hin Hw].
    apply (H w); [by apply list_elem_of_In | by apply in_window_spec].
Qed.

Lemma min_price_until_Some prices start end_ m :
  min_price_until prices start end_ = Some m →
  (∃ p, p ∈ prices ∧ (start <= EnergyPricePoint.ts p <= end_)%Z
        ∧ EnergyPricePoint.eur_per_kwh p = m)
  ∧ (∀ q, q ∈ prices → (start <= EnergyPricePoint.ts q <= end_)%Z →
          m <= EnergyPricePoint.eur_per_kwh q).
Proof.
  rewrite min_price_until_window.
  destruct (map EnergyPricePoint.eur_per_kwh
              (List.filter (in_window start end_) prices))
    as [|w ws] eqn:E; [discriminate|].
  intros [= <-].
  destruct (min_by_first (λ x : Q, x) w ws) as (l1 & m & l2 & Hl & Hm & H1 & H2).
  rewrite Hm.
  assert (Hall : ∀ x, In x (w :: ws) → m <= x).
  { intros x Hx. rewrite Hl in Hx. apply in_app_or in Hx as [Hx | [<- | Hx]].
    - rewrite Forall_forall in H1. apply list_elem_of_In, H1 in Hx. lra.
    - lra.
    - rewrite Forall_forall in H2. by apply list_elem_of_In, H2 in Hx. }
  split.
  - assert (In m (w :: ws)) as Hin
      by (rewrite Hl; apply in_or_app; right; by left).
    rewrite <- E in Hin. apply in_map_iff in Hin as (p & Hp & Hin).
    apply filter_In in Hin as [Hin Hw].
    exists p. split; [by apply list_elem_of_In|].
    split; [by apply in_window_spec | done].
  - intros q Hq Hw. apply Hall. rewrite <- E. apply in_map.
    apply filter_In. split; [by apply list_elem_of_In | by apply in_window_spec].
Qed.

(** [min_price_until] answers [None] exactly when no point lies in the
    closed window (in particular when the window is empty because
    [end_ < start]); otherwise it returns the price of a point of the
    window that no point of the window undercuts. *)
Theorem min_price_until_minimum prices start end_ :
  (min_price_until prices start end_ = None
   ↔ ∀ p, p ∈ prices → ¬ (start <= EnergyPricePoint.ts p <= end_)%Z)
  ∧ ((end_ < start)%Z → min_price_until prices start end_ = None)
  ∧ (∀ m, min_price_until prices start end_ = Some m →
       (∃ p, p ∈ prices ∧ (start <= EnergyPricePoint.ts p <= end_)%Z
             ∧ EnergyPricePoint.eur_per_kwh p = m)
       ∧ (∀ q, q ∈ prices → (start <= EnergyPricePoint.ts q <= end_)%Z →
               m <= EnergyPricePoint.eur_per_kwh q)).
Proof.
  split; [apply min_price_until_None|]. split.
  - intros H. apply min_price_until_None. intros p _ Hw. lia.
  - intros m. apply min_price_until_Some.
Qed.

Lemma min_price_until_minimum_witness :
  min_price_until [EnergyPricePoint.mk 0 0.10] 10 5 = None.
Proof.
  apply (proj1 (proj2 (min_price_until_minimum
                         [EnergyPricePoint.mk 0 0.10] 10%Z 5%Z))).
  reflexivity.
Defined.

(** Widening the window can only lower the best price: a price found in
    [[start, end_]] is matched or undercut in any window that contains
    it. *)
Theorem min_price_until_widen prices start end_ start' end' m :
  (start' <= start)%Z → (end_ <= end')%Z →
  min_price_until prices start end_ = Some m →
  ∃ m', min_price_until prices start' end' = Some m' ∧ m' <= m.
Proof.
  intros Hs He Hm.
  apply min_price_until_Some in Hm as [(p & Hp & Hw & Hpm) _].
  destruct (min_price_until prices start' end') as [m'|] eqn:E.
  - exists m'. split; [done|].
    apply min_price_until_Some in E as [_ Hall].
    rewrite <- Hpm. apply Hall; [done | lia].
  - exfalso. rewrite min_price_until_None in E. apply (E p Hp). lia.
Qed.

Lemma min_price_until_widen_witness :
  ∃ m', min_price_until
          [EnergyPricePoint.mk 0 0.10; EnergyPricePoint.mk 3600000000 0.30]
          0 3600000000 = Some m'
        ∧ m' <= 0.30.
Proof.
  apply (min_price_until_widen
           [EnergyPricePoint.mk 0 0.10; EnergyPricePoint.mk 3600000000 0.30]
           1%Z 3600000000%Z 0%Z 3600000000%Z 0.30);
    [lia | lia | reflexivity].
Defined.
End PriceLookup.

(** ** The loop body, branch by branch *)

Section StepDetail.
Local Open Scope Q_scope.
Context (now : datetime) (prices : list EnergyPricePoint.t)
        (site : SiteConstraints.t).

Lemma plan_step_detail st v ch rt :
  step_detail now prices st v ch rt (plan_step now prices site st (v, ch, rt)).
Proof.
  unfold plan_step.
  change (battery_friendly_kw v ch _) with (final_kw_of now prices st (v, ch, rt)).
  set (f := final_kw_of now prices st (v, ch, rt)).
  destruct (Qleb (deficit_of v rt) 0) eqn:Ed;
    [apply Qleb_le in Ed | apply Qleb_gt in Ed].
  { by apply detail_ok. }
  destruct (Qleb (minutes_until (RoutePlan.start_time rt) now) 0) eqn:Em;
    [apply Qleb_le in Em | apply Qleb_gt in Em].
  { by apply detail_overdue. }
  destruct (Qleb f 0.01) eqn:Ef;
    [apply Qleb_le in Ef | apply Qleb_gt in Ef].
  - apply detail_not_planned; try done.
    cbn. destruct (Qltb 0.01 f) eqn:E'; [|done].
    apply Qltb_lt in E'. lra.
  - assert ((if Qltb (Vehicle.soc v) (RoutePlan.required_soc_min rt)
                && Qltb (minutes_until (RoutePlan.start_time rt) now) 60
             then alerts st ++ [AlertCritical (Vehicle.id v) (format_1f f)]
             else alerts st)
            = alerts st ++ critical_alerts now v rt f) as ->.
    { unfold critical_alerts.
      destruct (_ && _); [done | by rewrite app_nil_r]. }
    apply detail_planned; try done.
    cbn. destruct (Qltb 0.01 f) eqn:E'; [done|].
    apply Qltb_ge in E'. lra.
Qed.

(** A deferred request is zero, and so is its curtailed power. *)
Lemma final_kw_deferred st t :
  delay_applied_of now prices t = true → final_kw_of now prices st t <= 0.
Proof.
  destruct t as [[v ch] rt]. unfold delay_applied_of, final_kw_of. intros H.
  unfold requested_kw_of. rewrite H. cbn [fst snd].
  destruct (Qlt_le_dec 0 (battery_friendly_kw v ch 0.0)) as [Hpos | Hle];
    [|done].
  apply battery_friendly_kw_above in Hpos as [_ Hr].
  assert (0 <= 0.0) as H0 by discriminate. specialize (Hr H0). lra.
Qed.

(** The curtailed power is at most the average power that meets the
    deadline. *)
Lemma final_kw_le_avg st t :
  0 < final_kw_of now prices st t →
  final_kw_of now prices st t <= avg_kw_needed_of now t.
Proof.
  intros H. unfold final_kw_of in *.
  pose proof (requested_kw_of_bounds now prices st t) as [H0 _].
  apply battery_friendly_kw_above in H as Hb. destruct Hb as [_ Hb].
  specialize (Hb H0).
  assert (0 < requested_kw_of now prices st t) as Hr by lra.
  eapply Qle_trans; [exact Hb|].
  destruct t as [[v ch] rt]. unfold requested_kw_of, avg_kw_needed_of in *.
  destruct (should_delay_charging _ _ _ _); [lra|].
  apply clamp_above in Hr as [Hx _]; [|lra].
  eapply Qle_trans; [exact Hx|].
  unfold py_min3.
  match goal with |- py_min (py_min ?a ?b) ?c <= _ =>
    pose proof (py_min_spec (py_min a b) c) as [H1 _];
    pose proof (py_min_spec a b) as [H2 _] end.
  lra.
Qed.
End StepDetail.

(** ** What a plan's commands and alerts come from *)

Section PlanFacts.
Local Open Scope Q_scope.
Context (now : datetime) (vehicles : list Vehicle.t)
        (chargers : list Charger.t) (routes : list RoutePlan.t)
        (prices : list EnergyPricePoint.t) (site : SiteConstraints.t).

Abbreviation sorted_list := (eligible_sorted now vehicles chargers routes).
Abbreviation start_state := (initial_state vehicles chargers routes site).
Abbreviation end_state := (plan_loop now prices site sorted_list start_state).
Abbreviation seen_list := (visited now prices site sorted_list start_state).

Lemma command_source_inv :
  Forall (λ c, ∃ t : Triple, t ∈ seen_list
            ∧ ChargingCommand.vehicle_id c = Vehicle.id t.1.1
            ∧ ChargingCommand.charger_id c = Charger.id t.1.2
            ∧ 0 < deficit_of t.1.1 t.2
            ∧ 0 < minutes_until (RoutePlan.start_time t.2) now
            ∧ delay_applied_of now prices t = false
            ∧ ChargingCommand.set_kw c <= avg_kw_needed_of now t)
         (commands end_state).
Proof.
  apply (plan_loop_invariant now prices site
    (λ vis st,
       Forall (λ c, ∃ t : Triple, t ∈ vis
            ∧ ChargingCommand.vehicle_id c = Vehicle.id t.1.1
            ∧ ChargingCommand.charger_id c = Charger.id t.1.2
            ∧ 0 < deficit_of t.1.1 t.2
            ∧ 0 < minutes_until (RoutePlan.start_time t.2) now
            ∧ delay_applied_of now prices t = false
            ∧ ChargingCommand.set_kw c <= avg_kw_needed_of now t)
         (commands st))).
  { constructor. }
  intros pre [[v ch] rt] st _ IH.
  assert (Forall (λ c, ∃ t : Triple, t ∈ pre ++ [(v, ch, rt)]
            ∧ ChargingCommand.vehicle_id c = Vehicle.id t.1.1
            ∧ ChargingCommand.charger_id c = Charger.id t.1.2
            ∧ 0 < deficit_of t.1.1 t.2
            ∧ 0 < minutes_until (RoutePlan.start_time t.2) now
            ∧ delay_applied_of now prices t = false
            ∧ ChargingCommand.set_kw c <= avg_kw_needed_of now t)
         (commands st)) as IH'.
  { eapply Forall_impl; [exact IH|]. intros c (t & Ht & ?).
    exists t. split; [|done]. apply elem_of_app. by left. }
  destruct (plan_step_detail now prices site st v ch rt)
    as [| | |e Hd Hm Hf He]; cbn; try done.
  apply Forall_app. split; [done|]. constructor; [|constructor].
  exists (v, ch, rt). cbn.
  split; [apply elem_of_app; right; by apply list_elem_of_singleton|].
  repeat split; try done.
  - destruct (delay_applied_of now prices (v, ch, rt)) eqn:E; [|done].
    pose proof (final_kw_deferred now prices st (v, ch, rt) E). lra.
  - apply (final_kw_le_avg now prices st (v, ch, rt)). lra.
Qed.

Lemma command_order_inv :
  ChargingCommand.vehicle_id <$> commands end_state
  `sublist_of` (λ t : Triple, Vehicle.id t.1.1) <$> seen_list.
Proof.
  apply (plan_loop_invariant now prices site
    (λ vis st, ChargingCommand.vehicle_id <$> commands st
               `sublist_of` (λ t : Triple, Vehicle.id t.1.1) <$> vis)).
  { done. }
  intros pre [[v ch] rt] st _ IH. rewrite fmap_app.
  destruct (plan_step_detail now prices site st v ch rt); cbn.
  1-3: by apply sublist_inserts_r.
  rewrite fmap_app. by apply sublist_app.
Qed.

(** Printing with one decimal moves a value by at most 0.05. *)
Lemma round_half_even_near y :
  Qabs (inject_Z (round_half_even y) - y) <= 0.5.
Proof.
  unfold round_half_even.
  pose proof (Qfloor_le y) as Hlo. pose proof (Qlt_floor y) as Hhi.
  rewrite inject_Z_plus in Hhi. change (inject_Z 1) with 1 in Hhi.
  apply Qabs_Qle_condition.
  destruct (Qltb (y - inject_Z (Qfloor y)) 0.5) eqn:E1;
    [apply Qltb_lt in E1 | apply Qltb_ge in E1].
  { split; lra. }
  assert (inject_Z (Qfloor y + 1) == inject_Z (Qfloor y) + 1) as Hs
    by (rewrite inject_Z_plus; reflexivity).
  destruct (Qltb 0.5 (y - inject_Z (Qfloor y))) eqn:E2;
    [apply Qltb_lt in E2 | apply Qltb_ge in E2].
  { rewrite Hs. split; lra. }
  destruct (Z.even (Qfloor y)); [|rewrite Hs]; split; lra.
Qed.

Example format_1f_example : format_1f 12.375 == 12.4.
Proof. reflexivity. Qed.

Lemma format_1f_near x : Qabs (format_1f x - x) <= 0.05.
Proof.
  unfold format_1f, py_round.
  change (inject_Z (10 ^ Z.of_nat 1)) with (10 # 1).
  pose proof (round_half_even_near (x * 10)) as H.
  apply Qabs_Qle_condition in H as [H1 H2].
  apply Qabs_Qle_condition.
  set (r := inject_Z (round_half_even (x * 10))) in *.
  assert (r / 10 == r * (1 # 10)) as Hr by field.
  split; rewrite Hr; lra.
Qed.

Lemma alert_source_inv :
  Forall (λ a, match a with
               | AlertRouteOverdue vid =>
                   ∃ t : Triple, t ∈ seen_list ∧ Vehicle.id t.1.1 = vid
                     ∧ 0 < deficit_of t.1.1 t.2
                     ∧ minutes_until (RoutePlan.start_time t.2) now <= 0
               | AlertCritical vid kw =>
                   (∃ c, c ∈ commands end_state
                         ∧ ChargingCommand.vehicle_id c = vid
                         ∧ kw = format_1f (ChargingCommand.set_kw c))
                   ∧ ∃ t : Triple, t ∈ seen_list ∧ Vehicle.id t.1.1 = vid
                       ∧ 0 < minutes_until (RoutePlan.start_time t.2) now
                       ∧ minutes_until (RoutePlan.start_time t.2) now < 60
               end) (alerts end_state)
  ∧ (length (alerts end_state) <= length seen_list)%nat.
Proof.
  apply (plan_loop_invariant now prices site
    (λ vis st,
       Forall (λ a, match a with
               | AlertRouteOverdue vid =>
                   ∃ t : Triple, t ∈ vis ∧ Vehicle.id t.1.1 = vid
                     ∧ 0 < deficit_of t.1.1 t.2
                     ∧ minutes_until (RoutePlan.start_time t.2) now <= 0
               | AlertCritical vid kw =>
                   (∃ c, c ∈ commands st
                         ∧ ChargingCommand.vehicle_id c = vid
                         ∧ kw = format_1f (ChargingCommand.set_kw c))
                   ∧ ∃ t : Triple, t ∈ vis ∧ Vehicle.id t.1.1 = vid
                       ∧ 0 < minutes_until (RoutePlan.start_time t.2) now
                       ∧ minutes_until (RoutePlan.start_time t.2) now < 60
               end) (alerts st)
       ∧ (length (alerts st) <= length vis)%nat)).
  { split; [constructor | done]. }
  intros pre [[v ch] rt] st _ [IH Hlen].
  assert (Hweak : ∀ cs',
    Forall (λ a, match a with
               | AlertRouteOverdue vid =>
                   ∃ t : Triple, t ∈ pre ++ [(v, ch, rt)]
                     ∧ Vehicle.id t.1.1 = vid
                     ∧ 0 < deficit_of t.1.1 t.2
                     ∧ minutes_until (RoutePlan.start_time t.2) now <= 0
               | AlertCritical vid kw =>
                   (∃ c, c ∈ commands st ++ cs'
                         ∧ ChargingCommand.vehicle_id c = vid
                         ∧ kw = format_1f (ChargingCommand.set_kw c))
                   ∧ ∃ t : Triple, t ∈ pre ++ [(v, ch, rt)]
                       ∧ Vehicle.id t.1.1 = vid
                       ∧ 0 < minutes_until (RoutePlan.start_time t.2) now
                       ∧ minutes_until (RoutePlan.start_time t.2) now < 60
               end) (alerts st)).
  { intros cs'. eapply Forall_impl; [exact IH|].
    intros [vid | vid kw].
    - intros (t & Ht & ?). exists t. split; [|done].
      apply elem_of_app. by left.
    - intros [(c & Hc & ?) (t & Ht & ?)]. split.
      + exists c. split; [|done]. apply elem_of_app. by left.
      + exists t. split; [|done]. apply elem_of_app. by left. }
  assert (Hin : (v, ch, rt) ∈ pre ++ [(v, ch, rt)])
    by (apply elem_of_app; right; by apply list_elem_of_singleton).
  rewrite length_app. cbn [length].
  destruct (plan_step_detail now prices site st v ch rt)
    as [e Hd He | e Hd Hm He | e Hd Hm Hf He Hb | e Hd Hm Hf He];
    cbn [fst alerts commands].
  - split; [|lia]. specialize (Hweak []). by rewrite app_nil_r in Hweak.
  - split; [|rewrite length_app; cbn; lia].
    apply Forall_app. split.
    + specialize (Hweak []). by rewrite app_nil_r in Hweak.
    + constructor; [|constructor]. by exists (v, ch, rt).
  - split; [|lia]. specialize (Hweak []). by rewrite app_nil_r in Hweak.
  - unfold critical_alerts.
    destruct (Qltb (Vehicle.soc v) (RoutePlan.required_soc_min rt)) eqn:E1;
      cbn [andb].
    2:{ rewrite app_nil_r. split; [apply Hweak | lia]. }
    destruct (Qltb (minutes_until (RoutePlan.start_time rt) now) 60) eqn:E2.
    2:{ rewrite app_nil_r. split; [apply Hweak | lia]. }
    apply Qltb_lt in E2.
    split; [|rewrite length_app; cbn; lia].
    apply Forall_app. split; [apply Hweak|].
    constructor; [|constructor]. split.
    + eexists. split; [apply elem_of_app; right; apply list_elem_of_here|].
      done.
    + by exists (v, ch, rt).
Qed.
End PlanFacts.

Section PlanTheorems.
Local Open Scope Q_scope.

(** Every command is for a visited, eligible vehicle of the input: the
    vehicle is [DISPONIVEL] and plugged into the commanded charger, which
    is enabled; its route has not started; it has a deficit; charging was
    not deferred; and the power is at most the average power that meets
    the deadline. *)
Theorem command_source now vehicles chargers routes prices site c :
  c ∈ PlanResult.commands (make_plan now vehicles chargers routes prices site) →
  ∃ v ch rt,
    (v, ch, rt) ∈ visited now prices site
                    (eligible_sorted now vehicles chargers routes)
                    (initial_state vehicles chargers routes site)
    ∧ v ∈ vehicles ∧ ch ∈ chargers ∧ rt ∈ routes
    ∧ ChargingCommand.vehicle_id c = Vehicle.id v
    ∧ ChargingCommand.charger_id c = Charger.id ch
    ∧ Vehicle.state v = "DISPONIVEL"
    ∧ Vehicle.charger_id v = Some (Charger.id ch)
    ∧ Charger.enabled ch = true
    ∧ RoutePlan.vehicle_id rt = Vehicle.id v
    ∧ Vehicle.soc v < RoutePlan.required_soc_min rt
    ∧ 0 < minutes_until (RoutePlan.start_time rt) now
    ∧ delay_applied_of now prices (v, ch, rt) = false
    ∧ ChargingCommand.set_kw c <= avg_kw_needed_of now (v, ch, rt).
Proof.
  intros Hc. cbn in Hc.
  pose proof (command_source_inv now vehicles chargers routes prices site) as H.
  rewrite Forall_forall in H.
  destruct (H c Hc) as ([[v ch] rt] & Ht & Hv & Hch & Hd & Hm & Hdel & Havg).
  cbn [fst snd] in *.
  exists v, ch, rt. split; [done|].
  assert (Hel := Ht). apply visited_in_eligible in Hel.
  rewrite eligible_eq in Hel.
  apply elem_of_eligible in Hel as (v' & Hin & Hv').
  apply eligible_triple_Some in Hv'
    as (Hvv & Hst & (cid & Hcid & _ & Hlk) & Hen & Hrt).
  cbn [fst snd] in *. subst v'.
  pose proof (lookup_comprehension_Some Charger.id chargers cid ch Hlk)
    as [Hidc Hinc].
  pose proof (lookup_comprehension_Some RoutePlan.vehicle_id routes
                (Vehicle.id v) rt Hrt) as [Hidr Hinr].
  repeat split; try done.
  - by rewrite Hidc.
  - unfold deficit_of, py_max in Hd.
    destruct (Qltb 0.0 (RoutePlan.required_soc_min rt - Vehicle.soc v)) eqn:E;
      [apply Qltb_lt in E; lra | lra].
Qed.

Lemma command_source_witness :
  ∃ v ch rt,
    (v, ch, rt) ∈ visited 0 [] sample_site
                    (eligible_sorted 0 [sample_vehicle] [sample_charger]
                                     [sample_route])
                    (initial_state [sample_vehicle] [sample_charger]
                                   [sample_route] sample_site)
    ∧ v ∈ [sample_vehicle] ∧ ch ∈ [sample_charger] ∧ rt ∈ [sample_route]
    ∧ "v1" = Vehicle.id v
    ∧ "c1" = Charger.id ch
    ∧ Vehicle.state v = "DISPONIVEL"
    ∧ Vehicle.charger_id v = Some (Charger.id ch)
    ∧ Charger.enabled ch = true
    ∧ RoutePlan.vehicle_id rt = Vehicle.id v
    ∧ Vehicle.soc v < RoutePlan.required_soc_min rt
    ∧ 0 < minutes_until (RoutePlan.start_time rt) 0
    ∧ delay_applied_of 0 [] (v, ch, rt) = false
    ∧ 50 <= avg_kw_needed_of 0 (v, ch, rt).
Proof.
  apply (command_source 0%Z [sample_vehicle] [sample_charger] [sample_route]
           [] sample_site (ChargingCommand.mk "v1" "c1" 50 command_reason)).
  vm_compute. constructor.
Defined.

Lemma delay_applied_gate now prices v ch rt :
  delay_applied_of now prices (v, ch, rt) = true →
  0 < deficit_of v rt ∧ 60 < minutes_until (RoutePlan.start_time rt) now.
Proof.
  unfold delay_applied_of, should_delay_charging, should_delay_charging_with.
  destruct (Qleb (deficit_of v rt) 0) eqn:E1; [discriminate|].
  destruct (Qleb (minutes_until (RoutePlan.start_time rt) now) 60.0) eqn:E2;
    [discriminate|].
  apply Qleb_gt in E1, E2. intros _. split; lra.
Qed.

(** When the deferral decision is true for a visited triple, the loop
    body records [nao_planeado] with the deferral flag set and changes
    nothing else: no command, no alert, the budget as it was, and the
    loop goes on. *)
Theorem deferred_visit now prices site st v ch rt :
  delay_applied_of now prices (v, ch, rt) = true →
  let r := plan_step now prices site st (v, ch, rt) in
  (∃ e b, explanations r.1 !! Vehicle.id v = Some e
          ∧ status e = nao_planeado
          ∧ base e = Some b ∧ price_delay_applied b = true)
  ∧ commands r.1 = commands st
  ∧ alerts r.1 = alerts st
  ∧ remaining_kw r.1 = remaining_kw st
  ∧ r.2 = Next.
Proof.
  intros Hdel r. subst r.
  pose proof (delay_applied_gate now prices v ch rt Hdel) as [Hd Hm].
  pose proof (final_kw_deferred now prices st (v, ch, rt) Hdel) as Hf.
  destruct (plan_step_detail now prices site st v ch rt)
    as [e Hd' He | e Hd' Hm' He | e Hd' Hm' Hf' He Hb | e Hd' Hm' Hf' He];
    cbn [fst snd commands alerts remaining_kw explanations]; try lra.
  rewrite Hdel in Hb. destruct (base e) as [b|] eqn:Eb; [|discriminate].
  injection Hb as Hb.
  split; [|done]. exists e, b. by rewrite lookup_insert_eq.
Qed.

Lemma deferred_visit_witness :
  commands
    (plan_step 0 [EnergyPricePoint.mk 0 0.30;
                  EnergyPricePoint.mk 3600000000 0.10]
               sample_site (mkState 100 [] [] ∅)
               (scenario_vehicle, sample_charger, scenario_route)).1
  = [].
Proof.
  apply (deferred_visit 0%Z
           [EnergyPricePoint.mk 0 0.30; EnergyPricePoint.mk 3600000000 0.10]
           sample_site (mkState 100 [] [] ∅)
           scenario_vehicle sample_charger scenario_route).
  vm_compute. reflexivity.
Defined.

(** The commands are in the order of the visits, at most one per visit;
    with pairwise distinct vehicle identities in the input no vehicle
    gets two commands. *)
Theorem commands_follow_visits now vehicles chargers routes prices site :
  let plan := make_plan now vehicles chargers routes prices site in
  ChargingCommand.vehicle_id <$> PlanResult.commands plan
    `sublist_of`
    (λ t : Triple, Vehicle.id t.1.1)
      <$> visited now prices site
            (eligible_sorted now vehicles chargers routes)
            (initial_state vehicles chargers routes site)
  ∧ (NoDup (Vehicle.id <$> vehicles) →
     NoDup (ChargingCommand.vehicle_id <$> PlanResult.commands plan)).
Proof.
  intros plan. subst plan. cbn [make_plan PlanResult.commands].
  pose proof (command_order_inv now vehicles chargers routes prices site) as H.
  split; [done|]. intros Hnd.
  eapply sublist_NoDup; [|exact H].
  by apply visited_ids_NoDup.
Qed.

Lemma commands_follow_visits_witness :
  NoDup (ChargingCommand.vehicle_id <$> PlanResult.commands contended_plan).
Proof.
  apply (proj2 (commands_follow_visits 0%Z
    [Vehicle.mk "a" 100 0.25 1 20 "DISPONIVEL" (Some "ca");
     Vehicle.mk "b" 120 0.5 1 20 "DISPONIVEL" (Some "cb")]
    [big_charger "ca"; big_charger "cb"]
    [RoutePlan.mk "ra" "a" 3600000000 7200000000 10 30 5 0.85;
     RoutePlan.mk "rb" "b" 3600000000 7200000000 10 30 5 1]
    [] sample_site)).
  cbn. apply NoDup_cons. split; [|apply NoDup_singleton].
  intros H. apply list_elem_of_singleton in H. discriminate.
Defined.

(** Every alert of a plan comes from a visit, at most one alert per
    visit.  An overdue alert names a visited vehicle with a deficit whose
    route start is now or past; a critical alert names a vehicle that got
    a command and whose route starts in less than 60 minutes, and the
    power it shows is the command's [set_kw] printed with one decimal,
    hence within 0.05 of it. *)
Theorem alert_source now vehicles chargers routes prices site :
  let plan := make_plan now vehicles chargers routes prices site in
  let seen :=
    visited now prices site (eligible_sorted now vehicles chargers routes)
            (initial_state vehicles chargers routes site) in
  Forall (λ a, match a with
               | AlertRouteOverdue vid =>
                   ∃ t : Triple, t ∈ seen ∧ Vehicle.id t.1.1 = vid
                     ∧ 0 < deficit_of t.1.1 t.2
                     ∧ minutes_until (RoutePlan.start_time t.2) now <= 0
               | AlertCritical vid kw =>
                   (∃ c, c ∈ PlanResult.commands plan
                         ∧ ChargingCommand.vehicle_id c = vid
                         ∧ kw = format_1f (ChargingCommand.set_kw c)
                         ∧ Qabs (kw - ChargingCommand.set_kw c) <= 0.05)
                   ∧ ∃ t : Triple, t ∈ seen ∧ Vehicle.id t.1.1 = vid
                       ∧ 0 < minutes_until (RoutePlan.start_time t.2) now
                       ∧ minutes_until (RoutePlan.start_time t.2) now < 60
               end) (PlanResult.alerts plan)
  ∧ (length (PlanResult.alerts plan) <= length seen)%nat.
Proof.
  intros plan seen. subst plan seen.
  cbn [make_plan PlanResult.commands PlanResult.alerts].
  destruct (alert_source_inv now vehicles chargers routes prices site)
    as [H Hlen].
  split; [|done].
  eapply Forall_impl; [exact H|].
  intros [vid | vid kw]; [done|].
  intros [(c & Hc & Hv & ->) Ht]. split; [|done].
  exists c. repeat split; try done. apply format_1f_near.
Qed.
End PlanTheorems.

(** ** Explanations, commands and alerts agree *)

Section Agreement.
Local Open Scope Q_scope.

Lemma NoDup_fmap_inj_on {A B} (f : A → B) (l : list A) x y :
  NoDup (f <$> l) → x ∈ l → y ∈ l → f x = f y → x = y.
Proof.
  induction l as [|a l IH]; intros Hnd Hx Hy Hf.
  - by apply elem_of_nil in Hx.
  - rewrite fmap_cons in Hnd. apply NoDup_cons in Hnd as [Ha Hnd].
    apply elem_of_cons in Hx as [-> | Hx], Hy as [-> | Hy].
    + done.
    + exfalso. apply Ha. rewrite Hf. apply list_elem_of_fmap. by exists y.
    + exfalso. apply Ha. rewrite <- Hf. apply list_elem_of_fmap. by exists x.
    + by apply IH.
Qed.

Lemma filter_vehicle_inl cb rb v e :
  filter_vehicle cb rb v = inl e → status e = ignorado.
Proof.
  unfold filter_vehicle.
  destruct (negb _); [by intros [= <-]|].
  destruct (Vehicle.charger_id v) as [cid|]; [|by intros [= <-]].
  destruct (String.eqb cid ""); [by intros [= <-]|].
  destruct (cb !! cid) as [ch|]; [|by intros [= <-]].
  destruct (negb _); [by intros [= <-]|].
  destruct (rb !! Vehicle.id v); [discriminate | by intros [= <-]].
Qed.

Lemma record_ignored_other cb rb (vs : list Vehicle.t) m k :
  k ∉ Vehicle.id <$> vs →
  foldl (record_ignored cb rb) m vs !! k = m !! k.
Proof.
  revert m. induction vs as [|x vs IH]; intros m Hk; [done|].
  rewrite fmap_cons in Hk. apply not_elem_of_cons in Hk as [Hx Hk].
  cbn [foldl]. rewrite IH by done. unfold record_ignored.
  destruct (filter_vehicle cb rb x); [by rewrite lookup_insert_ne | done].
Qed.

Lemma record_ignored_status cb rb (vs : list Vehicle.t) m k e :
  (∀ e', m !! k = Some e' → status e' = ignorado) →
  foldl (record_ignored cb rb) m vs !! k = Some e → status e = ignorado.
Proof.
  revert m. induction vs as [|x vs IH]; intros m Hm; [apply Hm|].
  cbn [foldl]. apply IH. intros e'. unfold record_ignored.
  destruct (filter_vehicle cb rb x) as [ex|t] eqn:E; [|apply Hm].
  destruct (decide (Vehicle.id x = k)) as [<- | Hne].
  - rewrite lookup_insert_eq. intros [= <-]. by apply filter_vehicle_inl in E.
  - rewrite lookup_insert_ne by done. apply Hm.
Qed.

Lemma record_ignored_lookup cb rb (vs : list Vehicle.t) m v e :
  NoDup (Vehicle.id <$> vs) → v ∈ vs → filter_vehicle cb rb v = inl e →
  foldl (record_ignored cb rb) m vs !! Vehicle.id v = Some e.
Proof.
  revert m. induction vs as [|x vs IH]; intros m Hnd Hv He.
  - by apply elem_of_nil in Hv.
  - rewrite fmap_cons in Hnd. apply NoDup_cons in Hnd as [Hx Hnd].
    cbn [foldl]. apply elem_of_cons in Hv as [-> | Hv].
    + rewrite record_ignored_other by done.
      unfold record_ignored. rewrite He. apply lookup_insert_eq.
    + by apply IH.
Qed.

Context (now : datetime) (prices : list EnergyPricePoint.t)
        (site : SiteConstraints.t).

(** With pairwise distinct identities among the visited triples: an
    identity has status [planeado] exactly when a command names it and
    status [erro] exactly when an overdue alert names it, and an identity
    that was not visited keeps its explanation and is named by no
    command and no alert. *)
Lemma agreement_inv l st0 :
  NoDup ((λ t : Triple, Vehicle.id t.1.1) <$> visited now prices site l st0) →
  alerts st0 = [] → commands st0 = [] →
  (∀ k e, explanations st0 !! k = Some e → status e = ignorado) →
  (∀ k, (status <$> explanations (plan_loop now prices site l st0) !! k
         = Some planeado
         ↔ ∃ c, c ∈ commands (plan_loop now prices site l st0)
                ∧ ChargingCommand.vehicle_id c = k)
        ∧ (status <$> explanations (plan_loop now prices site l st0) !! k
           = Some erro
           ↔ AlertRouteOverdue k ∈ alerts (plan_loop now prices site l st0)))
  ∧ (∀ k, k ∉ (λ t : Triple, Vehicle.id t.1.1)
                 <$> visited now prices site l st0 →
          explanations (plan_loop now prices site l st0) !! k
          = explanations st0 !! k
          ∧ Forall (λ c, ChargingCommand.vehicle_id c ≠ k)
                   (commands (plan_loop now prices site l st0))
          ∧ Forall (λ a, alert_vehicle a ≠ k)
                   (alerts (plan_loop now prices site l st0))).
Proof.
  intros Hnd Ha0 Hc0 He0.
  apply (plan_loop_invariant now prices site
    (λ vis st,
       (∀ k, (status <$> explanations st !! k = Some planeado
              ↔ ∃ c, c ∈ commands st ∧ ChargingCommand.vehicle_id c = k)
             ∧ (status <$> explanations st !! k = Some erro
                ↔ AlertRouteOverdue k ∈ alerts st))
       ∧ (∀ k, k ∉ (λ t : Triple, Vehicle.id t.1.1) <$> vis →
               explanations st !! k = explanations st0 !! k
               ∧ Forall (λ c, ChargingCommand.vehicle_id c ≠ k) (commands st)
               ∧ Forall (λ a, alert_vehicle a ≠ k) (alerts st)))).
  { split.
    - intros k. rewrite Ha0, Hc0. split; split.
      + destruct (explanations st0 !! k) as [e|] eqn:E; [|discriminate].
        apply He0 in E. cbn. rewrite E. discriminate.
      + intros (c & Hc & _). by apply elem_of_nil in Hc.
      + destruct (explanations st0 !! k) as [e|] eqn:E; [|discriminate].
        apply He0 in E. cbn. rewrite E. discriminate.
      + intros H. by apply elem_of_nil in H.
    - intros k _. rewrite Ha0, Hc0. repeat split; constructor. }
  intros pre [[v ch] rt] st [rest Hpre] [IH1 IH2].
  assert (Vehicle.id v ∉ (λ t : Triple, Vehicle.id t.1.1) <$> pre) as Hfresh.
  { rewrite Hpre, !fmap_app in Hnd. apply NoDup_app in Hnd as [Hnd _].
    apply NoDup_app in Hnd as (_ & Hnd & _).
    intros Hin. apply (Hnd _ Hin). cbn. apply list_elem_of_here. }
  destruct (IH2 _ Hfresh) as (_ & Hnocmd & Hnoal).
  assert (Hnc : ¬ ∃ c, c ∈ commands st
                        ∧ ChargingCommand.vehicle_id c = Vehicle.id v).
  { intros (c & Hc & Hid). rewrite Forall_forall in Hnocmd.
    by apply (Hnocmd c Hc). }
  assert (Hna : AlertRouteOverdue (Vehicle.id v) ∉ alerts st).
  { intros Hin. rewrite Forall_forall in Hnoal. by apply (Hnoal _ Hin). }
  split.
  - intros k. destruct (decide (k = Vehicle.id v)) as [-> | Hne].
    + destruct (plan_step_detail now prices site st v ch rt)
        as [e Hd He | e Hd Hm He | e Hd Hm Hf He Hb | e Hd Hm Hf He];
        cbn [fst explanations commands alerts];
        rewrite lookup_insert_eq; cbn; rewrite He.
      * split; split; try discriminate; [by intros ? | by intros ?].
      * split; split; try done.
        -- intros _. apply elem_of_app. right. apply list_elem_of_here.
      * split; split; try discriminate; [by intros ? | by intros ?].
      * split; split; try discriminate.
        -- intros _. eexists.
           split; [apply elem_of_app; right; apply list_elem_of_here|].
           reflexivity.
        -- done.
        -- intros Hin. apply elem_of_app in Hin as [Hin | Hin]; [done|].
           unfold critical_alerts in Hin.
           destruct (_ && _); [|by apply elem_of_nil in Hin].
           by apply list_elem_of_singleton in Hin.
    + destruct (IH1 k) as [Hp He].
      destruct (plan_step_detail now prices site st v ch rt)
        as [e Hd He' | e Hd Hm He' | e Hd Hm Hf He' Hb | e Hd Hm Hf He'];
        cbn [fst explanations commands alerts];
        rewrite lookup_insert_ne by done.
      * done.
      * split; [done|]. rewrite He. rewrite elem_of_app, list_elem_of_singleton.
        split; [by left | intros [? | [= ?]]; [done | congruence]].
      * done.
      * split.
        -- rewrite Hp. split.
           ++ intros (c & Hc & Hid). exists c. split; [|done].
              apply elem_of_app. by left.
           ++ intros (c & Hc & Hid). apply elem_of_app in Hc as [Hc | Hc].
              ** by exists c.
              ** apply list_elem_of_singleton in Hc. subst c. cbn in Hid.
                 congruence.
        -- rewrite He. rewrite elem_of_app. split; [by left|].
           intros [? | Hin]; [done|]. unfold critical_alerts in Hin.
           destruct (_ && _); [|by apply elem_of_nil in Hin].
           by apply list_elem_of_singleton in Hin.
  - intros k Hk. rewrite fmap_app in Hk.
    apply not_elem_of_app in Hk as [Hk1 Hk2].
    assert (k ≠ Vehicle.id v) as Hne.
    { intros ->. apply Hk2. cbn. apply list_elem_of_here. }
    destruct (IH2 k Hk1) as (Hex & Hcm & Hal).
    destruct (plan_step_effect now prices site st v ch rt) as
      (e & na & nc & -> & Hna' & Hnc' & _).
    cbn [explanations alerts commands].
    rewrite lookup_insert_ne by done. split; [done|]. split.
    + apply Forall_app. split; [done|].
      eapply Forall_impl; [exact Hnc'|]. intros c Hc. cbn in Hc. congruence.
    + apply Forall_app. split; [done|].
      eapply Forall_impl; [exact Hna'|]. intros a Ha. cbn in Ha. congruence.
Qed.
End Agreement.

Section AgreementTheorems.
Local Open Scope Q_scope.

Lemma initial_statuses vehicles chargers routes site k e :
  explanations (initial_state vehicles chargers routes site) !! k = Some e →
  status e = ignorado.
Proof.
  rewrite initial_explanations. apply record_ignored_status.
  intros e'. by rewrite lookup_empty.
Qed.

(** With pairwise distinct vehicle identities in the input, the statuses
    of a plan agree with its outputs: an identity has status [planeado]
    exactly when a command names it, and status [erro] exactly when an
    overdue alert names it. *)
Theorem status_matches_outputs now vehicles chargers routes prices site :
  NoDup (Vehicle.id <$> vehicles) →
  let plan := make_plan now vehicles chargers routes prices site in
  ∀ k, (status <$> PlanResult.explanations plan !! k = Some planeado
        ↔ ∃ c, c ∈ PlanResult.commands plan
               ∧ ChargingCommand.vehicle_id c = k)
       ∧ (status <$> PlanResult.explanations plan !! k = Some erro
          ↔ AlertRouteOverdue k ∈ PlanResult.alerts plan).
Proof.
  intros Hnd plan k. subst plan.
  cbn [make_plan PlanResult.explanations PlanResult.commands PlanResult.alerts].
  apply (agreement_inv now prices site
           (eligible_sorted now vehicles chargers routes)
           (initial_state vehicles chargers routes site)
           (visited_ids_NoDup now vehicles chargers routes prices site Hnd)
           eq_refl eq_refl
           (initial_statuses vehicles chargers routes site)).
Qed.

Lemma status_matches_outputs_witness :
  status <$> PlanResult.explanations overdue_plan !! "v1" = Some erro
  ↔ AlertRouteOverdue "v1" ∈ PlanResult.alerts overdue_plan.
Proof.
  apply (status_matches_outputs 0%Z [sample_vehicle] [sample_charger]
           [overdue_route] [] sample_site).
  apply NoDup_singleton.
Defined.

(** With pairwise distinct vehicle identities in the input, a vehicle
    that the filter ignores keeps the explanation written by the filter,
    with status [ignorado], and the plan has no command and no alert
    naming it. *)
Theorem ignored_vehicle_untouched now vehicles chargers routes prices site v e :
  NoDup (Vehicle.id <$> vehicles) →
  v ∈ vehicles →
  filter_vehicle (charger_by_id_of chargers) (route_by_vehicle_of routes) v
  = inl e →
  let plan := make_plan now vehicles chargers routes prices site in
  PlanResult.explanations plan !! Vehicle.id v = Some e
  ∧ status e = ignorado
  ∧ Forall (λ c, ChargingCommand.vehicle_id c ≠ Vehicle.id v)
           (PlanResult.commands plan)
  ∧ Forall (λ a, alert_vehicle a ≠ Vehicle.id v) (PlanResult.alerts plan).
Proof.
  intros Hnd Hv He plan. subst plan.
  cbn [make_plan PlanResult.explanations PlanResult.commands PlanResult.alerts].
  assert (Vehicle.id v ∉ (λ t : Triple, Vehicle.id t.1.1)
            <$> visited now prices site
                  (eligible_sorted now vehicles chargers routes)
                  (initial_state vehicles chargers routes site)) as Hfresh.
  { intros Hin. apply list_elem_of_fmap in Hin as (t & Hid & Ht).
    apply visited_in_eligible in Ht. rewrite eligible_eq in Ht.
    apply elem_of_eligible in Ht as (v' & Hv' & Ht).
    assert (Hvv := Ht). apply eligible_triple_vehicle in Hvv.
    rewrite Hvv in Hid.
    assert (v = v') as <-
      by (by apply (NoDup_fmap_inj_on Vehicle.id vehicles)).
    unfold eligible_triple in Ht. by rewrite He in Ht. }
  destruct (agreement_inv now prices site
              (eligible_sorted now vehicles chargers routes)
              (initial_state vehicles chargers routes site)
              (visited_ids_NoDup now vehicles chargers routes prices site Hnd)
              eq_refl eq_refl
              (initial_statuses vehicles chargers routes site))
    as [_ Hframe].
  destruct (Hframe _ Hfresh) as (Hex & Hcm & Hal).
  rewrite Hex, initial_explanations.
  split; [by apply record_ignored_lookup|].
  split; [by apply filter_vehicle_inl in He | done].
Qed.

Lemma ignored_vehicle_untouched_witness :
  let v := Vehicle.mk "m1" 100 0.2 1 20 "MANUTENCAO" (Some "c1") in
  let plan := make_plan 0 [sample_vehicle; v] [sample_charger]
                        [sample_route] [] sample_site in
  PlanResult.explanations plan !! "m1" = Some (ignored "estado=MANUTENCAO")
  ∧ status (ignored "estado=MANUTENCAO") = ignorado
  ∧ Forall (λ c, ChargingCommand.vehicle_id c ≠ "m1")
           (PlanResult.commands plan)
  ∧ Forall (λ a, alert_vehicle a ≠ "m1") (PlanResult.alerts plan).
Proof.
  intros v plan.
  apply (ignored_vehicle_untouched 0%Z [sample_vehicle; v] [sample_charger]
           [sample_route] [] sample_site v (ignored "estado=MANUTENCAO")).
  - cbn. apply NoDup_cons. split; [|apply NoDup_singleton].
    intros H. apply list_elem_of_singleton in H. discriminate.
  - apply list_elem_of_further, list_elem_of_here.
  - reflexivity.
Defined.
End AgreementTheorems.

(** * Properties of [price_provider.py] and of the caller *)

Section PriceProviderFacts.
Local Open Scope Q_scope.

Lemma str_or_nonempty x d : d ≠ "" → str_or x d ≠ "".
Proof.
  intros Hd. unfold str_or. destruct x as [s|]; [|done].
  destruct (String.eqb s "") eqn:E; [done|]. by apply String.eqb_neq in E.
Qed.

Lemma closest_price_cases items now_utc :
  (items = [] ∧ _closest_price_eur_kwh items now_utc = Done None)
  ∨ (items ≠ [] ∧ forallb (λ t : Stamp * Q, aware t.1) items = true
     ∧ ∃ p, _closest_price_eur_kwh items now_utc = Done (Some p))
  ∨ (items ≠ [] ∧ forallb (λ t : Stamp * Q, aware t.1) items = false
     ∧ ∃ e, _closest_price_eur_kwh items now_utc = Failed e).
Proof.
  destruct items as [|t ts]; [by left | right].
  unfold _closest_price_eur_kwh.
  destruct (forallb _ (t :: ts)); [left | right]; repeat split; eauto.
Qed.

(** What one REN attempt yields: a successful snapshot from that source
    exactly when the reply is usable, otherwise an error pair whose code
    is not empty. *)
Lemma ren_attempt_cases now_utc reply source label defaults :
  defaults.1 ≠ "" →
  (ren_usable reply
   ∧ ∃ p, ren_attempt now_utc reply source label defaults
          = inl (PriceSnapshot.mk true now_utc (Some p) source None None))
  ∨ (¬ ren_usable reply
     ∧ ∃ err, ren_attempt now_utc reply source label defaults = inr err
              ∧ err.1 ≠ "").
Proof.
  intros Hd. unfold ren_attempt.
  destruct reply as [e | [[code msg] items]].
  - right. split; [intros (? & ? & ? & ? & _); discriminate|].
    eexists. split; [reflexivity | done].
  - destruct (closest_price_cases items now_utc)
      as [[-> _] | [(Hne & Haw & p & Hp) | (Hne & Haw & e & He)]].
    + right. split; [intros (? & ? & ? & [= _ _ <-] & ? & _); done|].
      eexists. split; [reflexivity|]. by apply str_or_nonempty.
    + left. split; [by exists code, msg, items|].
      exists p. destruct items; [done|]. by rewrite Hp.
    + right. split.
      * intros (? & ? & ? & [= _ _ <-] & _ & Haw'). congruence.
      * destruct items; [done|]. rewrite He.
        eexists. split; [reflexivity | done].
Qed.

(** [get_current_price] returns a snapshot for whatever the three
    sources produce.  A snapshot is [ok] exactly when it carries a price;
    then it has no error, and its source is the first usable one in the
    order REN 15 minutes, REN hourly, OMIE.  Otherwise it carries an
    error text and an error code that is not empty. *)
Theorem get_current_price_outcome now_utc ren_15m ren_hour omie :
  let s := get_current_price now_utc ren_15m ren_hour omie in
  PriceSnapshot.ts_utc s = now_utc
  ∧ (PriceSnapshot.ok s = true ↔ is_Some (PriceSnapshot.eur_per_kwh s))
  ∧ (PriceSnapshot.ok s = true →
     PriceSnapshot.error s = None ∧ PriceSnapshot.error_code s = None
     ∧ ((PriceSnapshot.source s = "REN:GetMarketPrice15M"
         ∧ ren_usable ren_15m)
        ∨ (PriceSnapshot.source s = "REN:GetMarketPrice"
           ∧ ¬ ren_usable ren_15m ∧ ren_usable ren_hour)
        ∨ (PriceSnapshot.source s = "OMIE:marginalpdbcpt (fallback)"
           ∧ ¬ ren_usable ren_15m ∧ ¬ ren_usable ren_hour
           ∧ ∃ pts, omie = Done pts ∧ pts ≠ [])))
  ∧ (PriceSnapshot.ok s = false →
     PriceSnapshot.source s = "REN/OMIE"
     ∧ is_Some (PriceSnapshot.error s)
     ∧ ∃ c, PriceSnapshot.error_code s = Some c ∧ c ≠ "").
Proof.
  intros s. subst s. unfold get_current_price.
  destruct (ren_attempt_cases now_utc ren_15m "REN:GetMarketPrice15M"
              "Falha REN (15M): " ("GEN02", "No Data Available")
              ltac:(done)) as [[Hu (p & ->)] | [Hu (err & -> & Herr)]].
  { cbn. repeat split; try done; eauto. }
  destruct (ren_attempt_cases now_utc ren_hour "REN:GetMarketPrice"
              "Falha REN (hora): " err Herr)
    as [[Hu2 (p & ->)] | [Hu2 (err2 & -> & Herr2)]].
  { cbn. repeat split; try done; eauto. }
  destruct omie as [e | pts].
  { cbn. repeat split; try done; try (by intros [? ?]); eauto. }
  destruct pts as [|t ts].
  { cbn. repeat split; try done; try (by intros [? ?]); eauto. }
  cbn. repeat split; try done; eauto.
  right. right. repeat split; try done. by exists (t :: ts).
Qed.

Lemma get_current_price_outcome_witness :
  PriceSnapshot.source
    (get_current_price 0 (Failed "timeout")
                       (Done (Some "GEN02", Some "No Data Available", []))
                       (Done []))
  = "REN/OMIE"
  ∧ is_Some (PriceSnapshot.error
               (get_current_price 0 (Failed "timeout")
                  (Done (Some "GEN02", Some "No Data Available", []))
                  (Done [])))
  ∧ ∃ c, PriceSnapshot.error_code
           (get_current_price 0 (Failed "timeout")
              (Done (Some "GEN02", Some "No Data Available", []))
              (Done []))
         = Some c ∧ c ≠ "".
Proof.
  apply (proj2 (proj2 (proj2 (get_current_price_outcome 0%Z (Failed "timeout")
           (Done (Some "GEN02", Some "No Data Available", [])) (Done []))))).
  reflexivity.
Defined.

Lemma min_by_curve (now : datetime) (x : datetime * Q) xs :
  min_by (λ p, Qabs (total_seconds (EnergyPricePoint.ts p - now)%Z))
         (EnergyPricePoint.mk x.1 (x.2 / 1000.0))
         (curve_points (get_prices_today xs))
  = EnergyPricePoint.mk
      (min_by (λ t : datetime * Q, Qabs (total_seconds (t.1 - now)%Z)) x xs).1
      ((min_by (λ t : datetime * Q, Qabs (total_seconds (t.1 - now)%Z)) x xs).2 / 1000.0).
Proof.
  revert x. induction xs as [|y xs IH]; intros x; [done|].
  cbn [curve_points get_prices_today map min_by fst snd
       EnergyPricePoint.ts].
  destruct (Qltb (Qabs (total_seconds (y.1 - now)))
                 (Qabs (total_seconds (x.1 - now)))); apply IH.
Qed.

(** The engine's [price_at], run on today's curve as [get_prices_today]
    converts it, finds the price that [_omie_current_price_eur_kwh]
    computes from the same OMIE points. *)
Theorem price_at_today_is_omie_current pts now :
  price_at (curve_points (get_prices_today pts)) now
  = _omie_current_price_eur_kwh pts now.
Proof.
  destruct pts as [|t ts]; [done|].
  change (curve_points (get_prices_today (t :: ts)))
    with (EnergyPricePoint.mk t.1 (t.2 / 1000.0)
            :: curve_points (get_prices_today ts)).
  cbn [price_at]. by rewrite min_by_curve.
Qed.
End PriceProviderFacts.

Section Caller.
Local Open Scope Q_scope.

(** The price list that [plan] builds.  Prices given in the request are
    used as they are, whatever the providers would produce.  Building the
    list fails exactly when the request has no prices and
    [get_prices_today] raises: the later fallbacks are not tried then.
    A list that is built is never empty, so [price_at] finds a price in
    it; when both the request and the day curve are empty it is a single
    point at [now_naive], priced by the current-price snapshot or at
    0.20. *)
Theorem plan_prices_outcome now_naive req_prices prices_today current_price :
  (req_prices ≠ [] →
   plan_prices now_naive req_prices prices_today current_price
   = Done (map (λ p, EnergyPricePoint.mk
                       (replace_tzinfo_none (PriceDTO.ts p))
                       (PriceDTO.eur_per_kwh p))
               req_prices))
  ∧ (∀ e, plan_prices now_naive req_prices prices_today current_price
          = Failed e
          ↔ req_prices = [] ∧ prices_today = Failed e)
  ∧ (∀ ps, plan_prices now_naive req_prices prices_today current_price
           = Done ps →
           ps ≠ [] ∧ ∀ ts, is_Some (price_at ps ts))
  ∧ (req_prices = [] → prices_today = Done [] →
     ∃ eur, plan_prices now_naive req_prices prices_today current_price
            = Done [EnergyPricePoint.mk now_naive eur]
            ∧ ((PriceSnapshot.ok current_price = true
                ∧ PriceSnapshot.eur_per_kwh current_price = Some eur)
               ∨ eur = 0.20)).
Proof.
  assert (Hsome : ∀ ps ts, ps ≠ [] → is_Some (price_at ps ts)).
  { intros [|p ps] ts H; [done|]. cbn. eauto. }
  unfold plan_prices. split; [|split; [|split]].
  - by destruct req_prices.
  - intros e. destruct req_prices as [|p ps].
    + destruct prices_today as [e'|[|t ts]].
      * split; [intros [= ->]; done | intros [_ [= ->]]; done].
      * destruct (PriceSnapshot.ok current_price),
                 (PriceSnapshot.eur_per_kwh current_price);
          split; try discriminate; intros [_ ?]; discriminate.
      * split; [discriminate | intros [_ ?]; discriminate].
    + split; [discriminate | intros [? _]; discriminate].
  - intros ps. destruct req_prices as [|p rs].
    + destruct prices_today as [e'|[|t ts]]; [discriminate| |].
      * destruct (PriceSnapshot.ok current_price),
                 (PriceSnapshot.eur_per_kwh current_price);
          intros [= <-]; (split; [done | intros ts; by apply Hsome]).
      * intros [= <-]. split; [done | intros ts'; by apply Hsome].
    + intros [= <-]. split; [done | intros ts; by apply Hsome].
  - intros -> ->.
    destruct (PriceSnapshot.ok current_price) eqn:Eok,
             (PriceSnapshot.eur_per_kwh current_price) as [eur|] eqn:Eeur.
    + exists eur. split; [done | by left].
    + exists 0.20. split; [done | by right].
    + exists 0.20. split; [done | by right].
    + exists 0.20. split; [done | by right].
Qed.

Lemma plan_prices_outcome_witness :
  plan_prices 0 [] (Failed "timeout")
              (PriceSnapshot.mk true 0 (Some 0.1) "OMIE" None None)
  = Failed "timeout".
Proof.
  apply (proj1 (proj2 (plan_prices_outcome 0%Z [] (Failed "timeout")
           (PriceSnapshot.mk true 0 (Some 0.1) "OMIE" None None)))).
  by split.
Defined.

Lemma price_at_elem prices ts p :
  price_at prices ts = Some p →
  ∃ pt, pt ∈ prices ∧ EnergyPricePoint.eur_per_kwh pt = p.
Proof.
  destruct prices as [|p0 ps]; [discriminate|]. intros H.
  assert (EnergyPricePoint.eur_per_kwh
            (min_by (λ q, Qabs (total_seconds (EnergyPricePoint.ts q - ts)%Z))
                    p0 ps) = p) as Hp
    by (unfold price_at in H; congruence).
  destruct (min_by_first
              (λ q, Qabs (total_seconds (EnergyPricePoint.ts q - ts)%Z))
              p0 ps) as (l1 & m & l2 & Hl & Hm & _).
  exists m. split; [|by rewrite <- Hm].
  rewrite Hl. apply elem_of_app. right. apply list_elem_of_here.
Qed.

(** On a flat price curve that is not negative the engine defers
    nothing: deferral needs a price now that is above 1.15 times a price
    in the window up to the route start. *)
Theorem flat_prices_never_defer now prices p t :
  0 <= p →
  Forall (λ q, EnergyPricePoint.eur_per_kwh q == p) prices →
  delay_applied_of now prices t = false.
Proof.
  intros Hp Hflat. destruct t as [[v ch] rt].
  unfold delay_applied_of, should_delay_charging, should_delay_charging_with.
  destruct (Qleb (deficit_of v rt) 0); [done|].
  destruct (Qleb (minutes_until (RoutePlan.start_time rt) now) 60.0); [done|].
  destruct (price_at prices now) as [pn|] eqn:Epn; [|done].
  destruct (min_price_until prices now (RoutePlan.start_time rt))
    as [bf|] eqn:Ebf; [|done].
  apply price_at_elem in Epn as (q1 & Hq1 & <-).
  apply min_price_until_Some in Ebf as [(q2 & Hq2 & _ & <-) _].
  rewrite Forall_forall in Hflat.
  pose proof (Hflat q1 Hq1) as H1. pose proof (Hflat q2 Hq2) as H2.
  cbn beta in H1, H2. apply Qltb_ge. nra.
Qed.

Lemma flat_prices_never_defer_witness :
  delay_applied_of 0 [EnergyPricePoint.mk 0 0.20]
                   (scenario_vehicle, sample_charger, scenario_route)
  = false.
Proof.
  apply (flat_prices_never_defer 0%Z [EnergyPricePoint.mk 0 0.20] 0.20).
  - discriminate.
  - constructor; [reflexivity | constructor].
Defined.
End Caller.

(** * Properties of [notifications.py] *)

Section NotifierFacts.
Import Notifier.

Lemma list_remove_Some x l :
  x ∈ l →
  ∃ l1 l2, l = l1 ++ x :: l2 ∧ (x ∉ l1) ∧ list_remove x l = Some (l1 ++ l2).
Proof.
  induction l as [|y l IH]; intros Hin; [by apply elem_of_nil in Hin|].
  cbn. destruct (decide (x = y)) as [<- | Hne].
  - exists [], l. split; [done|]. split; [apply not_elem_of_nil | done].
  - apply elem_of_cons in Hin as [? | Hin]; [done|].
    destruct (IH Hin) as (l1 & l2 & -> & Hl1 & ->).
    exists (y :: l1), l2. split; [done|]. split; [|done].
    apply not_elem_of_cons. by split.
Qed.

Lemma list_remove_snoc x l : x ∉ l → list_remove x (l ++ [x]) = Some l.
Proof.
  induction l as [|y l IH]; intros H; cbn.
  - by rewrite decide_True.
  - apply not_elem_of_cons in H as [Hne H].
    rewrite decide_False by done. by rewrite IH.
Qed.

(** [disconnect] never raises.  It leaves the list alone when the socket
    is not registered, and otherwise drops exactly its first
    registration, keeping everything else in order; disconnecting a
    socket that was just connected for the first time gives the list
    back. *)
Theorem disconnect_first clients ws :
  (ws ∉ clients → disconnect clients ws = Some clients)
  ∧ (ws ∈ clients →
     ∃ l1 l2, clients = l1 ++ ws :: l2 ∧ (ws ∉ l1)
              ∧ disconnect clients ws = Some (l1 ++ l2))
  ∧ (ws ∉ clients → disconnect (connect clients ws) ws = Some clients).
Proof.
  split; [|split].
  - intros H. unfold disconnect. by rewrite decide_False.
  - intros H. unfold disconnect. rewrite decide_True by done.
    by apply list_remove_Some.
  - intros H. unfold disconnect, connect.
    rewrite decide_True by (apply elem_of_app; right; apply list_elem_of_here).
    by apply list_remove_snoc.
Qed.

Lemma disconnect_first_witness :
  disconnect (connect [1%nat; 2%nat] 3%nat) 3%nat = Some [1%nat; 2%nat].
Proof.
  apply (proj2 (proj2 (disconnect_first [1%nat; 2%nat] 3%nat))).
  intros H. apply elem_of_cons in H as [H | H]; [discriminate|].
  apply list_elem_of_singleton in H. discriminate.
Defined.

Lemma list_remove_sublist x l r : list_remove x l = Some r → r `sublist_of` l.
Proof.
  revert r. induction l as [|y l IH]; intros r; cbn; [discriminate|].
  destruct (decide (x = y)).
  - intros [= <-]. by apply sublist_cons.
  - destruct (list_remove x l) as [r'|]; [|discriminate].
    intros [= <-]. apply sublist_skip. by apply IH.
Qed.

Lemma broadcast_fold (cl dead : list WebSocket) :
  dead ⊆+ cl →
  ∃ r, foldl (λ acc c, match acc with
                       | Some cl => disconnect cl c
                       | None => None
                       end) (Some cl) dead = Some r
       ∧ cl ≡ₚ dead ++ r
       ∧ r `sublist_of` cl.
Proof.
  revert cl. induction dead as [|d dead IH]; intros cl Hsub.
  - by exists cl.
  - assert (d ∈ cl) as Hd.
    { eapply elem_of_submseteq; [apply list_elem_of_here | exact Hsub]. }
    cbn [foldl]. unfold disconnect at 2. rewrite decide_True by done.
    destruct (list_remove_Some d cl Hd) as (l1 & l2 & Hcl & Hl1 & Hrm).
    rewrite Hrm.
    assert (dead ⊆+ l1 ++ l2) as Hsub'.
    { apply (submseteq_app_inv_l _ _ [d]). cbn.
      etrans; [exact Hsub|]. by rewrite Hcl, <- Permutation_middle. }
    destruct (IH _ Hsub') as (r & Hr & Hperm & Hsl).
    exists r. split; [done|]. split.
    + rewrite Hcl, <- Permutation_middle. cbn. by rewrite Hperm.
    + etrans; [exact Hsl|]. by apply list_remove_sublist in Hrm.
Qed.
Lemma sublist_perm_eq {A} (l r1 r2 : list A) :
  NoDup l → r1 `sublist_of` l → r2 `sublist_of` l → r1 ≡ₚ r2 → r1 = r2.
Proof.
  revert r1 r2. induction l as [|x l IH]; intros r1 r2 Hnd H1 H2 Hp.
  - apply sublist_nil_r in H1, H2. by subst.
  - apply NoDup_cons in Hnd as [Hx Hnd].
    assert (Hnot : ∀ r : list A, r `sublist_of` l → x ∉ r).
    { intros r Hr Hin. apply Hx. by eapply elem_of_sublist. }
    apply sublist_cons_r in H1 as [H1 | (r1' & -> & H1)],
                            H2 as [H2 | (r2' & -> & H2)].
    + by apply IH.
    + exfalso. apply (Hnot r1 H1). rewrite Hp. apply list_elem_of_here.
    + exfalso. apply (Hnot r2 H2). rewrite <- Hp. apply list_elem_of_here.
    + f_equal. apply IH; try done. by apply Permutation_cons_inv in Hp.
Qed.

Lemma filter_outcomes_perm (sends : list (WebSocket * bool)) :
  sends.*1 ≡ₚ (filter (λ s, s.2 = false) sends).*1
               ++ (filter (λ s, s.2 = true) sends).*1.
Proof.
  induction sends as [|[c []] sends IH]; [done| |].
  - rewrite filter_cons_False by done. rewrite filter_cons_True by done.
    cbn. rewrite <- Permutation_middle. by f_equiv.
  - rewrite filter_cons_True by done. rewrite filter_cons_False by done.
    cbn. by f_equiv.
Qed.

(** [broadcast] never raises.  It removes as many registrations as sends
    failed and keeps the remaining clients in their order; when no socket
    is registered twice, the clients afterwards are exactly those whose
    send succeeded. *)
Theorem broadcast_drops_failed (sends : list (WebSocket * bool)) :
  ∃ r, broadcast sends = Some r
       ∧ length r = length (filter (λ s, s.2 = true) sends)
       ∧ r `sublist_of` sends.*1
       ∧ sends.*1 ≡ₚ (filter (λ s, s.2 = false) sends).*1 ++ r
       ∧ (NoDup sends.*1 → r = (filter (λ s, s.2 = true) sends).*1).
Proof.
  assert ((filter (λ s, s.2 = false) sends).*1 ⊆+ sends.*1) as Hsub.
  { apply sublist_submseteq, fmap_sublist, sublist_filter. }
  destruct (broadcast_fold _ _ Hsub) as (r & Hr & Hperm & Hsl).
  exists r. split; [exact Hr|].
  assert (r ≡ₚ (filter (λ s, s.2 = true) sends).*1) as Hrp.
  { apply (Permutation_app_inv_l (filter (λ s, s.2 = false) sends).*1).
    by rewrite <- Hperm, <- filter_outcomes_perm. }
  split; [by rewrite Hrp, length_fmap|].
  split; [done|]. split; [done|].
  intros Hnd. apply (sublist_perm_eq sends.*1); try done.
  apply fmap_sublist, sublist_filter.
Qed.

Lemma broadcast_drops_failed_witness :
  ∃ r, broadcast [(1%nat, true); (2%nat, false); (3%nat, true)] = Some r
       ∧ r = [1%nat; 3%nat].
Proof.
  destruct (broadcast_drops_failed
              [(1%nat, true); (2%nat, false); (3%nat, true)])
    as (r & Hr & _ & _ & _ & Hnd).
  exists r. split; [exact Hr|]. apply Hnd.
  cbn. repeat (apply NoDup_cons; split;
    [intros H; repeat (apply elem_of_cons in H as [H | H]; [discriminate|]);
     by apply elem_of_nil in H|]).
  apply NoDup_nil_2.
Defined.
End NotifierFacts.

(** * More on [make_plan]: eligibility, skipped vehicles, statuses *)

Section Eligibility.

Lemma last_filter_None {A} (P : A → Prop) `{!∀ x, Decision (P x)} (l : list A) :
  last (filter P l) = None ↔ ∀ x, x ∈ l → ¬ P x.
Proof.
  rewrite last_None. split.
  - intros Hnil x Hx HP.
    assert (x ∈ filter P l) as Hin by (by apply list_elem_of_filter).
    rewrite Hnil in Hin. by apply elem_of_nil in Hin.
  - intros Hall. destruct (filter P l) as [|y r] eqn:E; [done|].
    assert (y ∈ filter P l) as Hin by (rewrite E; apply list_elem_of_here).
    apply list_elem_of_filter in Hin as [HP Hin]. by destruct (Hall y Hin).
Qed.

(** The eligibility filter on the input lists.  A vehicle is eligible
    exactly when it is [DISPONIVEL], names a charger, the last charger
    of the input with that id is enabled, and the input has a route for
    the vehicle; the triple then holds that charger and the last such
    route.  Otherwise the first failing test gives the reason: state,
    no charger named, charger unknown, charger disabled, no route. *)
Theorem eligibility chargers routes v :
  let outcome :=
    filter_vehicle (charger_by_id_of chargers) (route_by_vehicle_of routes) v in
  (∀ t, outcome = inr t
        ↔ t.1.1 = v
          ∧ Vehicle.state v = "DISPONIVEL"
          ∧ (∃ cid, Vehicle.charger_id v = Some cid ∧ cid ≠ ""
                    ∧ last (filter (λ c, Charger.id c = cid) chargers)
                      = Some t.1.2)
          ∧ Charger.enabled t.1.2 = true
          ∧ last (filter (λ r, RoutePlan.vehicle_id r = Vehicle.id v) routes)
            = Some t.2)
  ∧ (Vehicle.state v ≠ "DISPONIVEL" →
     outcome = inl (ignored ("estado=" ++ Vehicle.state v)))
  ∧ (Vehicle.state v = "DISPONIVEL" →
     Vehicle.charger_id v = None ∨ Vehicle.charger_id v = Some "" →
     outcome = inl (ignored "não está ligado a carregador"))
  ∧ (∀ cid, Vehicle.state v = "DISPONIVEL" →
       Vehicle.charger_id v = Some cid → cid ≠ "" →
       (∀ c, c ∈ chargers → Charger.id c ≠ cid) →
       outcome = inl (ignored ("carregador " ++ cid ++ " não existe")))
  ∧ (∀ cid ch, Vehicle.state v = "DISPONIVEL" →
       Vehicle.charger_id v = Some cid → cid ≠ "" →
       last (filter (λ c, Charger.id c = cid) chargers) = Some ch →
       Charger.enabled ch = false →
       outcome = inl (ignored ("carregador " ++ Charger.id ch ++ " desativado")))
  ∧ (∀ cid ch, Vehicle.state v = "DISPONIVEL" →
       Vehicle.charger_id v = Some cid → cid ≠ "" →
       last (filter (λ c, Charger.id c = cid) chargers) = Some ch →
       Charger.enabled ch = true →
       (∀ r, r ∈ routes → RoutePlan.vehicle_id r ≠ Vehicle.id v) →
       outcome = inl (ignored "sem rota atribuída")).
Proof.
  intros outcome. subst outcome.
  assert (Hc : ∀ cid, charger_by_id_of chargers !! cid
                      = last (filter (λ c, Charger.id c = cid) chargers))
    by (intros; apply (lookup_comprehension Charger.id)).
  assert (Hr : ∀ vid, route_by_vehicle_of routes !! vid
                      = last (filter (λ r, RoutePlan.vehicle_id r = vid) routes))
    by (intros; apply (lookup_comprehension RoutePlan.vehicle_id)).
  unfold filter_vehicle. split; [|split; [|split; [|split; [|split]]]].
  - intros [[v' ch] rt]. cbn [fst snd].
    destruct (String.eqb (Vehicle.state v) "DISPONIVEL") eqn:Es; cbn [negb].
    2:{ apply String.eqb_neq in Es. split; [discriminate | tauto]. }
    apply String.eqb_eq in Es.
    destruct (Vehicle.charger_id v) as [cid|] eqn:Ecid.
    2:{ split; [discriminate | intros (_ & _ & (? & ? & _) & _); discriminate]. }
    destruct (String.eqb cid "") eqn:Ee.
    { apply String.eqb_eq in Ee.
      split; [discriminate|]. intros (_ & _ & (? & [= <-] & ? & _) & _). done. }
    apply String.eqb_neq in Ee. rewrite Hc, Hr.
    destruct (last (filter (λ c, Charger.id c = cid) chargers)) as [ch'|] eqn:El.
    2:{ split; [discriminate|].
        intros (_ & _ & (? & [= <-] & _ & ?) & _). congruence. }
    destruct (Charger.enabled ch') eqn:Een; cbn [negb].
    2:{ split; [discriminate|].
        intros (_ & _ & (? & [= <-] & _ & ?) & ? & _). congruence. }
    destruct (last (filter (λ r, RoutePlan.vehicle_id r = Vehicle.id v) routes))
      as [rt'|] eqn:Elr.
    2:{ split; [discriminate | intros (_ & _ & _ & _ & ?); discriminate]. }
    split.
    + intros [= <- <- <-]. repeat split; try done. by exists cid.
    + intros (-> & _ & (? & [= <-] & _ & H0) & _ & H1).
      assert (Some ch' = Some ch) as [= ->]
        by (etrans; [symmetry; exact El | exact H0]).
      by injection H1 as ->.
  - intros Hs. apply String.eqb_neq in Hs. by rewrite Hs.
  - intros Hs Hcid. apply String.eqb_eq in Hs. rewrite Hs. cbn [negb].
    by destruct Hcid as [-> | ->].
  - intros cid Hs Hcid Hne Hnone. apply String.eqb_eq in Hs.
    apply String.eqb_neq in Hne. rewrite Hs, Hcid, Hne, Hc. cbn [negb].
    assert (last (filter (λ c, Charger.id c = cid) chargers) = None) as ->
      by (by apply last_filter_None).
    done.
  - intros cid ch Hs Hcid Hne Hl Hen. apply String.eqb_eq in Hs.
    apply String.eqb_neq in Hne. rewrite Hs, Hcid, Hne, Hc, Hl, Hen. done.
  - intros cid ch Hs Hcid Hne Hl Hen Hnone. apply String.eqb_eq in Hs.
    apply String.eqb_neq in Hne. rewrite Hs, Hcid, Hne, Hc, Hl, Hen, Hr.
    cbn [negb].
    assert (last (filter (λ r, RoutePlan.vehicle_id r = Vehicle.id v) routes)
            = None) as -> by (by apply last_filter_None).
    done.
Qed.

Lemma eligibility_witness :
  filter_vehicle (charger_by_id_of [sample_charger])
                 (route_by_vehicle_of [sample_route])
                 (Vehicle.mk "m1" 100 0.2 1 20 "MANUTENCAO" None)
  = inl (ignored "estado=MANUTENCAO").
Proof.
  apply (proj1 (proj2 (eligibility [sample_charger] [sample_route]
           (Vehicle.mk "m1" 100 0.2 1 20 "MANUTENCAO" None)))).
  discriminate.
Defined.
End Eligibility.

Section Skipped.
Local Open Scope Q_scope.

Lemma visited_all_or_break now prices site l st :
  visited now prices site l st = l
  ∨ (remaining_kw (plan_loop now prices site l st) <= 0.01
     ∧ commands (plan_loop now prices site l st) ≠ []).
Proof.
  revert st. induction l as [|[[v ch] rt] l IH]; intros st; [by left|].
  cbn [visited plan_loop].
  destruct (plan_step_detail now prices site st v ch rt)
    as [e Hd He | e Hd Hm He | e Hd Hm Hf He Hb | e Hd Hm Hf He].
  1-3: by (match goal with |- context [visited _ _ _ _ ?s] =>
             destruct (IH s) as [-> | ?] end; [left | right]).
  destruct (Qleb _ 0.01) eqn:E.
  - right. apply Qleb_le in E. cbn. split; [done|].
    by destruct (commands st).
  - match goal with |- context [visited _ _ _ _ ?s] =>
      destruct (IH s) as [-> | ?] end; [by left | by right].
Qed.

(** An eligible vehicle is left unvisited only when the budget is used
    up: the plan then has commands and its [total_kw] is within 0.01 of
    the site cap. *)
Theorem skipped_only_when_exhausted now vehicles chargers routes prices site t :
  t ∈ eligible_sorted now vehicles chargers routes →
  t ∉ visited now prices site (eligible_sorted now vehicles chargers routes)
              (initial_state vehicles chargers routes site) →
  let plan := make_plan now vehicles chargers routes prices site in
  SiteConstraints.site_max_kw site - 0.01 <= PlanResult.total_kw plan
  ∧ PlanResult.commands plan ≠ [].
Proof.
  intros Hin Hout plan. subst plan.
  cbn [make_plan PlanResult.total_kw PlanResult.commands].
  destruct (visited_all_or_break now prices site
              (eligible_sorted now vehicles chargers routes)
              (initial_state vehicles chargers routes site)) as [E | [Hr Hc]].
  - rewrite E in Hout. done.
  - split; [lra | done].
Qed.

Lemma skipped_only_when_exhausted_witness :
  SiteConstraints.site_max_kw tight_site - 0.01
  <= PlanResult.total_kw tight_plan
  ∧ PlanResult.commands tight_plan ≠ [].
Proof.
  apply (skipped_only_when_exhausted 0%Z [sample_vehicle; second_vehicle]
           [sample_charger; second_charger] [sample_route; second_route] []
           tight_site (second_vehicle, second_charger, second_route)).
  - vm_compute. apply list_elem_of_further, list_elem_of_here.
  - vm_compute. intros H. apply list_elem_of_singleton in H. discriminate.
Defined.

(** With pairwise distinct identities among the visited triples, the
    explanation that the plan holds for a visited vehicle is the one
    written at its visit. *)
Lemma visited_status_inv now prices site l st0 :
  NoDup ((λ t : Triple, Vehicle.id t.1.1) <$> visited now prices site l st0) →
  ∀ t, t ∈ visited now prices site l st0 →
    ∃ e, explanations (plan_loop now prices site l st0) !! Vehicle.id t.1.1
         = Some e
      ∧ (deficit_of t.1.1 t.2 <= 0 → status e = ok)
      ∧ (0 < deficit_of t.1.1 t.2 →
         minutes_until (RoutePlan.start_time t.2) now <= 0 → status e = erro)
      ∧ (0 < deficit_of t.1.1 t.2 →
         0 < minutes_until (RoutePlan.start_time t.2) now →
         status e = planeado ∨ status e = nao_planeado)
      ∧ (delay_applied_of now prices t = true → status e = nao_planeado).
Proof.
  intros Hnd.
  apply (plan_loop_invariant now prices site
    (λ vis st, ∀ t, t ∈ vis →
       ∃ e, explanations st !! Vehicle.id t.1.1 = Some e
         ∧ (deficit_of t.1.1 t.2 <= 0 → status e = ok)
         ∧ (0 < deficit_of t.1.1 t.2 →
            minutes_until (RoutePlan.start_time t.2) now <= 0 →
            status e = erro)
         ∧ (0 < deficit_of t.1.1 t.2 →
            0 < minutes_until (RoutePlan.start_time t.2) now →
            status e = planeado ∨ status e = nao_planeado)
         ∧ (delay_applied_of now prices t = true → status e = nao_planeado))).
  { intros t Ht. by apply elem_of_nil in Ht. }
  intros pre [[v ch] rt] st [rest Hpre] IH t Ht.
  assert (Vehicle.id v ∉ (λ t : Triple, Vehicle.id t.1.1) <$> pre) as Hfresh.
  { rewrite Hpre, !fmap_app in Hnd. apply NoDup_app in Hnd as [Hnd _].
    apply NoDup_app in Hnd as (_ & Hnd & _).
    intros Hin. apply (Hnd _ Hin). cbn. apply list_elem_of_here. }
  apply elem_of_app in Ht as [Ht | Ht].
  - assert (Vehicle.id t.1.1 ≠ Vehicle.id v) as Hne.
    { intros E. apply Hfresh. rewrite <- E.
      apply list_elem_of_fmap. by exists t. }
    destruct (IH t Ht) as (e & He & Hrest).
    exists e. split; [|done].
    destruct (plan_step_effect now prices site st v ch rt)
      as (e' & na & nc & -> & _).
    cbn [explanations]. by rewrite lookup_insert_ne.
  - apply list_elem_of_singleton in Ht. subst t. cbn [fst snd].
    destruct (plan_step_detail now prices site st v ch rt)
      as [e Hd He | e Hd Hm He | e Hd Hm Hf He Hb | e Hd Hm Hf He];
      cbn [fst explanations]; exists e; rewrite lookup_insert_eq;
      (split; [done|]).
    + repeat split; intros; try lra; try done.
      pose proof (delay_applied_gate now prices v ch rt ltac:(done)). lra.
    + repeat split; intros; try lra; try done.
      pose proof (delay_applied_gate now prices v ch rt ltac:(done)). lra.
    + repeat split; intros; try lra; try done. by right.
    + repeat split; intros; try lra; try done; [by left|].
      pose proof (final_kw_deferred now prices st (v, ch, rt) ltac:(done)). lra.
Qed.

(** With pairwise distinct vehicle identities in the input, every visited
    vehicle has an explanation in the plan, and its status follows the
    vehicle's situation: [ok] without a deficit, [erro] with a deficit
    and a route start that is now or past, [planeado] or [nao_planeado]
    otherwise, and [nao_planeado] whenever charging was deferred. *)
Theorem visited_status now vehicles chargers routes prices site v ch rt :
  NoDup (Vehicle.id <$> vehicles) →
  (v, ch, rt) ∈ visited now prices site
                  (eligible_sorted now vehicles chargers routes)
                  (initial_state vehicles chargers routes site) →
  ∃ e, PlanResult.explanations
         (make_plan now vehicles chargers routes prices site) !! Vehicle.id v
       = Some e
    ∧ (deficit_of v rt <= 0 → status e = ok)
    ∧ (0 < deficit_of v rt →
       minutes_until (RoutePlan.start_time rt) now <= 0 → status e = erro)
    ∧ (0 < deficit_of v rt →
       0 < minutes_until (RoutePlan.start_time rt) now →
       status e = planeado ∨ status e = nao_planeado)
    ∧ (delay_applied_of now prices (v, ch, rt) = true →
       status e = nao_planeado).
Proof.
  intros Hnd Hin. cbn [make_plan PlanResult.explanations].
  apply (visited_status_inv now prices site
           (eligible_sorted now vehicles chargers routes)
           (initial_state vehicles chargers routes site)
           (visited_ids_NoDup now vehicles chargers routes prices site Hnd)
           (v, ch, rt) Hin).
Qed.

Lemma visited_status_witness :
  ∃ e, PlanResult.explanations sample_plan !! "v1" = Some e
    ∧ (deficit_of sample_vehicle sample_route <= 0 → status e = ok)
    ∧ (0 < deficit_of sample_vehicle sample_route →
       minutes_until (RoutePlan.start_time sample_route) 0 <= 0 →
       status e = erro)
    ∧ (0 < deficit_of sample_vehicle sample_route →
       0 < minutes_until (RoutePlan.start_time sample_route) 0 →
       status e = planeado ∨ status e = nao_planeado)
    ∧ (delay_applied_of 0 [] (sample_vehicle, sample_charger, sample_route)
       = true → status e = nao_planeado).
Proof.
  apply (visited_status 0%Z [sample_vehicle] [sample_charger] [sample_route]
           [] sample_site sample_vehicle sample_charger sample_route).
  - apply NoDup_singleton.
  - vm_compute. constructor.
Defined.
End Skipped.
